(** * transition_composite: compose one image over another using alpha channel

    A shallow embedding of [src/modules/core/transition_composite.c] and the
    properties of it that the design document states.

    Conventions of the embedding.
    - C [float] and [double] are IEEE-754 binary32 and binary64 values with
      round-to-nearest-even, every operation evaluated in the type the C
      usual arithmetic conversions give it (FLT_EVAL_METHOD 0).  They are
      [spec_float] values of the Standard Library's executable
      specification, kept canonical in their format.
    - C [int] is a 32-bit signed integer kept in [Z]; every operation
      checks its result, and an overflow, a division by zero, a
      floating-point value converted to an integer type that cannot hold
      it, or a memory access outside a buffer makes the function return
      [None]: the C program has no defined behaviour there.
    - A [char *] into a string is the suffix it points at; [NULL] is [None].
    - A struct passed by pointer is passed in and handed back; the contents
      a caller leaves uninitialised are whatever the incoming record holds. *)

From Stdlib Require Import ZArith Lia Bool Ascii String.
From Stdlib Require Import Floats.SpecFloat.
From stdpp Require Import base option list gmap strings.

Local Open Scope Z_scope.

(** ** IEEE-754 arithmetic *)

Module Flt.

Definition float := spec_float.
Definition double := spec_float.

(** binary32 *)
Definition fadd : float -> float -> float := SFadd 24 128.
Definition fsub : float -> float -> float := SFsub 24 128.
Definition fmul : float -> float -> float := SFmul 24 128.
Definition fdiv : float -> float -> float := SFdiv 24 128.
Definition fleb : float -> float -> bool := SFleb.
Definition feqb : float -> float -> bool := SFeqb.

(** binary64 *)
Definition dadd : double -> double -> double := SFadd 53 1024.
Definition dmul : double -> double -> double := SFmul 53 1024.
Definition ddiv : double -> double -> double := SFdiv 53 1024.
Definition dltb : double -> double -> bool := SFltb.

(** Conversions.  Widening is exact and only renormalises the mantissa;
    narrowing rounds. *)
Definition renorm (prec emax : Z) (x : spec_float) : spec_float :=
  match x with
  | S754_finite s m e => binary_round prec emax s m e
  | _ => x
  end.

Definition to_double : float -> double := renorm 53 1024.
Definition to_float : double -> float := renorm 24 128.

Definition float_of_int (n : Z) : float := binary_normalize 24 128 n 0 false.
Definition double_of_int (n : Z) : double := binary_normalize 53 1024 n 0 false.

(** Truncation toward zero of a finite value; [None] on NaN and
    infinities. *)
Definition trunc (x : spec_float) : option Z :=
  match x with
  | S754_zero _ => Some 0
  | S754_finite s m e =>
      let a := if 0 <=? e then Z.pos m * 2 ^ e else Z.pos m / 2 ^ (- e) in
      Some (if s then - a else a)
  | _ => None
  end.

(** The double constants of the source text. *)
Definition d0_5 : double := Eval vm_compute in ddiv (double_of_int 1) (double_of_int 2).
Definition d2_0 : double := Eval vm_compute in double_of_int 2.
Definition d1_0 : double := Eval vm_compute in double_of_int 1.
Definition d100_0 : double := Eval vm_compute in double_of_int 100.
Definition d255_0 : double := Eval vm_compute in double_of_int 255.

(** Exact order between an integer and a floating-point value, both read
    as real numbers: [Zle_float n x] is [n <= x]. *)
Definition Zle_float (n : Z) (x : spec_float) : bool :=
  match x with
  | S754_zero _ => n <=? 0
  | S754_finite s m e =>
      let v := if s then Z.neg m else Z.pos m in
      if 0 <=? e then n <=? v * 2 ^ e else n * 2 ^ (- e) <=? v
  | S754_infinity s => negb s
  | S754_nan => false
  end.

(** [0 <= x] as real numbers. *)
Definition nonneg (x : spec_float) : bool :=
  match x with
  | S754_zero _ => true
  | S754_finite s _ _ => negb s
  | S754_infinity s => negb s
  | S754_nan => false
  end.

Definition is_zero (x : spec_float) : bool :=
  match x with S754_zero _ => true | _ => false end.

(** Neither NaN nor an infinity. *)
Definition is_finite (x : spec_float) : bool :=
  match x with S754_zero _ | S754_finite _ _ _ => true | _ => false end.

(** [mag_le K x]: [x] is finite and [|x| < 2 ^ K]. *)
Definition mag_le (K : Z) (x : spec_float) : bool :=
  match x with
  | S754_zero _ => true
  | S754_finite _ m e => Z.pos (digits2_pos m) + e <=? K
  | _ => false
  end.

End Flt.

(** ** C integers *)

Module Int.

Definition INT_MIN : Z := - 2147483648.
Definition INT_MAX : Z := 2147483647.

Definition in_range (z : Z) : bool := (INT_MIN <=? z) && (z <=? INT_MAX).

Definition chk (z : Z) : option Z := if in_range z then Some z else None.

Definition add (a b : Z) : option Z := chk (a + b).
Definition sub (a b : Z) : option Z := chk (a - b).
Definition mul (a b : Z) : option Z := chk (a * b).
Definition neg (a : Z) : option Z := chk (- a).
(** [/] and [%] truncate toward zero. *)
Definition div (a b : Z) : option Z := if b =? 0 then None else chk (Z.quot a b).
Definition rem (a b : Z) : option Z :=
  if b =? 0 then None else if in_range (Z.quot a b) then Some (Z.rem a b) else None.

(** Conversion of a floating-point value to [int]. *)
Definition of_float (x : spec_float) : option Z := Flt.trunc x ≫= chk.

(** Conversion of a floating-point value to [uint8_t]. *)
Definition uint8_of_float (x : spec_float) : option Z :=
  v ← Flt.trunc x; if (0 <=? v) && (v <=? 255) then Some v else None.

End Int.

(** ** The C library's [strtod], [isdigit] and [atoi]

    Modelled from the C standard (the functions belong to libc, not to the
    repository): optional white space, an optional sign, then a decimal
    floating constant, a hexadecimal floating constant, [inf]/[infinity]
    or [nan]/[nan(...)], correctly rounded to binary64 in the C locale.
    When no conversion can be performed the result is zero and the end
    pointer is the start pointer. *)

Module Libc.

Definition code (c : ascii) : Z := Z.of_N (Ascii.N_of_ascii c).

Definition isspace (c : ascii) : bool :=
  let n := code c in (n =? 32) || ((9 <=? n) && (n <=? 13)).

Definition digit_val (c : ascii) : option Z :=
  let n := code c in
  if (48 <=? n) && (n <=? 57) then Some (n - 48) else None.

Definition isdigit (c : ascii) : bool :=
  match digit_val c with Some _ => true | None => false end.

Definition hex_val (c : ascii) : option Z :=
  let n := code c in
  if (48 <=? n) && (n <=? 57) then Some (n - 48)
  else if (97 <=? n) && (n <=? 102) then Some (n - 87)
  else if (65 <=? n) && (n <=? 70) then Some (n - 55)
  else None.

Definition tolower (c : ascii) : ascii :=
  let n := code c in
  if (65 <=? n) && (n <=? 90) then Ascii.ascii_of_N (Z.to_N (n + 32)) else c.

Definition isalnum_ (c : ascii) : bool :=
  let n := code (tolower c) in
  ((48 <=? n) && (n <=? 57)) || ((97 <=? n) && (n <=? 122)) || (n =? 95).

Fixpoint skip_space (s : string) : string :=
  match s with
  | String c r => if isspace c then skip_space r else s
  | EmptyString => s
  end.

(** An optional sign: [true] for a minus. *)
Definition sign (s : string) : bool * string :=
  match s with
  | String "-" r => (true, r)
  | String "+" r => (false, r)
  | _ => (false, s)
  end.

(** The longest run of digits of [s] in base [base], accumulated onto
    [acc]; [cnt] counts them. *)
Fixpoint span_num (val : ascii -> option Z) (base : Z) (s : string) (acc cnt : Z)
  : Z * Z * string :=
  match s with
  | String c r =>
      match val c with
      | Some d => span_num val base r (acc * base + d) (cnt + 1)
      | None => (acc, cnt, s)
      end
  | EmptyString => (acc, cnt, s)
  end.

(** A nonempty digit sequence optionally containing a radix character:
    the integer the digits spell, the number of digits after the point,
    and the rest. *)
Definition scan_mantissa (val : ascii -> option Z) (base : Z) (s : string)
  : option (Z * Z * string) :=
  let '(ip, ni, r1) := span_num val base s 0 0 in
  match r1 with
  | String "." r1' =>
      let '(m, nf, r2) := span_num val base r1' ip 0 in
      if ni + nf =? 0 then None else Some (m, nf, r2)
  | _ => if ni =? 0 then None else Some (ip, 0, r1)
  end.

(** An optional exponent part introduced by [lo] (or its upper case). *)
Definition scan_exponent (lo : ascii) (s : string) : Z * string :=
  match s with
  | String c r =>
      if Ascii.eqb (tolower c) lo then
        let '(sg, r') := sign r in
        let '(e, n, r'') := span_num digit_val 10 r' 0 0 in
        if n =? 0 then (0, s) else (if sg then - e else e, r'')
      else (0, s)
  | EmptyString => (0, s)
  end.

(** [m * base ^ e], correctly rounded to binary64. *)
Definition scaled (neg : bool) (m : Z) (base : Z) (e : Z) : Flt.double :=
  match m with
  | Z.pos p =>
      if 0 <=? e then binary_round 53 1024 neg (Z.to_pos (m * base ^ e)) 0
      else SFdiv 53 1024 (S754_finite neg p 0) (S754_finite false (Z.to_pos (base ^ (- e))) 0)
  | _ => S754_zero neg
  end.

(** [p] is lower case; the rest of [s] after a case-insensitive match. *)
Fixpoint prefix_ci (p s : string) : option string :=
  match p, s with
  | EmptyString, _ => Some s
  | String a p', String b s' => if Ascii.eqb a (tolower b) then prefix_ci p' s' else None
  | _, _ => None
  end.

Fixpoint skip_alnum (s : string) : string :=
  match s with
  | String c r => if isalnum_ c then skip_alnum r else s
  | EmptyString => s
  end.

Definition hex_float (neg : bool) (s : string) : option (Flt.double * string) :=
  match s with
  | String "0" (String c r) =>
      if Ascii.eqb (tolower c) "x"%char then
        '(m, nf, r1) ← scan_mantissa hex_val 16 r;
        let '(e, r2) := scan_exponent "p" r1 in
        Some (scaled neg m 2 (e - 4 * nf), r2)
      else None
  | _ => None
  end.

Definition dec_float (neg : bool) (s : string) : option (Flt.double * string) :=
  '(m, nf, r1) ← scan_mantissa digit_val 10 s;
  let '(e, r2) := scan_exponent "e" r1 in
  Some (scaled neg m 10 (e - nf), r2).

Definition inf_nan (neg : bool) (s : string) : option (Flt.double * string) :=
  match prefix_ci "infinity" s with
  | Some r => Some (S754_infinity neg, r)
  | None =>
  match prefix_ci "inf" s with
  | Some r => Some (S754_infinity neg, r)
  | None =>
  match prefix_ci "nan" s with
  | Some r =>
      match r with
      | String "(" r' =>
          match skip_alnum r' with
          | String ")" r'' => Some (S754_nan, r'')
          | _ => Some (S754_nan, r)
          end
      | _ => Some (S754_nan, r)
      end
  | None => None
  end end end.

(** The subject sequence of [nptr], converted, and what follows it;
    [None] when [nptr] does not start with a number. *)
Definition convert (nptr : string) : option (Flt.double * string) :=
  let '(neg, s) := sign (skip_space nptr) in
  match hex_float neg s with
  | Some r => Some r
  | None =>
  match dec_float neg s with
  | Some r => Some r
  | None => inf_nan neg s
  end end.

Definition strtod (nptr : string) : Flt.double * string :=
  match convert nptr with
  | Some r => r
  | None => (S754_zero false, nptr)
  end.

(** [atoi]: white space, a sign, decimal digits; the value must fit. *)
Definition atoi (s : string) : option Z :=
  let '(neg, r) := sign (skip_space s) in
  let '(v, _, _) := span_num digit_val 10 r 0 0 in
  Int.chk (if neg then - v else v).

End Libc.

(** ** Geometry struct *)

Module G.

Record geometry_s := mk {
  nw : Z;               (* normalised width *)
  nh : Z;               (* normalised height *)
  sw : Z;               (* scaled width, not including consumer scale based upon w/nw *)
  sh : Z;               (* scaled height, not including consumer scale based upon h/nh *)
  x : Flt.float;
  y : Flt.float;
  w : Flt.float;
  h : Flt.float;
  mix : Flt.float;
  halign : Z;           (* horizontal alignment: 0=left, 1=center, 2=right *)
  valign : Z            (* vertical alignment: 0=top, 1=middle, 2=bottom *)
}.

Definition with_n (a b : Z) (g : geometry_s) : geometry_s :=
  mk a b (sw g) (sh g) (x g) (y g) (w g) (h g) (mix g) (halign g) (valign g).
Definition with_s (a b : Z) (g : geometry_s) : geometry_s :=
  mk (nw g) (nh g) a b (x g) (y g) (w g) (h g) (mix g) (halign g) (valign g).
Definition with_sw (a : Z) (g : geometry_s) : geometry_s := with_s a (sh g) g.
Definition with_sh (b : Z) (g : geometry_s) : geometry_s := with_s (sw g) b g.
Definition with_x (v : Flt.float) (g : geometry_s) : geometry_s :=
  mk (nw g) (nh g) (sw g) (sh g) v (y g) (w g) (h g) (mix g) (halign g) (valign g).
Definition with_y (v : Flt.float) (g : geometry_s) : geometry_s :=
  mk (nw g) (nh g) (sw g) (sh g) (x g) v (w g) (h g) (mix g) (halign g) (valign g).
Definition with_w (v : Flt.float) (g : geometry_s) : geometry_s :=
  mk (nw g) (nh g) (sw g) (sh g) (x g) (y g) v (h g) (mix g) (halign g) (valign g).
Definition with_h (v : Flt.float) (g : geometry_s) : geometry_s :=
  mk (nw g) (nh g) (sw g) (sh g) (x g) (y g) (w g) v (mix g) (halign g) (valign g).
Definition with_mix (v : Flt.float) (g : geometry_s) : geometry_s :=
  mk (nw g) (nh g) (sw g) (sh g) (x g) (y g) (w g) (h g) v (halign g) (valign g).
Definition with_halign (a : Z) (g : geometry_s) : geometry_s :=
  mk (nw g) (nh g) (sw g) (sh g) (x g) (y g) (w g) (h g) (mix g) a (valign g).
Definition with_valign (a : Z) (g : geometry_s) : geometry_s :=
  mk (nw g) (nh g) (sw g) (sh g) (x g) (y g) (w g) (h g) (mix g) (halign g) a.

End G.

Abbreviation geometry_s := G.geometry_s.

(** ** Parsing and interpolation of geometries *)

(** [**ptr != '\0']: a C string ends at its terminator. *)
Definition at_end (s : string) : bool :=
  match s with
  | EmptyString => true
  | String c _ => Ascii.eqb c "000"%char
  end.

(** [while ( *end == delim || *end == '%' ) end ++;] *)
Fixpoint skip_delim (delim : ascii) (e : string) : string :=
  match e with
  | String c r => if Ascii.eqb c delim || Ascii.eqb c "%"%char then skip_delim delim r else e
  | EmptyString => e
  end.

(** [value = ( value / 100.0 ) * normalisation], computed in double. *)
Definition percent (value : Flt.float) (normalisation : Z) : Flt.float :=
  Flt.to_float (Flt.dmul (Flt.ddiv (Flt.to_double value) Flt.d100_0)
                         (Flt.double_of_int normalisation)).

(** Parse a value from a geometry string.  The result is the value and the
    updated [*ptr]. *)
Definition parse_value (ptr : option string) (normalisation : Z) (delim : ascii)
    (defaults : Flt.float) : Flt.float * option string :=
  match ptr with
  | Some s =>
      if at_end s then (defaults, ptr)
      else
        let '(d, e) := Libc.strtod s in
        let value := Flt.to_float d in
        let value :=
          match e with
          | String "%" _ => percent value normalisation
          | _ => value
          end in
        (value, Some (skip_delim delim e))
  | None => (defaults, ptr)
  end.

(** [geometry->w = geometry->sw = v;]: the scaled size receives [v]
    converted to [int], and the float field receives that [int]. *)
Definition assign_w (v : Flt.float) (g : geometry_s) : option geometry_s :=
  n ← Int.of_float v; Some (G.with_w (Flt.float_of_int n) (G.with_sw n g)).
Definition assign_h (v : Flt.float) (g : geometry_s) : option geometry_s :=
  n ← Int.of_float v; Some (G.with_h (Flt.float_of_int n) (G.with_sh n g)).

(** Parse a geometry property string with the syntax X,Y:WxH:MIX.
    [geometry] is the struct the caller passes, with whatever it holds. *)
Definition geometry_parse (geometry : geometry_s) (defaults : option geometry_s)
    (property : option string) (nw nh : Z) : option geometry_s :=
  (* Assign normalised width and height *)
  let g := G.with_n nw nh geometry in
  (* Assign from defaults if available *)
  g ← match defaults with
      | Some d =>
          let g := G.with_y (G.y d) (G.with_x (G.x d) g) in
          g ← assign_w (G.w d) g;
          g ← assign_h (G.h d) g;
          Some (G.with_mix (G.mix d) g)
      | None => Some (G.with_mix (Flt.float_of_int 100) g)
      end;
  (* Parse the geometry string *)
  match property with
  | Some _ =>
      let ptr := property in
      let '(v, ptr) := parse_value ptr nw "," (G.x g) in
      let g := G.with_x v g in
      let '(v, ptr) := parse_value ptr nh ":" (G.y g) in
      let g := G.with_y v g in
      let '(v, ptr) := parse_value ptr nw "x" (G.w g) in
      g ← assign_w v g;
      let '(v, ptr) := parse_value ptr nh ":" (G.h g) in
      g ← assign_h v g;
      let '(v, ptr) := parse_value ptr 100 " " (G.mix g) in
      Some (G.with_mix v g)
  | None => Some g
  end.

(** Calculate real geometry. *)
Definition geometry_calculate (output in_ out : geometry_s) (position : Flt.float)
    : geometry_s :=
  let lerp a b := Flt.fadd a (Flt.fmul (Flt.fsub b a) position) in
  let bias v := Flt.to_float (Flt.dadd (Flt.to_double v) Flt.d0_5) in
  G.mk (G.nw in_) (G.nh in_) (G.sw output) (G.sh output)
       (bias (lerp (G.x in_) (G.x out)))
       (bias (lerp (G.y in_) (G.y out)))
       (lerp (G.w in_) (G.w out))
       (lerp (G.h in_) (G.h out))
       (lerp (G.mix in_) (G.mix out))
       (G.halign output) (G.valign output).

(** Parse the alignment properties into the geometry. *)
Definition alignment_parse (align : option string) : option Z :=
  match align with
  | None => Some 0
  | Some s =>
      match s with
      | String c _ =>
          if Libc.isdigit c then Libc.atoi s
          else if Ascii.eqb c "c" || Ascii.eqb c "m" then Some 1
          else if Ascii.eqb c "r" || Ascii.eqb c "b" then Some 2
          else Some 0
      | EmptyString => Some 0
      end
  end.

(** [( full - scaled ) * align / 2]: the share of the unused space. *)
Definition align_offset (full : Flt.float) (scaled align : Z) : Flt.float :=
  Flt.fdiv (Flt.fmul (Flt.fsub full (Flt.float_of_int scaled)) (Flt.float_of_int align))
           (Flt.float_of_int 2).

(** [v += offset + 0.5], the sums taken in double. *)
Definition add_biased (v offset : Flt.float) : Flt.float :=
  Flt.to_float (Flt.dadd (Flt.to_double v) (Flt.dadd (Flt.to_double offset) Flt.d0_5)).

(** Adjust position according to scaled size and alignment properties. *)
Definition alignment_calculate (geometry : geometry_s) : geometry_s :=
  let g := G.with_x (add_biased (G.x geometry)
                       (align_offset (G.w geometry) (G.sw geometry) (G.halign geometry)))
                    geometry in
  G.with_y (add_biased (G.y g) (align_offset (G.h g) (G.sh g) (G.valign g))) g.

(** ** Compositing *)

(** Pixel buffers are byte arrays addressed from a base pointer; a pointer
    into a buffer is its offset. *)
Definition load (m : list Z) (a : Z) : option Z :=
  if a <? 0 then None else m !! Z.to_nat a.

Definition store (m : list Z) (a : Z) (v : Z) : option (list Z) :=
  if (0 <=? a) && (a <? Z.of_nat (length m)) then Some (<[Z.to_nat a := v]> m) else None.

(** [value = ( weight * ( float ) a / 255.0 )] *)
Definition blend_value (weight : Flt.float) (a : Z) : Flt.float :=
  Flt.to_float (Flt.ddiv (Flt.to_double (Flt.fmul weight (Flt.float_of_int a))) Flt.d255_0).

(** [(uint8_t)( Y * value + *q++ * ( 1 - value ) )] *)
Definition blend (value : Flt.float) (Y D : Z) : option Z :=
  Int.uint8_of_float
    (Flt.fadd (Flt.fmul (Flt.float_of_int Y) value)
              (Flt.fmul (Flt.float_of_int D) (Flt.fsub (Flt.float_of_int 1) value))).

(** The inner loop: [n] pixels of one row, [p] reading the overlay, [z]
    its alpha channel, [q] and [o] (the same offset) the frame. *)
Fixpoint composite_row (n : nat) (weight : Flt.float) (src : list Z)
    (alpha : option (list Z)) (p z q : Z) (dest : list Z) : option (list Z) :=
  match n with
  | O => Some dest
  | S n' =>
      Y ← load src p;
      UV ← load src (p + 1);
      a ← match alpha with None => Some 255 | Some m => load m z end;
      let value := blend_value weight a in
      d ← load dest q;
      v ← blend value Y d;
      dest ← store dest q v;
      d ← load dest (q + 1);
      v ← blend value UV d;
      dest ← store dest (q + 1) v;
      composite_row n' weight src alpha (p + 2) (z + 1) (q + 2) dest
  end.

(** The outer loop, from row [i]; it needs at most [height_src - i] turns. *)
Fixpoint composite_rows (fuel : nat) (i height_src width_src step stride_src stride_dest : Z)
    (weight : Flt.float) (src : list Z) (alpha : option (list Z))
    (p_src p_alpha p_dest : Z) (dest : list Z) : option (list Z) :=
  if i <? height_src then
    match fuel with
    | O => None
    | S fuel' =>
        op ← Int.mul i stride_src;
        oq ← Int.mul i stride_dest;
        oz ← match alpha with
             | Some _ => t ← Int.mul i stride_src; Int.div t 2
             | None => Some 0
             end;
        dest ← composite_row (Z.to_nat width_src) weight src alpha
                 (p_src + op) (p_alpha + oz) (p_dest + oq) dest;
        i ← Int.add i step;
        composite_rows fuel' i height_src width_src step stride_src stride_dest
          weight src alpha p_src p_alpha p_dest dest
    end
  else Some dest.

(** Adjust to consumer scale: [int x = v * size / norm + 0.5]. *)
Definition consumer_scale (v : Flt.float) (size norm : Z) : option Z :=
  Int.of_float
    (Flt.dadd (Flt.to_double (Flt.fdiv (Flt.fmul v (Flt.float_of_int size))
                                        (Flt.float_of_int norm)))
              Flt.d0_5).

(** [x -= x % 2] *)
Definition even_down (x : Z) : option Z := r ← Int.rem x 2; Int.sub x r.

(** [x < 0 && -x >= size] *)
Definition off_frame (x size : Z) : option bool :=
  if x <? 0 then n ← Int.neg x; Some (size <=? n) else Some false.

(** Crop the overlay off the low edge or beyond the high edge of the frame:
    the offset into the overlay and the extent left. *)
Definition crop (x size_src size_dest : Z) : option (Z * Z) :=
  if x <? 0 then
    x_src ← Int.neg x; s ← Int.sub size_src x_src; Some (x_src, s)
  else
    e ← Int.add x size_src;
    if e >? size_dest then s ← Int.sub size_dest x; Some (0, s) else Some (0, size_src).

(** Composite function: the status and the frame buffer afterwards. *)
Definition composite_yuv (p_dest : list Z) (width_dest height_dest : Z)
    (p_src : list Z) (width_src height_src : Z) (p_alpha : option (list Z))
    (geometry : geometry_s) (field : Z) : option (Z * list Z) :=
  let ret := 0 in
  let weight := Flt.fdiv (G.mix geometry) (Flt.float_of_int 100) in
  stride_src ← Int.mul width_src 2;
  stride_dest ← Int.mul width_dest 2;
  (* Adjust to consumer scale *)
  x ← consumer_scale (G.x geometry) width_dest (G.nw geometry);
  y ← consumer_scale (G.y geometry) height_dest (G.nh geometry);
  x ← even_down x;
  (* optimization points - no work to do *)
  if (width_src <=? 0) || (height_src <=? 0) then Some (ret, p_dest) else
  ox ← off_frame x width_src;
  oy ← (if ox : bool then Some true else off_frame y height_src);
  if oy : bool then Some (ret, p_dest) else
  (* crop overlay off the left edge or beyond the right edge of frame *)
  '(x_src, width_src) ← crop x width_src width_dest;
  let x := if x <? 0 then 0 else x in
  (* crop overlay off the top edge or below the bottom edge of the frame *)
  '(y_src, height_src) ← crop y height_src height_dest;
  (* offset pointer into overlay buffer based on cropping *)
  a ← Int.mul x_src 2; b ← Int.mul y_src stride_src; o_src ← Int.add a b;
  (* offset pointer into frame buffer based upon positive, even coordinates only! *)
  a ← Int.mul (if x <? 0 then 0 else x) 2;
  b ← Int.mul (if y <? 0 then 0 else y) stride_dest;
  o_dest ← Int.add a b;
  (* offset pointer into alpha channel based upon cropping *)
  o_alpha ← match p_alpha with
            | Some _ => b ← Int.mul y_src stride_src; c ← Int.div b 2; Int.add x_src c
            | None => Some 0
            end;
  (* field 0 = lower field and y should be odd (y is 0-based).
     field 1 = upper field and y should be even. *)
  let o_dest :=
    if (field >? -1) && (Z.rem y 2 =? field) then
      if y =? 0 then o_dest + stride_dest else o_dest - stride_dest
    else o_dest in
  (* On the second field, use the other lines from b_frame *)
  '(o_src, o_alpha, height_src) ←
    (if field =? 1 then
       ha ← match p_alpha with Some _ => Int.div stride_src 2 | None => Some 0 end;
       hs ← Int.sub height_src 1;
       Some (o_src + stride_src, o_alpha + ha, hs)
     else Some (o_src, o_alpha, height_src));
  let step := if field >? -1 then 2 else 1 in
  (* now do the compositing only to cropped extents *)
  dest ← composite_rows (Z.to_nat height_src) 0 height_src width_src step stride_src
            stride_dest weight p_src p_alpha o_src o_alpha o_dest p_dest;
  Some (ret, dest).

(** ** Frames, transitions and their properties *)

Module Mlt.

(** Modelled from the spec: the property storage ([mlt_properties]), which
    is not among the sources.  The model is the typed view its accessors
    give: what [mlt_properties_get], [mlt_properties_get_int] and
    [mlt_properties_get_double] return for a name, an absent name reading
    as [NULL], [0] and [0.0]. *)
Record properties := mk_properties {
  strs : gmap string string;
  ints : gmap string Z;
  doubles : gmap string Flt.double
}.

Definition no_properties : properties := mk_properties ∅ ∅ ∅.

Definition get (p : properties) (name : string) : option string := strs p !! name.
Definition get_int (p : properties) (name : string) : Z := default 0 (ints p !! name).
Definition get_double (p : properties) (name : string) : Flt.double :=
  default (S754_zero false) (doubles p !! name).
Definition set (p : properties) (name value : string) : properties :=
  mk_properties (<[name := value]> (strs p)) (ints p) (doubles p).
Definition set_double (p : properties) (name : string) (value : Flt.double) : properties :=
  mk_properties (strs p) (ints p) (<[name := value]> (doubles p)).

(** Modelled from the spec: the frame descriptor and the external frame
    supplier.  [supply width height] is the supplier's answer to a request
    for a writable packed 4:2:2 buffer of that size: its status, the
    buffer and the size it has.  [requests] records the requests made. *)
Record frame := mk_frame {
  frame_properties : properties;
  frame_position : Z;
  aspect_ratio : Flt.double;
  alpha_mask : option (list Z);
  supply : Z -> Z -> Z * list Z * Z * Z;
  requests : list (Z * Z)
}.

Definition with_properties (p : properties) (f : frame) : frame :=
  mk_frame p (frame_position f) (aspect_ratio f) (alpha_mask f) (supply f) (requests f).

Definition frame_get_image (f : frame) (width height : Z) : Z * list Z * Z * Z * frame :=
  (supply f width height,
   mk_frame (frame_properties f) (frame_position f) (aspect_ratio f) (alpha_mask f)
            (supply f) ((width, height) :: requests f)).

Inductive process_fn := Composite_process.

(** The transition: its active interval, its properties and its
    [process] callback. *)
Record transition := mk_transition {
  t_in : Z;
  t_out : Z;
  transition_properties : properties;
  process : option process_fn
}.

End Mlt.

(** Calculate the position for this frame. *)
Definition position_calculate (this : Mlt.transition) (frame : Mlt.frame) : option Flt.float :=
  let in_ := Mlt.t_in this in
  let out := Mlt.t_out this in
  let position := Mlt.frame_position frame in
  a ← Int.sub position in_;
  b ← Int.sub out in_; b ← Int.add b 1;
  Some (Flt.fdiv (Flt.float_of_int a) (Flt.float_of_int b)).

(** Calculate the field delta for this frame - position between two frames. *)
Definition delta_calculate (this : Mlt.transition) (frame : Mlt.frame) : option Flt.float :=
  let in_ := Mlt.t_in this in
  let out := Mlt.t_out this in
  let position := Mlt.frame_position frame in
  a ← Int.sub position in_;
  b ← Int.sub out in_; b ← Int.add b 1;
  let x := Flt.fdiv (Flt.float_of_int a) (Flt.float_of_int b) in
  position ← Int.add position 1;
  a ← Int.sub position in_;
  b ← Int.sub out in_; b ← Int.add b 1;
  let y := Flt.fdiv (Flt.float_of_int a) (Flt.float_of_int b) in
  Some (Flt.to_float (Flt.ddiv (Flt.to_double (Flt.fsub y x)) Flt.d2_0)).

Definition get_value (properties : Mlt.properties) (preferred fallback : string) : Z :=
  let value := Mlt.get_int properties preferred in
  if value =? 0 then Mlt.get_int properties fallback else value.

(** ** Sizing the image of the b frame *)

(** Adjust b_frame pixel aspect: the candidate size of the overlay. *)
Definition scale_aspect (nw nh real_width real_height : Z) (input_ar output_ar : Flt.double)
    : option (Z * Z) :=
  let output_sar := Flt.ddiv (Flt.ddiv (Flt.double_of_int nw) (Flt.double_of_int nh)) output_ar in
  if Flt.dltb output_sar Flt.d1_0 then
    (* skinny pixels (PAL): stretch our input vertically *)
    scaled_height ← Int.of_float
      (Flt.ddiv (Flt.ddiv (Flt.double_of_int real_width) input_ar) output_sar);
    Some (real_width, scaled_height)
  else
    (* fat pixels (NTSC): stretch our input horizontally *)
    scaled_width ← Int.of_float
      (Flt.dmul (Flt.dmul output_sar (Flt.double_of_int real_height)) input_ar);
    Some (scaled_width, real_height).

(** Now ensure that our images fit in the normalised frame. *)
Definition fit_normalised (scaled_width scaled_height normalised_width normalised_height : Z)
    : option (Z * Z) :=
  '(scaled_width, scaled_height) ←
    (if scaled_width >? normalised_width then
       t ← Int.mul scaled_height normalised_width;
       scaled_height ← Int.div t scaled_width;
       Some (normalised_width, scaled_height)
     else Some (scaled_width, scaled_height));
  if scaled_height >? normalised_height then
    t ← Int.mul scaled_width normalised_height;
    scaled_width ← Int.div t scaled_height;
    Some (scaled_width, normalised_height)
  else Some (scaled_width, scaled_height).

(** The scaled dimensions [sw], [sh] of the geometry. *)
Definition negotiate (properties : Mlt.properties) (b_frame : Mlt.frame)
    (geometry : geometry_s) : option geometry_s :=
  let b_props := Mlt.frame_properties b_frame in
  (* Initialise the scaled dimensions from the computed *)
  n ← Int.of_float (G.w geometry); let geometry := G.with_sw n geometry in
  n ← Int.of_float (G.h geometry); let geometry := G.with_sh n geometry in
  match Mlt.get properties "distort" with
  | None =>
      normalised_width ← Int.of_float (G.w geometry);
      normalised_height ← Int.of_float (G.h geometry);
      let real_width := get_value b_props "real_width" "width" in
      let real_height := get_value b_props "real_height" "height" in
      let input_ar := Mlt.aspect_ratio b_frame in
      let output_ar := Mlt.get_double b_props "consumer_aspect_ratio" in
      '(scaled_width, scaled_height) ←
        scale_aspect (G.nw geometry) (G.nh geometry) real_width real_height input_ar output_ar;
      '(scaled_width, scaled_height) ←
        fit_normalised scaled_width scaled_height normalised_width normalised_height;
      (* Now we need to align to the geometry *)
      if Flt.fleb (Flt.float_of_int scaled_width) (G.w geometry)
         && Flt.fleb (Flt.float_of_int scaled_height) (G.h geometry)
      then Some (G.with_s scaled_width scaled_height geometry)
      else Some geometry
  | Some _ => Some geometry
  end.

(** [*width = geometry->sw * *width / geometry->nw] *)
Definition scale_size (s size n : Z) : option Z := t ← Int.mul s size; Int.div t n.

Record b_image := mk_b_image {
  b_ret : Z;
  b_frame' : Mlt.frame;
  b_buffer : option (list Z);
  b_width : Z;
  b_height : Z;
  b_geometry : geometry_s
}.

(** Get the properly sized image from b_frame. *)
Definition get_b_frame_image (this : Mlt.transition) (b_frame : Mlt.frame)
    (width height : Z) (geometry : geometry_s) : option b_image :=
  let properties := Mlt.transition_properties this in
  geometry ← negotiate properties b_frame geometry;
  (* We want to ensure that we bypass resize now... *)
  let b_frame :=
    Mlt.with_properties (Mlt.set (Mlt.frame_properties b_frame) "distort" "true") b_frame in
  (* Take into consideration alignment for optimisation *)
  let geometry := alignment_calculate geometry in
  (* Adjust to consumer scale *)
  x ← consumer_scale (G.x geometry) width (G.nw geometry);
  y ← consumer_scale (G.y geometry) height (G.nh geometry);
  width ← scale_size (G.sw geometry) width (G.nw geometry);
  height ← scale_size (G.sh geometry) height (G.nh geometry);
  x ← even_down x;
  (* optimization points - no work to do *)
  if (width <=? 0) || (height <=? 0) then Some (mk_b_image 1 b_frame None width height geometry)
  else
    ox ← off_frame x width;
    oy ← (if ox : bool then Some true else off_frame y height);
    if oy : bool then Some (mk_b_image 1 b_frame None width height geometry)
    else
      let '(ret, image, width, height, b_frame) := Mlt.frame_get_image b_frame width height in
      Some (mk_b_image ret b_frame (Some image) width height geometry).

(** ** Get the image *)

(** One pass of the field loop: the geometry of the field, aligned, and the
    b_frame composited on the a_frame. *)
Definition field_pass (start end_ : geometry_s) (position delta : Flt.float)
    (progressive : bool) (width height : Z) (image_b : list Z) (width_b height_b : Z)
    (alpha : option (list Z)) (field : Z) (st : geometry_s * list Z)
    : option (geometry_s * list Z) :=
  let '(result, image) := st in
  (* Assume lower field (0) first *)
  let field_position := Flt.fadd position (Flt.fmul (Flt.float_of_int field) delta) in
  (* Do the calculation *)
  let result := geometry_calculate result start end_ field_position in
  (* Align *)
  let result := alignment_calculate result in
  (* Composite the b_frame on the a_frame *)
  '(_, image) ← composite_yuv image width height image_b width_b height_b alpha result
                   (if progressive then -1 else field);
  Some (result, image).

Fixpoint field_loop (pass : Z -> geometry_s * list Z -> option (geometry_s * list Z))
    (fields : list Z) (st : geometry_s * list Z) : option (geometry_s * list Z) :=
  match fields with
  | [] => Some st
  | field :: rest => st ← pass field st; field_loop pass rest st
  end.

Record composited := mk_composited {
  c_ret : Z;
  c_image : list Z;
  c_width : Z;
  c_height : Z;
  c_a_frame : Mlt.frame;
  c_b_frame : option Mlt.frame
}.

(** [this] is the transition the b frame carries; [result], [start] and
    [end_] are the geometry structs of the stack frame as they are on
    entry. *)
Definition transition_get_image (this : Mlt.transition) (a_frame : Mlt.frame)
    (b_frame : option Mlt.frame) (width height : Z) (result start end_ : geometry_s)
    : option composited :=
  (* Get the image from the a frame *)
  let '(_, image, width, height, a_frame) := Mlt.frame_get_image a_frame width height in
  match b_frame with
  | Some b_frame =>
      let a_props := Mlt.frame_properties a_frame in
      let b_props := Mlt.frame_properties b_frame in
      let properties := Mlt.transition_properties this in
      (* Calculate the position *)
      position ← position_calculate this a_frame;
      delta ← delta_calculate this a_frame;
      (* Obtain the normalised width and height from the a_frame *)
      let normalised_width := Mlt.get_int a_props "normalised_width" in
      let normalised_height := Mlt.get_int a_props "normalised_height" in
      (* Now parse the geometries *)
      start ← geometry_parse start None (Mlt.get properties "start")
                normalised_width normalised_height;
      end_ ← geometry_parse end_ (Some start) (Mlt.get properties "end")
               normalised_width normalised_height;
      (* Now parse the alignment *)
      ha ← alignment_parse (Mlt.get properties "halign");
      va ← alignment_parse (Mlt.get properties "valign");
      let result := G.with_valign va (G.with_halign ha result) in
      (* pass along these consumer properties from the a_frame *)
      let b_props := Mlt.set_double b_props "consumer_aspect_ratio"
                       (Mlt.get_double a_props "consumer_aspect_ratio") in
      let b_props := Mlt.set_double b_props "consumer_scale"
                       (Mlt.get_double a_props "consumer_scale") in
      let b_frame := Mlt.with_properties b_props b_frame in
      (* Do the calculation *)
      let result := geometry_calculate result start end_ position in
      (* Get the image from the b frame *)
      b ← get_b_frame_image this b_frame width height result;
      let b_frame := b_frame' b in
      match b_ret b =? 0, b_buffer b with
      | true, Some image_b =>
          let alpha := Mlt.alpha_mask b_frame in
          let progressive :=
            negb (Mlt.get_int a_props "progressive" =? 0)
            || negb (Mlt.get_int a_props "consumer_progressive" =? 0)
            || negb (Mlt.get_int properties "progressive" =? 0) in
          '(_, image) ←
            field_loop
              (field_pass start end_ position delta progressive width height
                 image_b (b_width b) (b_height b) alpha)
              (if progressive then [0] else [0; 1])
              (b_geometry b, image);
          Some (mk_composited 0 image width height a_frame (Some b_frame))
      | _, _ => Some (mk_composited 0 image width height a_frame (Some b_frame))
      end
  | None => Some (mk_composited 0 image width height a_frame None)
  end.

(** ** Constructor for the filter *)

Section Constructor.

(** What [calloc] returns, [None] for [NULL], and the framework's
    [mlt_transition_init], which hands back the initialised transition
    and its status. *)
Variable calloc : option Mlt.transition.
Variable mlt_transition_init : Mlt.transition -> Mlt.transition * Z.

Definition transition_composite_init (arg : option string) : option Mlt.transition :=
  match calloc with
  | Some this =>
      let '(this, status) := mlt_transition_init this in
      if status =? 0 then
        let p := Mlt.transition_properties this in
        let p := Mlt.set p "start" (default "85%,5%:10%x10%" arg) in
        let p := Mlt.set p "end" "" in
        Some (Mlt.mk_transition (Mlt.t_in this) (Mlt.t_out this) p
                (Some Mlt.Composite_process))
      else Some this
  | None => None
  end.

End Constructor.

(** ** The formulas of the design document *)

Module Spec.

(** Linear interpolation between [a] and [b] at [t]. *)
Definition lerp (a b t : Flt.float) : Flt.float :=
  Flt.fadd a (Flt.fmul (Flt.fsub b a) t).

(** 0.5 added, the sum taken in double. *)
Definition add_half (v : Flt.float) : Flt.float :=
  Flt.to_float (Flt.dadd (Flt.to_double v) Flt.d0_5).

(** [interpolate(start, end, t)]: [x], [y], [w], [h] and [mix] are
    interpolated, [x] and [y] get the rounding bias, [nw] and [nh] are
    copied from [start]; [rest] gives the fields that take no part. *)
Definition interpolate (start end_ : geometry_s) (t : Flt.float) (rest : geometry_s)
    : geometry_s :=
  G.mk (G.nw start) (G.nh start) (G.sw rest) (G.sh rest)
       (add_half (lerp (G.x start) (G.x end_) t))
       (add_half (lerp (G.y start) (G.y end_) t))
       (lerp (G.w start) (G.w end_) t)
       (lerp (G.h start) (G.h end_) t)
       (lerp (G.mix start) (G.mix end_) t)
       (G.halign rest) (G.valign rest).

End Spec.

(** A geometry given by its rectangle and mix, as integers. *)
Definition box (nw nh : Z) (x y w h mix : Z) : geometry_s :=
  G.mk nw nh w h (Flt.float_of_int x) (Flt.float_of_int y) (Flt.float_of_int w)
       (Flt.float_of_int h) (Flt.float_of_int mix) 0 0.

(** The test for no work that both functions make: a size that is not positive, or an
    overlay wholly off the left or the top edge. *)
Definition no_work (x y width height : Z) : bool :=
  (width <=? 0) || (height <=? 0) || ((x <? 0) && (width <=? - x))
  || ((y <? 0) && (height <=? - y)).

(** ** Buffers of the full-opacity blend *)

(** Samples are bytes. *)
Definition bytes (m : list Z) : Prop := Forall (fun b => 0 <= b < 256) m.

(** A mask that is opaque everywhere, or no mask at all. *)
Definition opaque (alpha : option (list Z)) : Prop :=
  match alpha with
  | Some m => Forall (fun a => a = 255) m
  | None => True
  end.

(** The weight of a mix of 100 and the value it gives an opaque sample. *)
Definition full_weight : Flt.float := Flt.fdiv (Flt.float_of_int 100) (Flt.float_of_int 100).

(** Every row the loop reaches lies within the buffers, where there is a
    column to composite, and the offsets are [int]s. *)
Definition rows_in_bounds (height_src width_src step stride_src stride_dest : Z)
    (src : list Z) (alpha : option (list Z)) (p_src p_alpha p_dest : Z) (dest_len : nat)
    : Prop :=
  (0 < Z.of_nat (Z.to_nat width_src) ->
   0 <= p_src
   /\ p_src + (height_src - 1) * stride_src + 2 * Z.of_nat (Z.to_nat width_src)
      <= Z.of_nat (length src)
   /\ 0 <= p_dest
   /\ p_dest + (height_src - 1) * stride_dest + 2 * Z.of_nat (Z.to_nat width_src)
      <= Z.of_nat dest_len
   /\ match alpha with
      | Some m => 0 <= p_alpha
                  /\ p_alpha + Z.quot ((height_src - 1) * stride_src) 2
                     + Z.of_nat (Z.to_nat width_src)
                     <= Z.of_nat (length m)
      | None => True
      end)
  /\ (height_src - 1) * stride_src <= Int.INT_MAX
  /\ (height_src - 1) * stride_dest <= Int.INT_MAX
  /\ height_src - 1 + step <= Int.INT_MAX.

(** ** Numerals and geometry strings *)

(** The character of a decimal digit, the string of a digit sequence and
    the number it spells. *)
Definition digit_char (d : Z) : ascii := Ascii.ascii_of_N (Z.to_N (48 + d)).

Fixpoint numeral (ds : list Z) : string :=
  match ds with
  | [] => EmptyString
  | d :: r => String (digit_char d) (numeral r)
  end.

Definition decimal (ds : list Z) : Z := fold_left (fun acc d => acc * 10 + d) ds 0.

Definition digits (ds : list Z) : Prop := Forall (fun d => 0 <= d <= 9) ds.

(** What may follow a numeral in a geometry: nothing, a delimiter other
    than [x], or an [x] after a numeral that is not the single digit 0. *)
Definition delimited (ds : list Z) (rest : string) : Prop :=
  match rest with
  | EmptyString => True
  | String c _ =>
      (c = ","%char \/ c = ":"%char \/ c = " "%char) \/ (c = "x"%char /\ ds <> [0])
  end.

(** The geometry string of five numerals. *)
Definition geometry_string (x y w h mix : list Z) : string :=
  String.append (numeral x) (String ","
    (String.append (numeral y) (String ":"
      (String.append (numeral w) (String "x"
        (String.append (numeral h) (String ":" (numeral mix)))))))).

(** The number a digit sequence spells in base 16. *)
Definition hexadecimal (ds : list Z) : Z := fold_left (fun acc d => acc * 16 + d) ds 0.

(** ** Frames and transitions of the examples *)

(** A supplier that hands out an empty buffer. *)
Definition no_supply (width height : Z) : Z * list Z * Z * Z := (0, [], 0, 0).

(** An overlay of native size 100 x 50 with pixel aspect 2, for a consumer
    of pixel aspect 1. *)
Definition overlay_100x50 : Mlt.frame :=
  Mlt.mk_frame
    (Mlt.mk_properties ∅ (<["real_width" := 100]> (<["real_height" := 50]> ∅))
       (<["consumer_aspect_ratio" := Flt.d1_0]> ∅))
    0 Flt.d2_0 None no_supply [].

(** A transition with the distort property set. *)
Definition distorting : Mlt.transition :=
  Mlt.mk_transition 0 24 (Mlt.set Mlt.no_properties "distort" "1") None.

(** A frame without properties. *)
Definition plain_frame : Mlt.frame :=
  Mlt.mk_frame Mlt.no_properties 0 Flt.d1_0 None no_supply [].

(** A zeroed transition, and an initialiser that succeeds. *)
Definition blank_transition : Mlt.transition := Mlt.mk_transition 0 0 Mlt.no_properties None.
Definition init_ok (this : Mlt.transition) : Mlt.transition * Z := (this, 0).

(** Frames of two pixels by two rows and by four rows, and overlays of
    the same sizes. *)
Definition frame_2x2 : list Z := [16; 128; 16; 128; 16; 128; 16; 128].
Definition overlay_2x2 : list Z := [235; 100; 200; 110; 180; 120; 160; 130].
Definition frame_2x4 : list Z :=
  [10; 11; 12; 13; 20; 21; 22; 23; 30; 31; 32; 33; 40; 41; 42; 43].
Definition overlay_2x4 : list Z :=
  [110; 111; 112; 113; 120; 121; 122; 123; 130; 131; 132; 133; 140; 141; 142; 143].

(** A base frame of 4 x 4 pixels, in a normalised space of the same size,
    whose supplier hands out grey samples. *)
Definition base_4x4 (progressive : Z) : Mlt.frame :=
  Mlt.mk_frame
    (Mlt.mk_properties ∅
       (<["normalised_width" := 4]> (<["normalised_height" := 4]>
          (<["progressive" := progressive]> ∅)))
       (<["consumer_aspect_ratio" := Flt.d1_0]> ∅))
    0 Flt.d1_0 None
    (fun width height => (0, replicate (Z.to_nat (2 * width * height)) 16, width, height))
    [].

(** An overlay of native size 2 x 2 whose supplier hands out white samples
    at the size it is asked for. *)
Definition white_overlay : Mlt.frame :=
  Mlt.mk_frame
    (Mlt.mk_properties ∅ (<["real_width" := 2]> (<["real_height" := 2]> ∅)) ∅)
    0 Flt.d1_0 None
    (fun width height => (0, replicate (Z.to_nat (2 * width * height)) 235, width, height))
    [].

(** A transition over frames 0 to 9 with a start geometry. *)
Definition transition_on (start : string) : Mlt.transition :=
  Mlt.mk_transition 0 9
    (Mlt.set (Mlt.set Mlt.no_properties "start" start) "end" "")
    (Some Mlt.Composite_process).

(** What a stack frame may hold before [transition_get_image] fills it. *)
Definition junk : geometry_s := box 1 1 7 8 9 10 11.

(** The image, and the buffer requests made to the two frames. *)
Definition outcome (c : composited) : list Z * list (Z * Z) * option (list (Z * Z)) :=
  (c_image c, Mlt.requests (c_a_frame c), Mlt.requests <$> c_b_frame c).

(** An overlay whose supplier reports a failure. *)
Definition failing_overlay : Mlt.frame :=
  Mlt.mk_frame
    (Mlt.mk_properties ∅ (<["real_width" := 2]> (<["real_height" := 2]> ∅)) ∅)
    0 Flt.d1_0 None
    (fun width height => (1, [], 0, 0))
    [].

(** A base frame of 20 x 20 pixels, in a normalised space of the same size
    and with square pixels, whose supplier hands out grey samples. *)
Definition base_20x20 (progressive : Z) : Mlt.frame :=
  Mlt.mk_frame
    (Mlt.mk_properties ∅
       (<["normalised_width" := 20]> (<["normalised_height" := 20]>
          (<["progressive" := progressive]> ∅)))
       (<["consumer_aspect_ratio" := Flt.d1_0]> ∅))
    0 Flt.d1_0 None
    (fun width height => (0, replicate (Z.to_nat (2 * width * height)) 16, width, height))
    [].

(** An initialiser that fails. *)
Definition init_fail (this : Mlt.transition) : Mlt.transition * Z := (this, 1).


(** * Properties *)

(** ** Facts on rounding

    Bounds on the results of the rounding operations of [SpecFloat]: a
    value below [2 ^ K] in magnitude rounds to a finite value below
    [2 ^ (K + 1)]. *)

Lemma digits2_pos_upper p : Z.pos p < 2 ^ Z.pos (digits2_pos p).
Proof.
  induction p as [p IH|p IH|]; simpl digits2_pos;
    rewrite ?Pos2Z.inj_succ, ?Z.pow_succ_r by lia; lia.
Qed.

Lemma digits2_pos_le p k : 0 <= k -> Z.pos p < 2 ^ k -> Z.pos (digits2_pos p) <= k.
Proof.
  revert k. induction p as [p IH|p IH|]; intros k Hk H; simpl digits2_pos.
  - assert (k <> 0) by (intros ->; simpl in H; lia).
    replace k with (Z.succ (k - 1)) in H by lia. rewrite Z.pow_succ_r in H by lia.
    specialize (IH (k - 1)). lia.
  - assert (k <> 0) by (intros ->; simpl in H; lia).
    replace k with (Z.succ (k - 1)) in H by lia. rewrite Z.pow_succ_r in H by lia.
    specialize (IH (k - 1)). lia.
  - assert (k <> 0) by (intros ->; simpl in H; lia). lia.
Qed.

Lemma Zdigits2_nonneg m : 0 <= Zdigits2 m.
Proof. destruct m; simpl; lia. Qed.

Lemma Zdigits2_upper m : 0 <= m -> m < 2 ^ Zdigits2 m.
Proof. destruct m; simpl; intros; try lia. apply digits2_pos_upper. Qed.

Lemma Zdigits2_le m k : 0 <= k -> 0 <= m < 2 ^ k -> Zdigits2 m <= k.
Proof. destruct m; simpl; intros; try lia. apply digits2_pos_le; lia. Qed.

Lemma Zdigits2_succ a b : 0 <= b <= a + 1 -> 0 <= a -> Zdigits2 b <= Zdigits2 a + 1.
Proof.
  intros H Ha. apply Zdigits2_le. { pose proof (Zdigits2_nonneg a). lia. }
  pose proof (Zdigits2_upper a Ha). pose proof (Zdigits2_nonneg a).
  rewrite Z.pow_add_r by lia. lia.
Qed.

Lemma Zdigits2_div m n : 0 <= m -> 0 <= n ->
  Zdigits2 (m / 2 ^ n) + n <= Z.max (Zdigits2 m) n.
Proof.
  intros Hm Hn. pose proof (Zdigits2_upper m Hm) as Hu. pose proof (Zdigits2_nonneg m) as Hd.
  assert (0 < 2 ^ n) by (apply Z.pow_pos_nonneg; lia).
  destruct (Z_le_gt_dec n (Zdigits2 m)) as [Hle|Hgt].
  - assert (Zdigits2 (m / 2 ^ n) <= Zdigits2 m - n); [|lia].
    apply Zdigits2_le; [lia|]. split. { apply Z.div_pos; lia. }
    apply Z.div_lt_upper_bound; [lia|]. rewrite <- Z.pow_add_r by lia.
    replace (n + (Zdigits2 m - n)) with (Zdigits2 m) by lia. exact Hu.
  - rewrite Z.div_small; [simpl; lia|]. split; [lia|].
    apply Z.lt_le_trans with (1 := Hu). apply Z.pow_le_mono_r; lia.
Qed.

Lemma Zdigits2_mul a b : 0 <= a -> 0 <= b -> Zdigits2 (a * b) <= Zdigits2 a + Zdigits2 b.
Proof.
  intros Ha Hb. pose proof (Zdigits2_upper a Ha). pose proof (Zdigits2_upper b Hb).
  pose proof (Zdigits2_nonneg a). pose proof (Zdigits2_nonneg b).
  apply Zdigits2_le; [lia|]. rewrite Z.pow_add_r by lia. nia.
Qed.

Lemma shr_1_m mrs : 0 <= shr_m mrs -> shr_m (shr_1 mrs) = shr_m mrs / 2.
Proof.
  destruct mrs as [m r s]. simpl. intros Hm. rewrite <- Z.div2_div.
  destruct m as [|[p|p|]|p]; simpl; try reflexivity; lia.
Qed.

Lemma iter_pos_shr_1 n mrs :
  0 <= shr_m mrs -> shr_m (SpecFloat.iter_pos shr_1 n mrs) = shr_m mrs / 2 ^ Z.pos n.
Proof.
  revert mrs. induction n as [n IH|n IH|]; intros mrs Hm; simpl SpecFloat.iter_pos.
  - assert (0 <= shr_m (shr_1 mrs)) by (rewrite shr_1_m by lia; apply Z.div_pos; lia).
    assert (0 < 2 ^ Z.pos n) by (apply Z.pow_pos_nonneg; lia).
    rewrite IH, IH, shr_1_m by (rewrite ?IH by lia; try apply Z.div_pos; lia).
    rewrite !Z.div_div by lia. f_equal.
    replace (Z.pos n~1) with (1 + Z.pos n + Z.pos n) by lia.
    rewrite !Z.pow_add_r by lia. change (2 ^ 1) with 2. lia.
  - assert (0 < 2 ^ Z.pos n) by (apply Z.pow_pos_nonneg; lia).
    rewrite IH, IH by (rewrite ?IH by lia; try apply Z.div_pos; lia).
    rewrite !Z.div_div by lia. f_equal.
    replace (Z.pos n~0) with (Z.pos n + Z.pos n) by lia.
    rewrite !Z.pow_add_r by lia. change (2 ^ 1) with 2. lia.
  - rewrite shr_1_m by lia. reflexivity.
Qed.

Lemma mag_le_finite K x : Flt.mag_le K x = true -> Flt.is_finite x = true.
Proof. destruct x; simpl; congruence. Qed.

Lemma mag_le_mono K K' x : K <= K' -> Flt.mag_le K x = true -> Flt.mag_le K' x = true.
Proof. destruct x; simpl; trivial. intros H1 H2. apply Z.leb_le in H2. apply Z.leb_le. lia. Qed.

Section Rounding.
Variables prec emax : Z.
Hypothesis Hprec : 0 < prec.
Hypothesis Hemax : prec < emax.

Lemma shr_record_of_loc_m m l : shr_m (shr_record_of_loc m l) = m.
Proof. destruct l as [|[]]; reflexivity. Qed.

Lemma shr_fexp_spec m e l mrs e' :
  0 <= m -> shr_fexp prec emax m e l = (mrs, e') ->
  0 <= shr_m mrs /\ e <= e' /\ e' <= Z.max e (fexp prec emax (Zdigits2 m + e)) /\
  Zdigits2 (shr_m mrs) + e' <= Z.max (Zdigits2 m + e) e'.
Proof.
  intros Hm. unfold shr_fexp, shr.
  destruct (fexp prec emax (Zdigits2 m + e) - e) as [|p|p] eqn:En;
    intros [= <- <-]; rewrite ?shr_record_of_loc_m; try lia.
  rewrite iter_pos_shr_1 by (rewrite shr_record_of_loc_m; lia).
  rewrite shr_record_of_loc_m.
  pose proof (Zdigits2_div m (Z.pos p) Hm ltac:(lia)).
  assert (0 <= m / 2 ^ Z.pos p) by (apply Z.div_pos; [lia|apply Z.pow_pos_nonneg; lia]).
  lia.
Qed.

Lemma round_nearest_even_bounds m l : m <= round_nearest_even m l <= m + 1.
Proof. destruct l as [|[]]; simpl; try destruct (Z.even m); lia. Qed.

Lemma binary_round_aux_mag sx mx ex lx K :
  0 <= mx -> Zdigits2 mx + ex <= K -> K < emax -> emin prec emax <= K ->
  ex <= emax - prec ->
  Flt.mag_le (K + 1) (binary_round_aux prec emax sx mx ex lx) = true.
Proof.
  intros Hm HK HKe Hemin Hex. unfold binary_round_aux.
  destruct (shr_fexp prec emax mx ex lx) as [mrs' e'] eqn:E1.
  apply shr_fexp_spec in E1; [|assumption]. destruct E1 as (H1 & H2 & H3 & H4).
  pose proof (round_nearest_even_bounds (shr_m mrs') (loc_of_shr_record mrs')) as Hr.
  set (m1 := round_nearest_even (shr_m mrs') (loc_of_shr_record mrs')) in *.
  destruct (shr_fexp prec emax m1 e' loc_Exact) as [mrs'' e''] eqn:E2.
  apply shr_fexp_spec in E2; [|lia]. destruct E2 as (G1 & G2 & G3 & G4).
  pose proof (Zdigits2_succ (shr_m mrs') m1 ltac:(lia) H1) as Hd.
  pose proof (Zdigits2_nonneg mx). pose proof (Zdigits2_nonneg m1).
  unfold fexp, emin in *.
  destruct (shr_m mrs'') as [|m|m] eqn:Em; simpl Zdigits2 in G4; [reflexivity| |lia].
  replace (e'' <=? emax - prec) with true by (symmetry; apply Z.leb_le; lia).
  simpl. apply Z.leb_le. lia.
Qed.

Lemma digits2_pos_iter_xO m d :
  Z.pos (digits2_pos (Pos.iter xO m d)) = Z.pos (digits2_pos m) + Z.pos d.
Proof.
  induction d as [|d IH] using Pos.peano_ind.
  - simpl. lia.
  - rewrite Pos.iter_succ. simpl digits2_pos. lia.
Qed.

Lemma shl_align_spec mx ex ex' mz ez :
  shl_align mx ex ex' = (mz, ez) ->
  ez <= ex /\ Z.pos (digits2_pos mz) + ez = Z.pos (digits2_pos mx) + ex.
Proof.
  unfold shl_align. destruct (ex' - ex) as [|d|d] eqn:E; intros [= <- <-]; try lia.
  rewrite digits2_pos_iter_xO. lia.
Qed.

Lemma binary_round_mag sx mx ex K :
  Z.pos (digits2_pos mx) + ex <= K -> K < emax -> emin prec emax <= K ->
  ex <= emax - prec ->
  Flt.mag_le (K + 1) (binary_round prec emax sx mx ex) = true.
Proof.
  intros HK HKe Hemin Hex. unfold binary_round.
  destruct (shl_align mx ex _) as [mz ez] eqn:E. apply shl_align_spec in E.
  apply binary_round_aux_mag; simpl; lia.
Qed.

Lemma binary_normalize_mag m K :
  Z.abs m < 2 ^ K -> 0 <= K < emax -> prec <= emax ->
  Flt.mag_le (K + 1) (binary_normalize prec emax m 0 false) = true.
Proof.
  intros Hm HK _. unfold binary_normalize.
  destruct m as [|p|p]; [reflexivity| |];
    (apply binary_round_mag; [|unfold emin; lia..]);
    pose proof (digits2_pos_le p K ltac:(lia) ltac:(lia)); lia.
Qed.

Lemma SFmul_mag x y K1 K2 :
  Flt.mag_le K1 x = true -> Flt.mag_le K2 y = true ->
  K1 + K2 < emax -> emin prec emax <= K1 + K2 -> K1 + K2 <= emax - prec + 2 ->
  Flt.mag_le (K1 + K2 + 1) (SFmul prec emax x y) = true.
Proof.
  intros Hx Hy H1 H2 H3.
  destruct x as [sx|sx| |sx mx ex], y as [sy|sy| |sy my ey]; simpl in *; try congruence.
  apply Z.leb_le in Hx, Hy.
  pose proof (Zdigits2_mul (Z.pos mx) (Z.pos my) ltac:(lia) ltac:(lia)) as Hd.
  simpl in Hd.
  apply binary_round_aux_mag; simpl; lia.
Qed.

Lemma renorm_mag x K :
  Flt.mag_le K x = true -> K < emax -> emin prec emax <= K -> K <= emax - prec + 1 ->
  Flt.mag_le (K + 1) (Flt.renorm prec emax x) = true.
Proof.
  destruct x as [sx|sx| |sx mx ex]; simpl; try congruence. intros Hx H1 H2 H3.
  apply Z.leb_le in Hx. apply binary_round_mag; lia.
Qed.

End Rounding.

Lemma trunc_mag x K :
  Flt.mag_le K x = true -> 0 <= K -> exists n, Flt.trunc x = Some n /\ Z.abs n < 2 ^ K.
Proof.
  destruct x as [sx|sx| |sx mx ex]; simpl; try congruence; intros Hx HK.
  - exists 0. split; [reflexivity|]. simpl. apply Z.pow_pos_nonneg; lia.
  - apply Z.leb_le in Hx. eexists. split; [reflexivity|].
    pose proof (digits2_pos_upper mx) as Hu.
    set (d := Z.pos (digits2_pos mx)) in *.
    assert (Ha : 0 <= (if 0 <=? ex then Z.pos mx * 2 ^ ex else Z.pos mx / 2 ^ (- ex)) < 2 ^ K).
    { destruct (Z.leb_spec 0 ex).
      - assert (0 < 2 ^ ex) by (apply Z.pow_pos_nonneg; lia).
        split; [nia|].
        apply Z.lt_le_trans with (2 ^ (d + ex)).
        + rewrite Z.pow_add_r by lia. nia.
        + apply Z.pow_le_mono_r; lia.
      - assert (0 < 2 ^ (- ex)) by (apply Z.pow_pos_nonneg; lia).
        split; [apply Z.div_pos; lia|].
        destruct (Z_le_gt_dec 0 (d + ex)).
        + apply Z.lt_le_trans with (2 ^ (d + ex)); [|apply Z.pow_le_mono_r; lia].
          apply Z.div_lt_upper_bound; [lia|]. rewrite <- Z.pow_add_r by lia.
          replace (- ex + (d + ex)) with d by lia. exact Hu.
        + rewrite Z.div_small; [apply Z.pow_pos_nonneg; lia|].
          split; [lia|]. apply Z.lt_le_trans with (1 := Hu). apply Z.pow_le_mono_r; lia. }
    destruct sx; lia.
Qed.

Lemma float_of_int_finite n : Int.in_range n = true -> Flt.is_finite (Flt.float_of_int n) = true.
Proof.
  intros H. apply (mag_le_finite 33).
  apply (binary_normalize_mag 24 128 ltac:(lia) ltac:(lia) n 32); try lia.
  unfold Int.in_range, Int.INT_MIN, Int.INT_MAX in H. apply andb_true_iff in H as [H1 H2].
  change (2 ^ 32) with 4294967296. lia.
Qed.

(** ** Interpolation *)

(** C5: [geometry_calculate] is the componentwise linear interpolation of
    [x], [y], [w], [h] and [mix] between [start] and [end], with [nw] and
    [nh] copied from [start], [sw] and [sh] (and the alignment) left as
    they are in the output struct, and 0.5 added to the interpolated [x]
    and [y] only.  Midway between [0,0:10x10:0] and [100,100:10x10:100]
    this is [x = 50.5], [y = 50.5], [mix = 50] and a 10 x 10 box. *)
Theorem geometry_calculate_interpolates (output start end_ : geometry_s) (t : Flt.float) :
  geometry_calculate output start end_ t = Spec.interpolate start end_ t output
  /\ let half := Flt.fdiv (Flt.float_of_int 1) (Flt.float_of_int 2) in
     let r := geometry_calculate output (box 100 100 0 0 10 10 0)
                (box 100 100 100 100 10 10 100) half in
     G.x r = Flt.fdiv (Flt.float_of_int 101) (Flt.float_of_int 2)
     /\ G.y r = Flt.fdiv (Flt.float_of_int 101) (Flt.float_of_int 2)
     /\ G.w r = Flt.float_of_int 10 /\ G.h r = Flt.float_of_int 10
     /\ G.mix r = Flt.float_of_int 50
     /\ G.sw r = G.sw output /\ G.sh r = G.sh output.
Proof.
  split; [reflexivity|].
  cbv zeta. repeat split; vm_compute; reflexivity.
Qed.

(** ** Parsing *)

Lemma strtod_convert s : Libc.convert s = None -> Libc.strtod s = (S754_zero false, s).
Proof. unfold Libc.strtod. intros ->. reflexivity. Qed.

Lemma parse_value_end s n delim dflt :
  at_end s = true -> parse_value (Some s) n delim dflt = (dflt, Some s).
Proof. unfold parse_value. intros ->. reflexivity. Qed.



Lemma double_of_int_finite n :
  Int.in_range n = true -> Flt.is_finite (Flt.double_of_int n) = true.
Proof.
  intros H. apply (mag_le_finite 33).
  apply (binary_normalize_mag 53 1024 ltac:(lia) ltac:(lia) n 32); try lia.
  unfold Int.in_range, Int.INT_MIN, Int.INT_MAX in H. apply andb_true_iff in H as [H1 H2].
  change (2 ^ 32) with 4294967296. lia.
Qed.

(** Any percentage of zero is zero. *)
Lemma percent_zero v n :
  Flt.is_zero v = true -> Int.in_range n = true -> Flt.is_zero (percent v n) = true.
Proof.
  intros Hv Hn. destruct v as [s| | |]; try discriminate. unfold percent.
  pose proof (double_of_int_finite n Hn) as Hf.
  destruct (Flt.double_of_int n) as [s'|s'| |s' m e]; try discriminate; reflexivity.
Qed.

(** The claim C4 as it is written fails on ["abc"]: [strtod] reads no
    number there, and the value is zero, not the default 10. *)
Lemma parse_value_malformed_counterexample :
  Libc.convert "abc" = None
  /\ parse_value (Some "abc") 720 "," (Flt.float_of_int 10) = (S754_zero false, Some "abc")
  /\ S754_zero false <> Flt.float_of_int 10.
Proof. repeat apply conj; [reflexivity | reflexivity | discriminate]. Qed.

(** C4, amended: parsing a value has no failure path.  A token that is
    absent, the string being exhausted or the pointer null, yields the
    default.  A token at which no number can be read yields zero whatever
    the default is, and the pointer only moves past delimiters. *)
Theorem parse_value_permissive (s : string) (n : Z) (delim : ascii) (dflt : Flt.float) :
  Int.in_range n = true ->
  (at_end s = true -> parse_value (Some s) n delim dflt = (dflt, Some s))
  /\ parse_value None n delim dflt = (dflt, None)
  /\ (at_end s = false -> Libc.convert s = None ->
      Flt.is_zero (fst (parse_value (Some s) n delim dflt)) = true
      /\ snd (parse_value (Some s) n delim dflt) = Some (skip_delim delim s)).
Proof.
  intros Hn. repeat apply conj.
  - apply parse_value_end.
  - reflexivity.
  - intros He Hc. unfold parse_value. rewrite He, (strtod_convert s Hc).
    split; [|reflexivity]. cbn [fst].
    destruct s as [|c r]; [reflexivity|].
    destruct (Ascii.eqb_spec c "%") as [->|Hne].
    + apply percent_zero; [reflexivity|assumption].
    + destruct c as [[] [] [] [] [] [] [] []]; try reflexivity. congruence.
Qed.

Lemma parse_value_permissive_witness :
  Int.in_range 720 = true
  /\ ((at_end "abc" = true ->
       parse_value (Some "abc") 720 "," (Flt.float_of_int 10)
       = (Flt.float_of_int 10, Some "abc"))
      /\ parse_value None 720 "," (Flt.float_of_int 10) = (Flt.float_of_int 10, None)
      /\ (at_end "abc" = false -> Libc.convert "abc" = None ->
          Flt.is_zero (fst (parse_value (Some "abc") 720 "," (Flt.float_of_int 10))) = true
          /\ snd (parse_value (Some "abc") 720 "," (Flt.float_of_int 10))
             = Some (skip_delim "," "abc"))).
Proof.
  split; [reflexivity|].
  apply (parse_value_permissive "abc" 720 "," (Flt.float_of_int 10)). reflexivity.
Defined.

(** With a defaults geometry, every field a string leaves out is taken
    from the defaults: [x], [y] and [mix] as they are, the size through
    its conversion to [int]. *)
Lemma geometry_parse_defaults_inherit geometry d nw nh r :
  geometry_parse geometry (Some d) (Some "") nw nh = Some r ->
  G.x r = G.x d /\ G.y r = G.y d /\ G.mix r = G.mix d
  /\ G.w r = Flt.float_of_int (G.sw r) /\ G.h r = Flt.float_of_int (G.sh r)
  /\ G.nw r = nw /\ G.nh r = nh.
Proof.
  unfold geometry_parse, assign_w, assign_h. cbn [parse_value at_end].
  destruct (Int.of_float (G.w d)) as [a|]; [|discriminate]. cbn.
  destruct (Int.of_float (G.h d)) as [b|]; [|discriminate]. cbn.
  destruct (Int.of_float (Flt.float_of_int a)) as [a'|]; [|discriminate]. cbn.
  destruct (Int.of_float (Flt.float_of_int b)) as [b'|]; [|discriminate]. cbn.
  intros [= <-]. cbn. repeat split.
Qed.

(** C8 at its failing input: without a defaults geometry only [mix] is
    initialised, and the fields a string leaves out are whatever the
    caller's struct held, here 7, 8, 9 and 10, not zero. *)
Theorem geometry_parse_no_defaults_uninitialised :
  geometry_parse (box 1 1 7 8 9 10 11) None (Some "") 720 576
  = Some (G.mk 720 576 9 10 (Flt.float_of_int 7) (Flt.float_of_int 8)
            (Flt.float_of_int 9) (Flt.float_of_int 10) (Flt.float_of_int 100) 0 0)
  /\ geometry_parse (box 1 1 7 8 9 10 11) None (Some "10,20") 720 576
     = Some (G.mk 720 576 9 10 (Flt.float_of_int 10) (Flt.float_of_int 20)
               (Flt.float_of_int 9) (Flt.float_of_int 10) (Flt.float_of_int 100) 0 0)
  /\ Flt.float_of_int 9 <> Flt.float_of_int 0.
Proof. repeat apply conj; [vm_compute; reflexivity..| discriminate]. Qed.

(** ** Alignment *)

Lemma SFeqb_finite_eq a b :
  SFeqb a b = true -> Flt.is_finite b = true ->
  (Flt.is_zero a = true /\ Flt.is_zero b = true)
  \/ (exists s m e, a = S754_finite s m e /\ b = S754_finite s m e).
Proof.
  unfold SFeqb, SFcompare.
  destruct a as [sa|sa| |sa ma ea], b as [sb|sb| |sb mb eb]; try discriminate;
    try (destruct sa; discriminate); try (destruct sb; discriminate).
  - intros _ _. left. split; reflexivity.
  - intros H _. right.
    destruct sa, sb; try discriminate;
      destruct (Z.compare_spec ea eb); try discriminate;
      destruct (Pos.compare_cont Eq ma mb) eqn:Ec; try discriminate;
      apply Pos.compare_eq in Ec; subst; eauto.
Qed.

Lemma fsub_eqb_zero a b :
  Flt.feqb a b = true -> Flt.is_finite b = true -> Flt.is_zero (Flt.fsub a b) = true.
Proof.
  intros H Hb. destruct (SFeqb_finite_eq a b H Hb) as [[Ha Hz]|(s & m & e & -> & ->)].
  - destruct a as [[]| | |], b as [[]| | |]; try discriminate; reflexivity.
  - unfold Flt.fsub, SFsub. rewrite Z.min_id. unfold shl_align. rewrite Z.sub_diag.
    cbn [fst]. reflexivity.
Qed.

(** Nothing is left to distribute when the scaled size is the requested
    size. *)
Lemma align_offset_zero full scaled align :
  Flt.feqb full (Flt.float_of_int scaled) = true ->
  Int.in_range scaled = true -> Int.in_range align = true ->
  Flt.is_zero (align_offset full scaled align) = true.
Proof.
  intros He Hs Ha. unfold align_offset.
  pose proof (fsub_eqb_zero _ _ He (float_of_int_finite _ Hs)) as Hz.
  pose proof (float_of_int_finite _ Ha) as Hf.
  destruct (Flt.fsub full (Flt.float_of_int scaled)) as [s| | |]; try discriminate.
  destruct (Flt.float_of_int align) as [s'|s'| |s' m e]; try discriminate; reflexivity.
Qed.

Lemma add_biased_zero v offset :
  Flt.is_zero offset = true -> add_biased v offset = Spec.add_half v.
Proof. destruct offset as [[]| | |]; try discriminate; reflexivity. Qed.

(** The claim C9 as it is written fails: with [w == sw] and [h == sh] the
    adjustment still moves [x] from 10 to 10.5. *)
Lemma alignment_calculate_not_noop :
  let g := G.mk 100 100 5 5 (Flt.float_of_int 10) (Flt.float_of_int 20)
             (Flt.float_of_int 5) (Flt.float_of_int 5) (Flt.float_of_int 100) 1 1 in
  Flt.feqb (G.w g) (Flt.float_of_int (G.sw g)) = true
  /\ Flt.feqb (G.h g) (Flt.float_of_int (G.sh g)) = true
  /\ G.x (alignment_calculate g) = Flt.fdiv (Flt.float_of_int 21) (Flt.float_of_int 2)
  /\ alignment_calculate g <> g.
Proof.
  cbv zeta. repeat apply conj; try (vm_compute; reflexivity).
  vm_compute. discriminate.
Qed.

(** C9, amended: for a geometry with [w == sw] and [h == sh] the alignment
    contributes nothing, whatever [halign] and [valign] are: the
    adjustment adds the 0.5 rounding bias to [x] and to [y] and changes
    nothing else. *)
Theorem alignment_calculate_same_size (g : geometry_s) :
  Int.in_range (G.sw g) = true -> Int.in_range (G.sh g) = true ->
  Int.in_range (G.halign g) = true -> Int.in_range (G.valign g) = true ->
  Flt.feqb (G.w g) (Flt.float_of_int (G.sw g)) = true ->
  Flt.feqb (G.h g) (Flt.float_of_int (G.sh g)) = true ->
  alignment_calculate g
  = G.with_y (Spec.add_half (G.y g)) (G.with_x (Spec.add_half (G.x g)) g).
Proof.
  intros Hsw Hsh Hha Hva Hw Hh. unfold alignment_calculate. cbn.
  rewrite !add_biased_zero by (apply align_offset_zero; assumption).
  reflexivity.
Qed.

Lemma alignment_calculate_same_size_witness :
  let g := G.mk 100 100 5 5 (Flt.float_of_int 10) (Flt.float_of_int 20)
             (Flt.float_of_int 5) (Flt.float_of_int 5) (Flt.float_of_int 100) 1 2 in
  alignment_calculate g
  = G.with_y (Spec.add_half (G.y g)) (G.with_x (Spec.add_half (G.x g)) g).
Proof.
  cbv zeta. apply alignment_calculate_same_size; reflexivity.
Defined.

(** ** Checked integer arithmetic *)

Lemma chk_Some z v : Int.chk z = Some v -> v = z /\ Int.in_range z = true.
Proof. unfold Int.chk. destruct (Int.in_range z); [intros [= <-]; auto | discriminate]. Qed.

Lemma chk_in_range z : Int.in_range z = true -> Int.chk z = Some z.
Proof. unfold Int.chk. intros ->. reflexivity. Qed.

Lemma in_range_iff z : Int.in_range z = true <-> Int.INT_MIN <= z <= Int.INT_MAX.
Proof. unfold Int.in_range. rewrite andb_true_iff, !Z.leb_le. tauto. Qed.

Lemma mul_Some a b v : Int.mul a b = Some v -> v = a * b.
Proof. intros H. apply chk_Some in H. tauto. Qed.

Lemma div_Some a b v : Int.div a b = Some v -> b <> 0 /\ v = Z.quot a b.
Proof.
  unfold Int.div. destruct (Z.eqb_spec b 0); [discriminate|].
  intros H. apply chk_Some in H. tauto.
Qed.

Lemma quot_shrink a n s :
  0 <= n < s ->
  (0 <= a -> 0 <= Z.quot (a * n) s <= a) /\ (a <= 0 -> a <= Z.quot (a * n) s <= 0).
Proof.
  intros H. split; intros Ha.
  - pose proof (Z.mul_quot_le (a * n) s ltac:(nia) ltac:(lia)). nia.
  - pose proof (Z.mul_quot_ge (a * n) s ltac:(nia) ltac:(lia)). nia.
Qed.

(** ** Scale negotiation *)

(** Truncation toward zero does not exceed a value that is not negative. *)
Lemma of_float_nonneg_le w n :
  Int.of_float w = Some n -> Flt.nonneg w = true -> Flt.Zle_float n w = true /\ 0 <= n.
Proof.
  unfold Int.of_float. intros H Hw. apply bind_Some in H as (v & Hv & Hc).
  apply chk_Some in Hc as [-> _].
  destruct w as [s|s| |s m e]; try discriminate; cbn in *.
  - injection Hv as <-. split; [reflexivity|lia].
  - destruct s; [discriminate|]. injection Hv as <-.
    destruct (Z.leb_spec 0 e).
    + split; [apply Z.leb_le; lia|]. assert (0 < 2 ^ e) by (apply Z.pow_pos_nonneg; lia). nia.
    + assert (0 < 2 ^ (- e)) by (apply Z.pow_pos_nonneg; lia).
      split; [apply Z.leb_le; rewrite Z.mul_comm; apply Z.mul_div_le; lia|].
      apply Z.div_pos; lia.
Qed.

Lemma Zle_float_mono a n w : a <= n -> Flt.Zle_float n w = true -> Flt.Zle_float a w = true.
Proof.
  intros Ha. destruct w as [s|s| |s m e]; cbn; trivial.
  - rewrite !Z.leb_le. lia.
  - destruct (Z.leb_spec 0 e); rewrite !Z.leb_le; [lia|].
    assert (0 < 2 ^ (- e)) by (apply Z.pow_pos_nonneg; lia). nia.
Qed.

(** The candidate size, once fitted, lies within a normalised size that is
    not negative. *)
Lemma fit_normalised_within sw sh nw nh a b :
  0 <= nw -> 0 <= nh -> fit_normalised sw sh nw nh = Some (a, b) -> a <= nw /\ b <= nh.
Proof.
  intros Hnw Hnh. unfold fit_normalised. intros H.
  apply bind_Some in H as ([a1 b1] & H1 & H2).
  assert (Ha1 : a1 <= nw).
  { destruct (Z.gtb_spec sw nw).
    - apply bind_Some in H1 as (t & _ & H1). apply bind_Some in H1 as (q & _ & H1).
      injection H1 as <- <-. lia.
    - injection H1 as <- <-. lia. }
  destruct (Z.gtb_spec b1 nh).
  - apply bind_Some in H2 as (t & Ht & H2). apply bind_Some in H2 as (q & Hq & H2).
    injection H2 as <- <-. apply mul_Some in Ht. apply div_Some in Hq as [_ ->]. subst t.
    destruct (quot_shrink a1 nh b1 ltac:(lia)) as [Hp Hn].
    destruct (Z_le_gt_dec 0 a1); [specialize (Hp ltac:(lia))|specialize (Hn ltac:(lia))]; lia.
  - injection H2 as <- <-. lia.
Qed.

(** The claim C6 as it is written fails for a negative width that is not
    an integer: -0.5 is converted to the scaled width 0, which exceeds
    it. *)
Lemma negotiate_negative_width_counterexample :
  let g := G.mk 720 576 0 0 (Flt.float_of_int 0) (Flt.float_of_int 0)
             (Flt.fdiv (Flt.float_of_int (-1)) (Flt.float_of_int 2))
             (Flt.float_of_int 10) (Flt.float_of_int 100) 0 0 in
  negotiate (Mlt.transition_properties distorting) plain_frame g = Some (G.with_s 0 10 g)
  /\ Flt.Zle_float (G.sw (G.with_s 0 10 g)) (G.w (G.with_s 0 10 g)) = false.
Proof. cbv zeta. split; vm_compute; reflexivity. Qed.

(** C6, amended: for every geometry whose [w] and [h] are not negative,
    every native size of the overlay and every aspect-ratio configuration,
    after scale negotiation [sw <= w] and [sh <= h], and [w] and [h] are as
    they were: [sw], [sh] are either both the candidate, which passed the
    test against [w] and [h], or the conversions of [w] and [h] to [int]. *)
Theorem negotiate_scaled_within (properties : Mlt.properties) (b_frame : Mlt.frame)
    (geometry g' : geometry_s) :
  Flt.nonneg (G.w geometry) = true -> Flt.nonneg (G.h geometry) = true ->
  negotiate properties b_frame geometry = Some g' ->
  Flt.Zle_float (G.sw g') (G.w g') = true
  /\ Flt.Zle_float (G.sh g') (G.h g') = true
  /\ G.w g' = G.w geometry /\ G.h g' = G.h geometry
  /\ ((Int.of_float (G.w geometry) = Some (G.sw g')
       /\ Int.of_float (G.h geometry) = Some (G.sh g'))
      \/ (Flt.fleb (Flt.float_of_int (G.sw g')) (G.w geometry) = true
          /\ Flt.fleb (Flt.float_of_int (G.sh g')) (G.h geometry) = true)).
Proof.
  intros Hw Hh. unfold negotiate. intros H.
  apply bind_Some in H as (n & Hn & H). apply bind_Some in H as (m & Hm & H).
  cbn in Hm, H.
  destruct (of_float_nonneg_le _ _ Hn Hw) as [Lw Pw].
  destruct (of_float_nonneg_le _ _ Hm Hh) as [Lh Ph].
  destruct (Mlt.get properties "distort").
  { injection H as <-. cbn. auto 10. }
  rewrite Hn, Hm in H. cbn in H.
  apply bind_Some in H as ([a0 b0] & _ & H). apply bind_Some in H as ([a b] & Hf & H).
  apply fit_normalised_within in Hf as [Ha Hb]; [|lia..].
  destruct (Flt.fleb (Flt.float_of_int a) (G.w geometry)) eqn:Fa;
    [destruct (Flt.fleb (Flt.float_of_int b) (G.h geometry)) eqn:Fb|];
    cbn in H; injection H as <-; cbn; auto 10.
  repeat apply conj; auto; eapply Zle_float_mono; eauto.
Qed.


Lemma negotiate_scaled_within_witness :
  let g' := G.with_s 40 20 (box 100 100 0 0 40 40 100) in
  negotiate Mlt.no_properties overlay_100x50 (box 100 100 0 0 40 40 100) = Some g'
  /\ Flt.Zle_float (G.sw g') (G.w g') = true
  /\ Flt.Zle_float (G.sh g') (G.h g') = true.
Proof.
  cbv zeta.
  assert (H : negotiate Mlt.no_properties overlay_100x50 (box 100 100 0 0 40 40 100)
              = Some (G.with_s 40 20 (box 100 100 0 0 40 40 100))).
  { vm_compute. reflexivity. }
  split; [exact H|].
  pose proof (negotiate_scaled_within Mlt.no_properties overlay_100x50
                (box 100 100 0 0 40 40 100) (G.with_s 40 20 (box 100 100 0 0 40 40 100))
                eq_refl eq_refl H) as (H1 & H2 & _).
  split; assumption.
Defined.

(** ** Nothing to draw *)

Lemma of_float_in_range v n : Int.of_float v = Some n -> Int.in_range n = true.
Proof.
  unfold Int.of_float. intros H. apply bind_Some in H as (t & _ & H).
  apply chk_Some in H as [-> H]. exact H.
Qed.

Lemma even_down_in_range x0 x : even_down x0 = Some x -> Int.in_range x = true.
Proof.
  unfold even_down. intros H. apply bind_Some in H as (r & _ & H).
  apply chk_Some in H as [-> H]. exact H.
Qed.

Lemma off_frame_spec x size :
  Int.in_range x = true -> Int.INT_MIN < x ->
  off_frame x size = Some ((x <? 0) && (size <=? - x)).
Proof.
  intros Hx Hm. apply in_range_iff in Hx. unfold off_frame, Int.neg.
  destruct (Z.ltb_spec x 0); [|reflexivity].
  rewrite chk_in_range by (apply in_range_iff; unfold Int.INT_MIN, Int.INT_MAX in *; lia).
  reflexivity.
Qed.

Lemma no_work_guard x y width height (A : Type) (skip : A) (work : option A) :
  Int.in_range x = true -> Int.INT_MIN < x ->
  Int.in_range y = true -> Int.INT_MIN < y ->
  no_work x y width height = true ->
  (if (width <=? 0) || (height <=? 0) then Some skip
   else ox ← off_frame x width;
        oy ← (if ox : bool then Some true else off_frame y height);
        if oy : bool then Some skip else work) = Some skip.
Proof.
  intros Hx Hx' Hy Hy' H. unfold no_work in H.
  destruct ((width <=? 0) || (height <=? 0)); [reflexivity|].
  rewrite (off_frame_spec x) by assumption. cbn.
  destruct ((x <? 0) && (width <=? - x)); [reflexivity|].
  rewrite (off_frame_spec y) by assumption. cbn. cbn in H. rewrite H. reflexivity.
Qed.

(** The fuel [composite_yuv] gives the outer loop is enough: with a step of
    at least 1 any two amounts that cover the rows left give the same
    result, so [None] is never a lack of fuel. *)
Lemma composite_rows_fuel height_src width_src step stride_src stride_dest weight src alpha
    p_src p_alpha p_dest fuel : forall fuel' i dest,
  1 <= step ->
  height_src - i <= Z.of_nat fuel -> height_src - i <= Z.of_nat fuel' ->
  composite_rows fuel i height_src width_src step stride_src stride_dest weight src alpha
    p_src p_alpha p_dest dest
  = composite_rows fuel' i height_src width_src step stride_src stride_dest weight src alpha
      p_src p_alpha p_dest dest.
Proof.
  induction fuel as [|fuel IH]; intros fuel' i dest Hs Hf Hf'; destruct fuel' as [|fuel'];
    cbn [composite_rows]; destruct (Z.ltb_spec i height_src) as [Hlt|Hge];
    try reflexivity; try lia.
  destruct (Int.mul i stride_src); [|reflexivity]. cbn [mbind option_bind].
  destruct (Int.mul i stride_dest); [|reflexivity]. cbn [mbind option_bind].
  destruct (match alpha with Some _ => _ | None => _ end); [|reflexivity].
  cbn [mbind option_bind].
  destruct (composite_row _ _ _ _ _ _ _ _); [|reflexivity]. cbn [mbind option_bind].
  destruct (Int.add i step) as [i'|] eqn:Ei; [|reflexivity]. cbn [mbind option_bind].
  apply chk_Some in Ei as [-> _]. apply IH; lia.
Qed.

(** Without columns, or without rows, the loops write nothing. *)
Lemma composite_rows_no_columns fuel i height_src width_src step stride_src stride_dest
    weight src alpha p_src p_alpha p_dest dest d :
  width_src <= 0 ->
  composite_rows fuel i height_src width_src step stride_src stride_dest weight src alpha
    p_src p_alpha p_dest dest = Some d ->
  d = dest.
Proof.
  intros Hw. revert i. induction fuel as [|fuel IH]; intros i; cbn [composite_rows];
    destruct (i <? height_src); try congruence.
  replace (Z.to_nat width_src) with O by lia. cbn [composite_row].
  intros H. apply bind_Some in H as (op & _ & H). apply bind_Some in H as (oq & _ & H).
  apply bind_Some in H as (oz & _ & H). cbn in H.
  apply bind_Some in H as (i' & _ & H). eauto.
Qed.

Lemma composite_rows_no_rows fuel i height_src width_src step stride_src stride_dest
    weight src alpha p_src p_alpha p_dest dest :
  height_src <= i ->
  composite_rows fuel i height_src width_src step stride_src stride_dest weight src alpha
    p_src p_alpha p_dest dest = Some dest.
Proof.
  intros H. destruct fuel; cbn [composite_rows];
    (destruct (Z.ltb_spec i height_src); [lia|reflexivity]).
Qed.

Lemma crop_beyond x size_src size_dest o s :
  0 <= size_dest <= x -> 0 < size_src -> crop x size_src size_dest = Some (o, s) -> s <= 0.
Proof.
  intros Hx Hs. unfold crop. destruct (Z.ltb_spec x 0) as [|_]; [lia|].
  intros H. apply bind_Some in H as (e & He & H). apply chk_Some in He as [-> _].
  destruct (Z.gtb_spec (x + size_src) size_dest) as [_|]; [|lia].
  apply bind_Some in H as (t & Ht & H). apply chk_Some in Ht as [-> _].
  injection H as <- <-. lia.
Qed.

(** Sizing: the status is 1 and the supplier is not asked. *)
Lemma get_b_frame_image_nothing_to_draw this b_frame width height geometry g0 x0 x y w' h' :
  negotiate (Mlt.transition_properties this) b_frame geometry = Some g0 ->
  consumer_scale (G.x (alignment_calculate g0)) width (G.nw g0) = Some x0 ->
  even_down x0 = Some x ->
  consumer_scale (G.y (alignment_calculate g0)) height (G.nh g0) = Some y ->
  scale_size (G.sw g0) width (G.nw g0) = Some w' ->
  scale_size (G.sh g0) height (G.nh g0) = Some h' ->
  Int.INT_MIN < x -> Int.INT_MIN < y ->
  no_work x y w' h' = true ->
  exists b,
    get_b_frame_image this b_frame width height geometry = Some b
    /\ b_ret b = 1 /\ b_buffer b = None
    /\ Mlt.requests (b_frame' b) = Mlt.requests b_frame.
Proof.
  intros Hn Hx0 Hx Hy Hw Hh Mx My Hno.
  unfold get_b_frame_image. rewrite Hn. cbn [mbind option_bind].
  change (G.nw (alignment_calculate g0)) with (G.nw g0).
  change (G.nh (alignment_calculate g0)) with (G.nh g0).
  change (G.sw (alignment_calculate g0)) with (G.sw g0).
  change (G.sh (alignment_calculate g0)) with (G.sh g0).
  rewrite Hx0. cbn [mbind option_bind]. rewrite Hy. cbn [mbind option_bind].
  rewrite Hw. cbn [mbind option_bind]. rewrite Hh. cbn [mbind option_bind].
  rewrite Hx. cbn [mbind option_bind].
  eexists. split.
  - apply no_work_guard; eauto using even_down_in_range, of_float_in_range.
  - cbn. auto.
Qed.

(** Compositing: the frame buffer is handed back as it is. *)
Lemma composite_yuv_nothing_to_draw p_dest width_dest height_dest p_src width_src height_src
    p_alpha geometry field x0 x y :
  Int.in_range (width_src * 2) = true -> Int.in_range (width_dest * 2) = true ->
  consumer_scale (G.x geometry) width_dest (G.nw geometry) = Some x0 ->
  even_down x0 = Some x ->
  consumer_scale (G.y geometry) height_dest (G.nh geometry) = Some y ->
  Int.INT_MIN < x -> Int.INT_MIN < y ->
  no_work x y width_src height_src = true ->
  composite_yuv p_dest width_dest height_dest p_src width_src height_src p_alpha geometry field
  = Some (0, p_dest).
Proof.
  intros Hs Hd Hx0 Hx Hy Mx My Hno.
  unfold composite_yuv, Int.mul. rewrite !chk_in_range by assumption. cbn [mbind option_bind].
  rewrite Hx0. cbn [mbind option_bind]. rewrite Hy. cbn [mbind option_bind].
  rewrite Hx. cbn [mbind option_bind].
  apply no_work_guard; eauto using even_down_in_range, of_float_in_range.
Qed.

(** An overlay wholly beyond the right or the bottom edge is cropped to
    nothing. *)
Lemma composite_yuv_beyond p_dest width_dest height_dest p_src width_src height_src
    p_alpha geometry field x0 x y r :
  consumer_scale (G.x geometry) width_dest (G.nw geometry) = Some x0 ->
  even_down x0 = Some x ->
  consumer_scale (G.y geometry) height_dest (G.nh geometry) = Some y ->
  0 <= width_dest -> 0 <= height_dest ->
  width_dest <= x \/ height_dest <= y ->
  composite_yuv p_dest width_dest height_dest p_src width_src height_src p_alpha geometry field
  = Some r ->
  r = (0, p_dest).
Proof.
  intros Hx0 Hx Hy Hwd Hhd Hout. unfold composite_yuv. intros H.
  apply bind_Some in H as (ss & _ & H). apply bind_Some in H as (sd & _ & H).
  rewrite Hx0 in H. cbn [mbind option_bind] in H. rewrite Hy in H. cbn [mbind option_bind] in H.
  rewrite Hx in H. cbn [mbind option_bind] in H.
  destruct (Z.leb_spec width_src 0) as [|Pw]; [cbn in H; congruence|].
  destruct (Z.leb_spec height_src 0) as [|Ph]; [cbn in H; congruence|].
  cbn [orb] in H.
  apply bind_Some in H as (ox & _ & H). apply bind_Some in H as (oy & _ & H).
  destruct oy; [congruence|].
  apply bind_Some in H as ([x_src ws] & Hcx & H).
  apply bind_Some in H as ([y_src hs] & Hcy & H).
  apply bind_Some in H as (a & _ & H). apply bind_Some in H as (b & _ & H).
  apply bind_Some in H as (o_src & _ & H).
  apply bind_Some in H as (a' & _ & H). apply bind_Some in H as (b' & _ & H).
  apply bind_Some in H as (o_dest & _ & H).
  apply bind_Some in H as (o_alpha & _ & H).
  apply bind_Some in H as ([[o_src' o_alpha'] hs'] & Hf & H).
  apply bind_Some in H as (dest & Hrows & H). injection H as <-. f_equal.
  destruct Hout as [Hout|Hout].
  - apply crop_beyond in Hcx; [|lia..].
    eapply composite_rows_no_columns; eauto.
  - apply crop_beyond in Hcy; [|lia..].
    assert (hs' <= 0).
    { destruct (field =? 1).
      - apply bind_Some in Hf as (ha & _ & Hf). apply bind_Some in Hf as (t & Ht & Hf).
        apply chk_Some in Ht as [-> _]. injection Hf as _ _ <-. lia.
      - injection Hf as _ _ <-. lia. }
    rewrite composite_rows_no_rows in Hrows by lia. congruence.
Qed.

(** The claim C3 as it is written fails for an overlay wholly beyond the
    right edge: 20 wide at pixel 200 of a frame 100 wide, its buffer is
    still requested. *)
Lemma right_of_frame_still_requested :
  let g := box 100 100 200 0 20 20 100 in
  exists b,
    consumer_scale (G.x (alignment_calculate g)) 100 (G.nw g) = Some 201
    /\ even_down 201 = Some 200
    /\ get_b_frame_image distorting plain_frame 100 100 g = Some b
    /\ b_ret b = 0
    /\ Mlt.requests (b_frame' b) = [(20, 20)]
    /\ Mlt.requests plain_frame = [].
Proof. cbv zeta. eexists. repeat apply conj; vm_compute; reflexivity. Qed.

(** C3, amended: when a final scaled dimension is not positive, or the
    resolved pixel position puts the overlay wholly off the left or the top
    edge, sizing answers "nothing to draw" without a buffer request, and
    compositing under the same test writes no pixel.  An overlay wholly
    beyond the right or the bottom edge is not short-circuited by sizing;
    compositing then crops it to nothing and writes no pixel either. *)
Theorem nothing_to_draw :
  (forall this b_frame width height geometry g0 x0 x y w' h',
      negotiate (Mlt.transition_properties this) b_frame geometry = Some g0 ->
      consumer_scale (G.x (alignment_calculate g0)) width (G.nw g0) = Some x0 ->
      even_down x0 = Some x ->
      consumer_scale (G.y (alignment_calculate g0)) height (G.nh g0) = Some y ->
      scale_size (G.sw g0) width (G.nw g0) = Some w' ->
      scale_size (G.sh g0) height (G.nh g0) = Some h' ->
      Int.INT_MIN < x -> Int.INT_MIN < y ->
      no_work x y w' h' = true ->
      exists b,
        get_b_frame_image this b_frame width height geometry = Some b
        /\ b_ret b = 1 /\ b_buffer b = None
        /\ Mlt.requests (b_frame' b) = Mlt.requests b_frame)
  /\ (forall p_dest width_dest height_dest p_src width_src height_src p_alpha geometry
             field x0 x y,
        Int.in_range (width_src * 2) = true -> Int.in_range (width_dest * 2) = true ->
        consumer_scale (G.x geometry) width_dest (G.nw geometry) = Some x0 ->
        even_down x0 = Some x ->
        consumer_scale (G.y geometry) height_dest (G.nh geometry) = Some y ->
        Int.INT_MIN < x -> Int.INT_MIN < y ->
        no_work x y width_src height_src = true ->
        composite_yuv p_dest width_dest height_dest p_src width_src height_src p_alpha
          geometry field = Some (0, p_dest))
  /\ (forall p_dest width_dest height_dest p_src width_src height_src p_alpha geometry
             field x0 x y r,
        consumer_scale (G.x geometry) width_dest (G.nw geometry) = Some x0 ->
        even_down x0 = Some x ->
        consumer_scale (G.y geometry) height_dest (G.nh geometry) = Some y ->
        0 <= width_dest -> 0 <= height_dest ->
        width_dest <= x \/ height_dest <= y ->
        composite_yuv p_dest width_dest height_dest p_src width_src height_src p_alpha
          geometry field = Some r ->
        r = (0, p_dest)).
Proof.
  repeat apply conj.
  - exact get_b_frame_image_nothing_to_draw.
  - exact composite_yuv_nothing_to_draw.
  - exact composite_yuv_beyond.
Qed.

Lemma nothing_to_draw_witness :
  let g := box 100 100 (-30) 0 20 20 100 in
  (exists b,
      get_b_frame_image distorting plain_frame 100 100 g = Some b
      /\ b_ret b = 1 /\ b_buffer b = None
      /\ Mlt.requests (b_frame' b) = Mlt.requests plain_frame)
  /\ composite_yuv [16; 128; 16; 128] 2 1 [235; 128; 235; 128] 2 1 None
       (box 2 1 (-3) 0 2 1 100) (-1)
     = Some (0, [16; 128; 16; 128])
  /\ (exists r,
        composite_yuv [16; 128; 16; 128] 2 1 [235; 128; 235; 128] 2 1 None
          (box 2 1 4 0 2 1 100) (-1) = Some r
        /\ r = (0, [16; 128; 16; 128])).
Proof.
  cbv zeta. destruct nothing_to_draw as (A & B & C). repeat apply conj.
  - apply (A distorting plain_frame 100 100 (box 100 100 (-30) 0 20 20 100)
             (box 100 100 (-30) 0 20 20 100) (-29) (-28) 1 20 20);
      try (vm_compute; reflexivity).
  - apply (B [16; 128; 16; 128] 2 1 [235; 128; 235; 128] 2 1 None
             (box 2 1 (-3) 0 2 1 100) (-1) (-2) (-2) 0);
      try (vm_compute; reflexivity).
  - exists (0, [16; 128; 16; 128]). split; [vm_compute; reflexivity|].
    apply (C [16; 128; 16; 128] 2 1 [235; 128; 235; 128] 2 1 None
             (box 2 1 4 0 2 1 100) (-1) 4 4 0);
      try (vm_compute; reflexivity); lia.
Defined.

(** ** Exact conversions *)

Lemma iter_xO_pow p k : Z.pos (Pos.iter xO p k) = Z.pos p * 2 ^ Z.pos k.
Proof.
  induction k as [|k IH] using Pos.peano_ind.
  - simpl. lia.
  - rewrite Pos.iter_succ, Pos2Z.inj_xO, IH, Pos2Z.inj_succ, Z.pow_succ_r by lia. lia.
Qed.

Lemma binary_round_aux_canonical prec emax s m e :
  fexp prec emax (Z.pos (digits2_pos m) + e) = e -> e <= emax - prec ->
  binary_round_aux prec emax s (Z.pos m) e loc_Exact = S754_finite s m e.
Proof.
  intros Hc He. unfold binary_round_aux, shr_fexp. cbn [Zdigits2].
  rewrite Hc, Z.sub_diag. cbn. rewrite Hc, Z.sub_diag. cbn.
  apply Z.leb_le in He. rewrite He. reflexivity.
Qed.

(** An integer below [2 ^ 24] in magnitude is a float, exactly. *)
Lemma float_of_int_exact n :
  Z.abs n < 2 ^ 24 ->
  Flt.trunc (Flt.float_of_int n) = Some n /\ Flt.float_of_int n <> S754_zero true.
Proof.
  intros Hn. unfold Flt.float_of_int, binary_normalize.
  assert (Hpos : forall s p, Z.pos p < 2 ^ 24 ->
            exists m e, binary_round 24 128 s p 0 = S754_finite s m e
                        /\ e <= 0 /\ Z.pos m = Z.pos p * 2 ^ (- e)).
  { intros s p Hp. unfold binary_round.
    pose proof (digits2_pos_le p 24 ltac:(lia) Hp) as Hd.
    destruct (shl_align p 0 _) as [mz ez] eqn:E.
    pose proof (shl_align_spec _ _ _ _ _ E) as [Hz Hdz].
    assert (Hez : ez = Z.pos (digits2_pos p) - 24 /\ Z.pos mz = Z.pos p * 2 ^ (- ez)).
    { revert E. unfold shl_align, fexp, emin.
      destruct (Z.max (Z.pos (digits2_pos p) + 0 - 24) (3 - 128 - 24) - 0) as [|k|k] eqn:Ek;
        intros [= <- <-]; [split; [lia|simpl; lia] | lia |].
      split; [lia|]. rewrite iter_xO_pow. f_equal. f_equal. lia. }
    destruct Hez as [Hez Hm].
    exists mz, ez. rewrite binary_round_aux_canonical; [auto| |lia].
    unfold fexp, emin. lia. }
  destruct n as [|p|p].
  - split; [reflexivity|discriminate].
  - destruct (Hpos false p ltac:(lia)) as (m & e & -> & He & Hm). split; [|discriminate].
    cbn. f_equal. destruct (Z.leb_spec 0 e).
    + replace e with 0 in * by lia. cbn in Hm. lia.
    + rewrite Hm, Z.div_mul; [reflexivity|]. apply Z.pow_nonzero; lia.
  - destruct (Hpos true p ltac:(lia)) as (m & e & -> & He & Hm). split; [|discriminate].
    cbn. f_equal. destruct (Z.leb_spec 0 e).
    + replace e with 0 in * by lia. cbn in Hm. lia.
    + rewrite Hm, Z.div_mul; [lia|]. apply Z.pow_nonzero; lia.
Qed.

Lemma of_float_float_of_int n :
  Z.abs n < 2 ^ 24 -> Int.of_float (Flt.float_of_int n) = Some n.
Proof.
  intros Hn. unfold Int.of_float. destruct (float_of_int_exact n Hn) as [-> _]. cbn.
  apply chk_in_range. apply in_range_iff. unfold Int.INT_MIN, Int.INT_MAX.
  change (2 ^ 24) with 16777216 in Hn. lia.
Qed.

(** ** The default geometry *)

Lemma fsub_same a : Flt.is_finite a = true -> Flt.fsub a a = S754_zero false.
Proof.
  destruct a as [[]| | |s m e]; try discriminate; intros _; try reflexivity.
  unfold Flt.fsub, SFsub. rewrite Z.min_id. unfold shl_align. rewrite Z.sub_diag.
  cbn [fst]. reflexivity.
Qed.

(** Between a value and itself the interpolation stays put. *)
Lemma lerp_same a t :
  Flt.is_finite a = true -> Flt.is_finite t = true -> a <> S754_zero true ->
  Spec.lerp a a t = a.
Proof.
  intros Ha Ht Hz. unfold Spec.lerp. rewrite fsub_same by assumption.
  destruct t as [st|st| |st mt et]; try discriminate;
    destruct a as [[]| | |s m e]; try discriminate; try congruence; destruct st; reflexivity.
Qed.

Lemma add_half_lerp_same a t :
  Flt.is_finite a = true -> Flt.is_finite t = true ->
  Spec.add_half (Spec.lerp a a t) = Spec.add_half a.
Proof.
  intros Ha Ht. unfold Spec.lerp. rewrite fsub_same by assumption.
  destruct t as [st|st| |st mt et]; try discriminate;
    destruct a as [[]| | |s m e]; try discriminate; destruct st; reflexivity.
Qed.

(** A percentage of a size below [2 ^ 24]. *)
Lemma percent_mag v n K :
  Flt.mag_le K (Flt.ddiv (Flt.to_double v) Flt.d100_0) = true ->
  -100 <= K <= 50 -> Z.abs n < 2 ^ 24 ->
  Flt.mag_le (K + 27) (percent v n) = true.
Proof.
  intros Hc HK Hn. unfold percent, Flt.to_float, Flt.dmul.
  replace (K + 27) with (K + 25 + 1 + 1) by lia.
  apply renorm_mag; try (unfold emin; lia).
  apply SFmul_mag; try (unfold emin; lia); [assumption|].
  apply (binary_normalize_mag 53 1024 ltac:(lia) ltac:(lia) n 24); lia.
Qed.

Lemma parse_value_percent_at s n delim dflt d e r fv rest :
  at_end s = false -> Libc.strtod s = (d, e) -> e = String "%" r ->
  Flt.to_float d = fv -> skip_delim delim e = rest ->
  parse_value (Some s) n delim dflt = (percent fv n, Some rest).
Proof. unfold parse_value. intros -> -> -> -> <-. reflexivity. Qed.

Lemma assign_w_exact n g :
  Z.abs n < 2 ^ 24 ->
  assign_w (Flt.float_of_int n) g = Some (G.with_w (Flt.float_of_int n) (G.with_sw n g)).
Proof. intros H. unfold assign_w. rewrite of_float_float_of_int by assumption. reflexivity. Qed.

Lemma assign_h_exact n g :
  Z.abs n < 2 ^ 24 ->
  assign_h (Flt.float_of_int n) g = Some (G.with_h (Flt.float_of_int n) (G.with_sh n g)).
Proof. intros H. unfold assign_h. rewrite of_float_float_of_int by assumption. reflexivity. Qed.

(** The geometry of the default start string. *)
Lemma geometry_parse_default_start geometry nw nh :
  Z.abs nw < 2 ^ 24 -> Z.abs nh < 2 ^ 24 ->
  exists sw sh,
    Int.of_float (percent (Flt.float_of_int 10) nw) = Some sw
    /\ Int.of_float (percent (Flt.float_of_int 10) nh) = Some sh
    /\ Z.abs sw < 2 ^ 24 /\ Z.abs sh < 2 ^ 24
    /\ Flt.is_finite (percent (Flt.float_of_int 85) nw) = true
    /\ Flt.is_finite (percent (Flt.float_of_int 5) nh) = true
    /\ geometry_parse geometry None (Some "85%,5%:10%x10%") nw nh
       = Some (G.mk nw nh sw sh
                 (percent (Flt.float_of_int 85) nw) (percent (Flt.float_of_int 5) nh)
                 (Flt.float_of_int sw) (Flt.float_of_int sh) (Flt.float_of_int 100)
                 (G.halign geometry) (G.valign geometry)).
Proof.
  intros Hnw Hnh.
  assert (Hw := percent_mag (Flt.float_of_int 10) nw (-3) eq_refl ltac:(lia) Hnw).
  assert (Hh := percent_mag (Flt.float_of_int 10) nh (-3) eq_refl ltac:(lia) Hnh).
  assert (Hx := percent_mag (Flt.float_of_int 85) nw 0 eq_refl ltac:(lia) Hnw).
  assert (Hy := percent_mag (Flt.float_of_int 5) nh (-4) eq_refl ltac:(lia) Hnh).
  destruct (trunc_mag _ _ Hw ltac:(lia)) as (sw & Tw & Bw).
  destruct (trunc_mag _ _ Hh ltac:(lia)) as (sh & Th & Bh).
  cbn in Bw, Bh.
  assert (Int.of_float (percent (Flt.float_of_int 10) nw) = Some sw) as Ew.
  { unfold Int.of_float. rewrite Tw. cbn. apply chk_in_range, in_range_iff.
    unfold Int.INT_MIN, Int.INT_MAX. lia. }
  assert (Int.of_float (percent (Flt.float_of_int 10) nh) = Some sh) as Eh.
  { unfold Int.of_float. rewrite Th. cbn. apply chk_in_range, in_range_iff.
    unfold Int.INT_MIN, Int.INT_MAX. lia. }
  exists sw, sh. repeat apply conj; eauto using mag_le_finite.
  unfold geometry_parse. cbn [mbind option_bind].
  erewrite (parse_value_percent_at "85%,5%:10%x10%" nw "," _ _ _ _
              (Flt.float_of_int 85) "5%:10%x10%"); [|vm_compute; reflexivity..].
  erewrite (parse_value_percent_at "5%:10%x10%" nh ":" _ _ _ _
              (Flt.float_of_int 5) "10%x10%"); [|vm_compute; reflexivity..].
  erewrite (parse_value_percent_at "10%x10%" nw "x" _ _ _ _
              (Flt.float_of_int 10) "10%"); [|vm_compute; reflexivity..].
  unfold assign_w at 1. rewrite Ew. cbn [mbind option_bind].
  erewrite (parse_value_percent_at "10%" nh ":" _ _ _ _
              (Flt.float_of_int 10) ""); [|vm_compute; reflexivity..].
  unfold assign_h at 1. rewrite Eh. cbn [mbind option_bind].
  rewrite parse_value_end by reflexivity. reflexivity.
Qed.

(** An empty end string takes its geometry from a start geometry that
    parsing produced. *)
Lemma geometry_parse_empty_end geometry nw nh sw sh x y mix ha va :
  Z.abs sw < 2 ^ 24 -> Z.abs sh < 2 ^ 24 ->
  geometry_parse geometry
    (Some (G.mk nw nh sw sh x y (Flt.float_of_int sw) (Flt.float_of_int sh) mix ha va))
    (Some "") nw nh
  = Some (G.mk nw nh sw sh x y (Flt.float_of_int sw) (Flt.float_of_int sh) mix
            (G.halign geometry) (G.valign geometry)).
Proof.
  intros Hw Hh. unfold geometry_parse. cbn [G.x G.y G.w G.h G.mix].
  rewrite assign_w_exact by assumption. cbn [mbind option_bind].
  rewrite assign_h_exact by assumption. cbn [mbind option_bind].
  repeat (rewrite parse_value_end by reflexivity;
          cbn [G.w G.with_mix G.with_h G.with_sh G.with_s G.with_w G.with_sw G.with_x
               G.with_y G.with_n G.x G.y G.h G.mix G.nw G.nh G.sw G.sh G.halign G.valign];
          rewrite ?assign_w_exact, ?assign_h_exact by assumption;
          cbn [mbind option_bind]).
  reflexivity.
Qed.

Lemma get_set p name value : Mlt.get (Mlt.set p name value) name = Some value.
Proof. unfold Mlt.get, Mlt.set. cbn. apply lookup_insert_eq. Qed.

Lemma get_set_ne p name name' value :
  name <> name' -> Mlt.get (Mlt.set p name value) name' = Mlt.get p name'.
Proof. intros H. unfold Mlt.get, Mlt.set. cbn. apply lookup_insert_ne. exact H. Qed.

Lemma geometry_calculate_spec output start end_ t :
  geometry_calculate output start end_ t = Spec.interpolate start end_ t output.
Proof. reflexivity. Qed.

(** In a normalised space below [2 ^ 24] in width and height the default
    start geometry is 85% and 5% of the space for the position and 10% of
    it, as an [int], for the size; the end geometry parsed from the empty
    string is the same, and the geometry calculated at any finite position
    is that one box, with the 0.5 bias on [x] and [y]. *)
Lemma default_geometry_static start0 end0 result nw nh :
  Z.abs nw < 2 ^ 24 -> Z.abs nh < 2 ^ 24 ->
  exists start end_,
    geometry_parse start0 None (Some "85%,5%:10%x10%") nw nh = Some start
    /\ geometry_parse end0 (Some start) (Some "") nw nh = Some end_
    /\ G.x start = percent (Flt.float_of_int 85) nw
    /\ G.y start = percent (Flt.float_of_int 5) nh
    /\ Int.of_float (percent (Flt.float_of_int 10) nw) = Some (G.sw start)
    /\ Int.of_float (percent (Flt.float_of_int 10) nh) = Some (G.sh start)
    /\ G.w start = Flt.float_of_int (G.sw start)
    /\ G.h start = Flt.float_of_int (G.sh start)
    /\ G.mix start = Flt.float_of_int 100
    /\ G.x end_ = G.x start /\ G.y end_ = G.y start
    /\ G.w end_ = G.w start /\ G.h end_ = G.h start /\ G.mix end_ = G.mix start
    /\ (forall position,
          Flt.is_finite position = true ->
          geometry_calculate result start end_ position
          = G.mk nw nh (G.sw result) (G.sh result)
              (Spec.add_half (G.x start)) (Spec.add_half (G.y start))
              (G.w start) (G.h start) (G.mix start)
              (G.halign result) (G.valign result)).
Proof.
  intros Hnw Hnh.
  destruct (geometry_parse_default_start start0 nw nh Hnw Hnh)
    as (sw & sh & Ew & Eh & Bw & Bh & Fx & Fy & ->).
  eexists. eexists. split; [reflexivity|].
  split; [apply geometry_parse_empty_end; assumption|].
  cbn [G.x G.y G.w G.h G.mix G.sw G.sh G.nw G.nh].
  repeat (split; [solve [reflexivity | assumption]|]).
  intros position Hp. rewrite geometry_calculate_spec. unfold Spec.interpolate.
  cbn [G.x G.y G.w G.h G.mix G.sw G.sh G.nw G.nh].
  rewrite !add_half_lerp_same by assumption.
  destruct (float_of_int_exact sw Bw) as [Tw Zw].
  destruct (float_of_int_exact sh Bh) as [Th Zh].
  rewrite !lerp_same; try assumption; try discriminate; try reflexivity.
  - destruct (Flt.float_of_int sh); try discriminate; reflexivity.
  - destruct (Flt.float_of_int sw); try discriminate; reflexivity.
Qed.

(** ** Full-opacity blend *)

Lemma load_Some m a v : load m a = Some v -> 0 <= a < Z.of_nat (length m).
Proof.
  unfold load. destruct (Z.ltb_spec a 0) as [|Ha]; [discriminate|].
  intros H. apply lookup_lt_Some in H. lia.
Qed.

Lemma load_in_bounds m a : 0 <= a < Z.of_nat (length m) -> exists v, load m a = Some v.
Proof.
  intros H. unfold load. destruct (Z.ltb_spec a 0); [lia|].
  destruct (lookup_lt_is_Some_2 m (Z.to_nat a)) as [v Hv]; [lia|]. eauto.
Qed.

Lemma load_bytes m a v : bytes m -> load m a = Some v -> 0 <= v < 256.
Proof.
  unfold load, bytes. intros Hb. destruct (a <? 0); [discriminate|].
  intros H. rewrite Forall_lookup in Hb. exact (Hb _ _ H).
Qed.

Lemma store_in_bounds m a v :
  0 <= a < Z.of_nat (length m) -> store m a v = Some (<[Z.to_nat a := v]> m).
Proof.
  intros H. unfold store.
  destruct (Z.leb_spec 0 a); [|lia]. destruct (Z.ltb_spec a (Z.of_nat (length m))); [|lia].
  reflexivity.
Qed.

Lemma load_insert_eq m a v :
  0 <= a < Z.of_nat (length m) -> load (<[Z.to_nat a := v]> m) a = Some v.
Proof.
  intros H. unfold load. destruct (Z.ltb_spec a 0); [lia|].
  apply list_lookup_insert_eq. lia.
Qed.

Lemma load_insert_ne m a k v :
  0 <= a -> k <> a -> load (<[Z.to_nat a := v]> m) k = load m k.
Proof.
  intros Ha H. unfold load. destruct (Z.ltb_spec k 0); [reflexivity|].
  apply list_lookup_insert_ne. lia.
Qed.

Lemma bytes_insert m i v : bytes m -> 0 <= v < 256 -> bytes (<[i := v]> m).
Proof. intros Hb Hv. apply Forall_insert; assumption. Qed.

Lemma load_opaque m a v : Forall (fun a => a = 255) m -> load m a = Some v -> v = 255.
Proof.
  unfold load. intros Hb. destruct (a <? 0); [discriminate|].
  intros H. rewrite Forall_lookup in Hb. exact (Hb _ _ H).
Qed.

Lemma blend_value_full : blend_value full_weight 255 = Flt.float_of_int 1.
Proof. vm_compute. reflexivity. Qed.

Lemma below_256 (P : Z -> bool) :
  forallb P (seqZ 0 256) = true -> forall z, 0 <= z < 256 -> P z = true.
Proof.
  intros H z Hz. rewrite forallb_forall in H. apply H.
  apply list_elem_of_In, elem_of_seqZ. lia.
Qed.

(** At value 1 the overlay's sample is kept as it is ... *)
Lemma blend_keeps_source Y :
  0 <= Y < 256 ->
  Int.uint8_of_float
    (Flt.fadd (Flt.fmul (Flt.float_of_int Y) (Flt.float_of_int 1)) (S754_zero false))
  = Some Y.
Proof.
  intros H.
  pose proof (below_256
    (fun Y => match Int.uint8_of_float
                      (Flt.fadd (Flt.fmul (Flt.float_of_int Y) (Flt.float_of_int 1))
                                (S754_zero false)) with
              | Some v => v =? Y
              | None => false
              end) ltac:(vm_compute; reflexivity) Y H) as E.
  cbv beta in E. destruct (Int.uint8_of_float _) as [v|]; [|discriminate].
  apply Z.eqb_eq in E. congruence.
Qed.

(** ... and the frame's sample counts for nothing. *)
Lemma blend_drops_dest D :
  0 <= D < 256 ->
  Flt.fmul (Flt.float_of_int D) (Flt.fsub (Flt.float_of_int 1) (Flt.float_of_int 1))
  = S754_zero false.
Proof.
  intros H.
  pose proof (below_256
    (fun D => match Flt.fmul (Flt.float_of_int D)
                      (Flt.fsub (Flt.float_of_int 1) (Flt.float_of_int 1)) with
              | S754_zero false => true
              | _ => false
              end) ltac:(vm_compute; reflexivity) D H) as E.
  cbv beta in E.
  destruct (Flt.fmul _ _) as [[]| | |]; try discriminate. reflexivity.
Qed.

Lemma blend_opaque Y D :
  0 <= Y < 256 -> 0 <= D < 256 -> blend (Flt.float_of_int 1) Y D = Some Y.
Proof.
  intros HY HD. unfold blend. rewrite blend_drops_dest by assumption.
  apply blend_keeps_source. assumption.
Qed.

(** One row at full opacity copies the overlay's samples. *)
Lemma composite_row_opaque n : forall src alpha p z q dest,
  bytes src -> bytes dest -> opaque alpha ->
  0 <= p -> p + 2 * Z.of_nat n <= Z.of_nat (length src) ->
  0 <= q -> q + 2 * Z.of_nat n <= Z.of_nat (length dest) ->
  match alpha with
  | Some m => 0 <= z /\ z + Z.of_nat n <= Z.of_nat (length m)
  | None => True
  end ->
  exists dest',
    composite_row n full_weight src alpha p z q dest = Some dest'
    /\ length dest' = length dest /\ bytes dest'
    /\ (forall k, q <= k < q + 2 * Z.of_nat n -> load dest' k = load src (p + (k - q)))
    /\ (forall k, ~ (q <= k < q + 2 * Z.of_nat n) -> load dest' k = load dest k).
Proof.
  induction n as [|n IH]; intros src alpha p z q dest Bs Bd Oa Hp Hps Hq Hqd Hz.
  { exists dest. cbn [composite_row]. repeat split; auto. intros k Hk. lia. }
  cbn [composite_row].
  destruct (load_in_bounds src p ltac:(lia)) as [Y HY].
  destruct (load_in_bounds src (p + 1) ltac:(lia)) as [UV HUV].
  destruct (load_in_bounds dest q ltac:(lia)) as [d Hd].
  destruct (load_in_bounds dest (q + 1) ltac:(lia)) as [d' Hd'].
  pose proof (load_bytes _ _ _ Bs HY) as BY. pose proof (load_bytes _ _ _ Bs HUV) as BUV.
  pose proof (load_bytes _ _ _ Bd Hd) as Bdq. pose proof (load_bytes _ _ _ Bd Hd') as Bdq'.
  rewrite HY, HUV. cbn [mbind option_bind].
  assert (Ha : match alpha with None => Some 255 | Some m => load m z end = Some 255).
  { destruct alpha as [m|]; [|reflexivity].
    destruct (load_in_bounds m z ltac:(lia)) as [a Ha]. rewrite Ha. f_equal.
    eapply load_opaque; eauto. }
  rewrite Ha. cbn [mbind option_bind]. rewrite blend_value_full, Hd. cbn [mbind option_bind].
  rewrite blend_opaque by assumption. cbn [mbind option_bind].
  rewrite store_in_bounds by lia. cbn [mbind option_bind].
  rewrite load_insert_ne, Hd' by lia. cbn [mbind option_bind].
  rewrite blend_opaque by assumption. cbn [mbind option_bind].
  rewrite store_in_bounds by (rewrite length_insert; lia). cbn [mbind option_bind].
  set (dest2 := <[Z.to_nat (q + 1) := UV]> (<[Z.to_nat q := Y]> dest)).
  assert (L2 : length dest2 = length dest) by (unfold dest2; rewrite !length_insert; reflexivity).
  destruct (IH src alpha (p + 2) (z + 1) (q + 2) dest2) as (dest' & E & L & B & In & Out);
    try assumption; try lia.
  { unfold dest2. apply bytes_insert; [apply bytes_insert|]; assumption. }
  { destruct alpha; [lia|exact I]. }
  exists dest'. split; [exact E|]. split; [congruence|]. split; [exact B|]. split.
  - intros k Hk. destruct (Z_lt_ge_dec k (q + 2)) as [Hlt|Hge].
    + rewrite Out by lia. unfold dest2.
      destruct (Z.eq_dec k q) as [->|Hne].
      * rewrite load_insert_ne by lia. rewrite load_insert_eq by lia.
        replace (p + (q - q)) with p by lia. congruence.
      * replace k with (q + 1) by lia. rewrite load_insert_eq by (rewrite length_insert; lia).
        replace (p + (q + 1 - q)) with (p + 1) by lia. congruence.
    + rewrite In by lia. f_equal. lia.
  - intros k Hk. rewrite Out by lia. unfold dest2.
    rewrite !load_insert_ne by lia. reflexivity.
Qed.

Section Rows.
Variables height_src width_src step stride_src stride_dest : Z.
Variables (src : list Z) (alpha : option (list Z)) (p_src p_alpha p_dest : Z).
Let wn := Z.of_nat (Z.to_nat width_src).

Hypothesis Bs : bytes src.
Hypothesis Oa : opaque alpha.
Hypothesis Hstep : 1 <= step.
Hypothesis Hss : 0 <= stride_src.
Hypothesis Hsd : 0 <= stride_dest.
Hypothesis Hfit : 2 * wn <= stride_dest.

Lemma composite_rows_opaque fuel : forall i dest,
  bytes dest -> 0 <= i -> height_src - i <= Z.of_nat fuel ->
  (i < height_src ->
   rows_in_bounds height_src width_src step stride_src stride_dest src alpha p_src p_alpha
     p_dest (length dest)) ->
  exists dest',
    composite_rows fuel i height_src width_src step stride_src stride_dest full_weight
      src alpha p_src p_alpha p_dest dest = Some dest'
    /\ length dest' = length dest /\ bytes dest'
    /\ (forall n j, 0 <= n -> i + n * step < height_src -> 0 <= j < 2 * wn ->
          load dest' (p_dest + (i + n * step) * stride_dest + j)
          = load src (p_src + (i + n * step) * stride_src + j))
    /\ (forall k,
          (forall n, 0 <= n -> i + n * step < height_src ->
             ~ (p_dest + (i + n * step) * stride_dest <= k
                < p_dest + (i + n * step) * stride_dest + 2 * wn)) ->
          load dest' k = load dest k).
Proof.
  induction fuel as [|fuel IH]; intros i dest Bd Hi Hfuel Hb; cbn [composite_rows];
    destruct (Z.ltb_spec i height_src) as [Hlt|Hge].
  - lia.
  - exists dest. repeat split; auto. intros n j Hn Hr. nia.
  - destruct (Hb Hlt) as (Hbuf & Ms & Md & Mi).
    assert (Ris : 0 <= i * stride_src <= (height_src - 1) * stride_src) by nia.
    assert (Rid : 0 <= i * stride_dest <= (height_src - 1) * stride_dest) by nia.
    unfold Int.mul, Int.add, Int.div.
    rewrite !chk_in_range
      by (apply in_range_iff; unfold Int.INT_MIN, Int.INT_MAX in *; lia).
    cbn [mbind option_bind].
    assert (Hq2 : Z.quot (i * stride_src) 2 <= Z.quot ((height_src - 1) * stride_src) 2)
      by (apply Z.quot_le_mono; lia).
    assert (Hq0 : 0 <= Z.quot (i * stride_src) 2) by (apply Z.quot_pos; lia).
    assert (Hq1 : Z.quot (i * stride_src) 2 <= i * stride_src)
      by (apply Z.quot_le_upper_bound; lia).
    assert (Eoz : match alpha with
                  | Some _ => if 2 =? 0 then None else Int.chk (Z.quot (i * stride_src) 2)
                  | None => Some 0
                  end
                  = Some (match alpha with Some _ => Z.quot (i * stride_src) 2 | None => 0 end)).
    { destruct alpha; [|reflexivity]. cbn [Z.eqb].
      apply chk_in_range, in_range_iff. unfold Int.INT_MIN, Int.INT_MAX in *. lia. }
    rewrite Eoz. cbn [mbind option_bind].
    assert (exists dest1,
              composite_row (Z.to_nat width_src) full_weight src alpha
                (p_src + i * stride_src)
                (p_alpha + match alpha with Some _ => Z.quot (i * stride_src) 2 | None => 0 end)
                (p_dest + i * stride_dest) dest = Some dest1
              /\ length dest1 = length dest /\ bytes dest1
              /\ (forall k, p_dest + i * stride_dest <= k < p_dest + i * stride_dest + 2 * wn ->
                    load dest1 k = load src (p_src + i * stride_src
                                             + (k - (p_dest + i * stride_dest))))
              /\ (forall k, ~ (p_dest + i * stride_dest <= k
                               < p_dest + i * stride_dest + 2 * wn) ->
                    load dest1 k = load dest k))
      as (dest1 & E1 & L1 & B1 & In1 & Out1).
    { destruct (Z_le_gt_dec wn 0) as [Hw0|Hw0].
      - replace (Z.to_nat width_src) with O by (unfold wn in Hw0; lia).
        exists dest. cbn [composite_row]. repeat split; auto. intros k Hk. lia.
      - destruct (Hbuf ltac:(lia)) as (Hp & Hps & Hq & Hqd & Ha).
        apply composite_row_opaque; try assumption; fold wn; try lia.
        destruct alpha; [lia|exact I]. }
    rewrite E1. cbn [mbind option_bind].
    destruct (IH (i + step) dest1) as (dest' & E & L & B & In & Out); try assumption; try lia.
    { rewrite L1. intros _. exact (Hb Hlt). }
    rewrite E. exists dest'. split; [reflexivity|]. split; [congruence|]. split; [exact B|].
    split.
    + intros n j Hn Hr Hj. destruct (Z.eq_dec n 0) as [->|Hn0].
      * replace (i + 0 * step) with i by lia.
        rewrite Out.
        -- rewrite In1 by lia. f_equal. lia.
        -- intros n' Hn' Hr'. nia.
      * specialize (In (n - 1) j ltac:(lia)).
        replace (i + step + (n - 1) * step) with (i + n * step) in In by lia.
        apply In; [assumption|lia].
    + intros k Hk. rewrite Out.
      * apply Out1. specialize (Hk 0 ltac:(lia)).
        replace (i + 0 * step) with i in Hk by lia. apply Hk. lia.
      * intros n Hn Hr. specialize (Hk (n + 1) ltac:(lia)).
        replace (i + (n + 1) * step) with (i + step + n * step) in Hk by lia. auto.
  - exists dest. repeat split; auto. intros n j Hn Hr. nia.
Qed.

End Rows.

Lemma small_in_range z : - 2 ^ 30 <= z <= 2 ^ 30 -> Int.chk z = Some z.
Proof.
  intros H. apply chk_in_range, in_range_iff. unfold Int.INT_MIN, Int.INT_MAX.
  change (2 ^ 30) with 1073741824 in H. lia.
Qed.

(** Cropping an overlay that, where it starts off the low edge, ends
    within the frame. *)
Lemma crop_spec x size_src size_dest :
  -16384 <= x <= 16384 -> 0 < size_src <= 16384 -> 0 < size_dest <= 16384 ->
  (x < 0 -> x + size_src <= size_dest) ->
  crop x size_src size_dest
  = Some (Z.max 0 (- x), Z.min (x + size_src) size_dest - Z.max 0 x).
Proof.
  intros Hx Hs Hd Hl. unfold crop, Int.neg, Int.sub, Int.add.
  destruct (Z.ltb_spec x 0);
    repeat (rewrite small_in_range by (change (2 ^ 30) with 1073741824; lia);
            cbn [mbind option_bind]).
  - apply f_equal, pair_equal_spec; split; lia.
  - destruct (Z.gtb_spec (x + size_src) size_dest);
      apply f_equal, pair_equal_spec; split; lia.
Qed.

Lemma even_down_bound x0 x : even_down x0 = Some x -> x0 - 1 <= x <= x0 + 1.
Proof.
  unfold even_down, Int.rem, Int.sub. intros H. apply bind_Some in H as (r & Hr & H).
  cbn in Hr. destruct (Int.in_range (Z.quot x0 2)); [|discriminate]. injection Hr as <-.
  apply chk_Some in H as [-> _].
  pose proof (Z.rem_bound_abs x0 2 ltac:(lia)). lia.
Qed.

Ltac small := rewrite small_in_range by (change (2 ^ 30) with 1073741824; lia);
              cbn [mbind option_bind].

(** C1, amended: for every progressive blend (field -1) with mix 100 and an
    alpha mask that is 255 at every pixel, or no mask, every pixel of the
    frame inside the overlay's cropped rectangle is the corresponding pixel
    of the overlay afterwards, luma and chroma: row [i], column [j] of the
    frame is row [i - y], column [j - x] of the overlay.  Sizes are up to
    16384 and the pixel position within 16384 of the origin, and an overlay
    that starts off the left or top edge ends within the frame. *)
Theorem composite_yuv_opaque p_dest width_dest height_dest p_src width_src height_src
    p_alpha geometry x0 x y :
  0 < width_dest <= 16384 -> 0 < height_dest <= 16384 ->
  0 < width_src <= 16384 -> 0 < height_src <= 16384 ->
  Z.of_nat (length p_dest) = 2 * width_dest * height_dest ->
  Z.of_nat (length p_src) = 2 * width_src * height_src ->
  match p_alpha with
  | Some m => Z.of_nat (length m) = width_src * height_src
  | None => True
  end ->
  bytes p_dest -> bytes p_src -> opaque p_alpha ->
  G.mix geometry = Flt.float_of_int 100 ->
  consumer_scale (G.x geometry) width_dest (G.nw geometry) = Some x0 ->
  even_down x0 = Some x ->
  consumer_scale (G.y geometry) height_dest (G.nh geometry) = Some y ->
  -16384 <= x <= 16384 -> -16384 <= y <= 16384 ->
  (x < 0 -> x + width_src <= width_dest) ->
  (y < 0 -> y + height_src <= height_dest) ->
  exists dest',
    composite_yuv p_dest width_dest height_dest p_src width_src height_src p_alpha
      geometry (-1) = Some (0, dest')
    /\ length dest' = length p_dest
    /\ forall i j,
         Z.max 0 y <= i < Z.min height_dest (y + height_src) ->
         Z.max 0 x <= j < Z.min width_dest (x + width_src) ->
         load dest' (2 * (i * width_dest + j))
         = load p_src (2 * ((i - y) * width_src + (j - x)))
         /\ load dest' (2 * (i * width_dest + j) + 1)
            = load p_src (2 * ((i - y) * width_src + (j - x)) + 1).
Proof.
  intros Hwd Hhd Hws Hhs Ld Ls La Bd Bs Oa Hmix Hx0 Hx Hy Rx Ry Lx Ly.
  assert (Ix : Int.in_range x = true /\ Int.INT_MIN < x)
    by (split; [apply in_range_iff|]; unfold Int.INT_MIN, Int.INT_MAX; lia).
  assert (Iy : Int.in_range y = true /\ Int.INT_MIN < y)
    by (split; [apply in_range_iff|]; unfold Int.INT_MIN, Int.INT_MAX; lia).
  unfold composite_yuv. rewrite Hmix. fold full_weight.
  unfold Int.mul, Int.add, Int.sub. do 2 small.
  rewrite Hx0. cbn [mbind option_bind]. rewrite Hy. cbn [mbind option_bind].
  rewrite Hx. cbn [mbind option_bind].
  replace (width_src <=? 0) with false by (symmetry; apply Z.leb_gt; lia).
  replace (height_src <=? 0) with false by (symmetry; apply Z.leb_gt; lia).
  cbn [orb].
  rewrite (off_frame_spec x) by tauto. cbn [mbind option_bind].
  destruct ((x <? 0) && (width_src <=? - x)) eqn:Ox.
  { exists p_dest. split; [reflexivity|]. split; [reflexivity|]. intros i j Hi Hj.
    apply andb_true_iff in Ox as [O1 O2]. apply Z.ltb_lt in O1. apply Z.leb_le in O2. lia. }
  rewrite (off_frame_spec y) by tauto. cbn [mbind option_bind].
  destruct ((y <? 0) && (height_src <=? - y)) eqn:Oy.
  { exists p_dest. split; [reflexivity|]. split; [reflexivity|]. intros i j Hi Hj.
    apply andb_true_iff in Oy as [O1 O2]. apply Z.ltb_lt in O1. apply Z.leb_le in O2. lia. }
  rewrite (crop_spec x) by assumption. cbn [mbind option_bind].
  rewrite (crop_spec y) by assumption. cbn [mbind option_bind].
  replace (if x <? 0 then 0 else x) with (Z.max 0 x) by (destruct (Z.ltb_spec x 0); lia).
  replace (if y <? 0 then 0 else y) with (Z.max 0 y) by (destruct (Z.ltb_spec y 0); lia).
  replace (if Z.max 0 x <? 0 then 0 else Z.max 0 x) with (Z.max 0 x)
    by (destruct (Z.ltb_spec (Z.max 0 x) 0); lia).
  apply andb_false_iff in Ox, Oy. rewrite Z.ltb_ge, Z.leb_gt in Ox, Oy.
  assert (Bxs : 0 <= Z.max 0 (- x) < width_src /\ Z.max 0 (- x) - Z.max 0 x = - x) by lia.
  assert (Bys : 0 <= Z.max 0 (- y) < height_src /\ Z.max 0 (- y) - Z.max 0 y = - y) by lia.
  assert (Bx' : 0 <= Z.max 0 x <= 16384) by lia.
  assert (By' : 0 <= Z.max 0 y <= 16384) by lia.
  assert (Bw : -16384 <= (x + width_src) `min` width_dest - Z.max 0 x
               /\ Z.max 0 (- x) + ((x + width_src) `min` width_dest - Z.max 0 x) <= width_src
               /\ Z.max 0 x + ((x + width_src) `min` width_dest - Z.max 0 x) <= width_dest)
    by lia.
  assert (Bh : -16384 <= (y + height_src) `min` height_dest - Z.max 0 y
               /\ Z.max 0 (- y) + ((y + height_src) `min` height_dest - Z.max 0 y) <= height_src
               /\ Z.max 0 y + ((y + height_src) `min` height_dest - Z.max 0 y) <= height_dest)
    by lia.
  assert (Eh : Z.min height_dest (y + height_src)
               = Z.max 0 y + ((y + height_src) `min` height_dest - Z.max 0 y)) by lia.
  assert (Ew : Z.min width_dest (x + width_src)
               = Z.max 0 x + ((x + width_src) `min` width_dest - Z.max 0 x)) by lia.
  rewrite Eh, Ew. clear Eh Ew.
  set (xs := Z.max 0 (- x)) in *. set (ys := Z.max 0 (- y)) in *.
  set (x' := Z.max 0 x) in *. set (y' := Z.max 0 y) in *.
  set (w' := (x + width_src) `min` width_dest - x') in *.
  set (h' := (y + height_src) `min` height_dest - y') in *.
  clearbody xs ys x' y' w' h'.
  assert (P2 : 0 <= ys * (width_src * 2) <= 536870912) by (clear - Bys Hws Hhs; nia).
  assert (P4 : 0 <= y' * (width_dest * 2) <= 536870912) by (clear - By' Hwd; nia).
  assert (P5 : 0 <= ys * width_src <= 268435456) by (clear - Bys Hws Hhs; nia).
  repeat small.
  assert (Eoa : match p_alpha with
                | Some _ => Int.div (ys * (width_src * 2)) 2 ≫= (fun c => Int.chk (xs + c))
                | None => Some 0
                end
                = Some (match p_alpha with Some _ => xs + ys * width_src | None => 0 end)).
  { destruct p_alpha; [|reflexivity]. unfold Int.div. cbn [Z.eqb].
    replace (ys * (width_src * 2)) with (ys * width_src * 2) by lia.
    rewrite Z.quot_mul by lia. repeat small. reflexivity. }
  rewrite Eoa. cbn [mbind option_bind].
  change (-1 =? 1) with false. change (-1 >? -1) with false. cbn [andb mbind option_bind].
  set (o_alpha := match p_alpha with Some _ => xs + ys * width_src | None => 0 end).
  destruct (composite_rows_opaque h' w' 1 (width_src * 2) (width_dest * 2) p_src p_alpha
              (xs * 2 + ys * (width_src * 2)) o_alpha (x' * 2 + y' * (width_dest * 2))
              Bs Oa ltac:(lia) ltac:(lia) ltac:(lia) ltac:(lia)
              (Z.to_nat h') 0 p_dest Bd ltac:(lia) ltac:(lia))
    as (dest' & E & L & _ & In & _).
  { intros Hh. unfold rows_in_bounds. unfold Int.INT_MAX.
    assert (0 <= (h' - 1) * (width_src * 2) <= 536870912) by (clear - Hh Bh Hws Hhs Bys; nia).
    assert (0 <= (h' - 1) * (width_dest * 2) <= 536870912) by (clear - Hh Bh Hwd Hhd By'; nia).
    split; [|lia]. intros Hw.
    assert ((ys + h' - 1) * (width_src * 2) + 2 * width_src <= 2 * width_src * height_src)
      by (clear - Hh Bh Hws Hhs Bys; nia).
    assert ((y' + h' - 1) * (width_dest * 2) + 2 * width_dest <= 2 * width_dest * height_dest)
      by (clear - Hh Bh Hwd Hhd By'; nia).
    repeat apply conj; try lia.
    subst o_alpha. destruct p_alpha as [m|]; [|exact I].
    replace ((h' - 1) * (width_src * 2)) with ((h' - 1) * width_src * 2) by lia.
    rewrite Z.quot_mul by lia.
    assert ((ys + h' - 1) * width_src + width_src <= width_src * height_src)
      by (clear - Hh Bh Hws Hhs Bys; nia).
    lia. }
  rewrite E. cbn [mbind option_bind]. exists dest'. split; [reflexivity|]. split; [exact L|].
  intros i j Hi Hj.
  assert (Hrow : 0 <= i - y' /\ 0 + (i - y') * 1 < h') by lia.
  split.
  - specialize (In (i - y') (2 * (j - x')) ltac:(lia) ltac:(lia) ltac:(lia)).
    replace (x' * 2 + y' * (width_dest * 2) + (0 + (i - y') * 1) * (width_dest * 2)
             + 2 * (j - x')) with (2 * (i * width_dest + j)) in In by lia.
    rewrite In. f_equal. clear - Bxs Bys. nia.
  - specialize (In (i - y') (2 * (j - x') + 1) ltac:(lia) ltac:(lia) ltac:(lia)).
    replace (x' * 2 + y' * (width_dest * 2) + (0 + (i - y') * 1) * (width_dest * 2)
             + (2 * (j - x') + 1)) with (2 * (i * width_dest + j) + 1) in In by lia.
    rewrite In. f_equal. clear - Bxs Bys. nia.
Qed.

(** The claim C1 as it is written fails for a pass of an interlaced blend:
    the pass of field 0 writes every second row only, so row 0 of the
    frame, inside the rectangle, keeps its own samples. *)
Lemma interlaced_pass_keeps_rows :
  composite_yuv frame_2x2 2 2 overlay_2x2 2 2 (Some [255; 255; 255; 255])
    (box 2 2 0 0 2 2 100) 0
  = Some (0, [16; 128; 16; 128; 235; 100; 200; 110])
  /\ load [16; 128; 16; 128; 235; 100; 200; 110] 0 = Some 16
  /\ load overlay_2x2 0 = Some 235.
Proof. repeat apply conj; vm_compute; reflexivity. Qed.

Lemma composite_yuv_opaque_witness :
  exists dest',
    composite_yuv frame_2x2 2 2 overlay_2x2 2 2 (Some [255; 255; 255; 255])
      (box 2 2 0 0 2 2 100) (-1) = Some (0, dest')
    /\ length dest' = length frame_2x2
    /\ forall i j,
         Z.max 0 0 <= i < Z.min 2 (0 + 2) ->
         Z.max 0 0 <= j < Z.min 2 (0 + 2) ->
         load dest' (2 * (i * 2 + j)) = load overlay_2x2 (2 * ((i - 0) * 2 + (j - 0)))
         /\ load dest' (2 * (i * 2 + j) + 1)
            = load overlay_2x2 (2 * ((i - 0) * 2 + (j - 0)) + 1).
Proof.
  apply (composite_yuv_opaque frame_2x2 2 2 overlay_2x2 2 2 (Some [255; 255; 255; 255])
           (box 2 2 0 0 2 2 100) 0 0 0);
    try reflexivity; try lia;
    try (repeat constructor; lia).
Defined.

(** ** Field parity *)

(** C2 at its failing input: a geometry whose pixel row is -1.  The pass
    of field 0 onto a frame of 4 rows writes rows 0 and 2 and leaves rows 1
    and 3, where the pass at pixel row 0 writes rows 1 and 3; at pixel row
    -2 the pass of field 0 writes before the start of the frame buffer. *)
Theorem field_0_negative_row :
  consumer_scale (G.y (box 2 4 0 (-2) 2 4 100)) 4 4 = Some (-1)
  /\ composite_yuv frame_2x4 2 4 overlay_2x4 2 4 None (box 2 4 0 (-2) 2 4 100) 0
     = Some (0, [120; 121; 122; 123; 20; 21; 22; 23; 140; 141; 142; 143; 40; 41; 42; 43])
  /\ composite_yuv frame_2x4 2 4 overlay_2x4 2 4 None (box 2 4 0 0 2 4 100) 0
     = Some (0, [10; 11; 12; 13; 110; 111; 112; 113; 30; 31; 32; 33; 130; 131; 132; 133])
  /\ composite_yuv frame_2x4 2 4 overlay_2x4 2 4 None (box 2 4 0 0 2 4 100) 1
     = Some (0, [120; 121; 122; 123; 20; 21; 22; 23; 140; 141; 142; 143; 40; 41; 42; 43])
  /\ consumer_scale (G.y (box 2 4 0 (-3) 2 4 100)) 4 4 = Some (-2)
  /\ composite_yuv frame_2x4 2 4 overlay_2x4 2 4 None (box 2 4 0 (-3) 2 4 100) 0 = None.
Proof. repeat apply conj; vm_compute; reflexivity. Qed.

(** ** The driver on small frames

    A white overlay of 2 x 2 pixels at the origin of a grey frame of
    4 x 4.  The three rounding biases put it at pixel row 1. *)

Example transition_get_image_progressive :
  outcome <$> transition_get_image (transition_on "0,0:50%x50%") (base_4x4 1)
                (Some white_overlay) 4 4 junk junk junk
  = Some ([16; 16; 16; 16; 16; 16; 16; 16;
           235; 235; 235; 235; 16; 16; 16; 16;
           235; 235; 235; 235; 16; 16; 16; 16;
           16; 16; 16; 16; 16; 16; 16; 16],
          [(4, 4)], Some [(2, 2)]).
Proof. vm_compute. reflexivity. Qed.

(** Interlaced, the pass of field 0 writes row 1 and the pass of field 1
    row 0. *)
Example transition_get_image_interlaced :
  outcome <$> transition_get_image (transition_on "0,0:50%x50%") (base_4x4 0)
                (Some white_overlay) 4 4 junk junk junk
  = Some ([235; 235; 235; 235; 16; 16; 16; 16;
           235; 235; 235; 235; 16; 16; 16; 16;
           16; 16; 16; 16; 16; 16; 16; 16;
           16; 16; 16; 16; 16; 16; 16; 16],
          [(4, 4)], Some [(2, 2)]).
Proof. vm_compute. reflexivity. Qed.

(** Wholly off the left edge, the overlay is neither requested nor
    drawn. *)
Example transition_get_image_off_frame :
  outcome <$> transition_get_image (transition_on "-30,0:50%x50%") (base_4x4 1)
                (Some white_overlay) 4 4 junk junk junk
  = Some (replicate 32 16, [(4, 4)], Some []).
Proof. vm_compute. reflexivity. Qed.

(** With an empty start string the geometry is what the stack held: the
    overlay is requested at that size and falls outside the frame. *)
Example transition_get_image_empty_start :
  outcome <$> transition_get_image (transition_on "") (base_4x4 1)
                (Some white_overlay) 4 4 junk junk junk
  = Some (replicate 32 16, [(4, 4)], Some [(2, 2)]).
Proof. vm_compute. reflexivity. Qed.

(** ** Pixel arithmetic *)

Lemma in_range_quot2 x : Int.in_range x = true -> Int.in_range (Z.quot x 2) = true.
Proof.
  rewrite !in_range_iff. unfold Int.INT_MIN, Int.INT_MAX. intros H.
  pose proof (Z.quot_rem x 2 ltac:(lia)). pose proof (Z.rem_bound_abs x 2 ltac:(lia)).
  lia.
Qed.

(** X1: [x -= x % 2] is defined for every [int] and makes [x] even by
    moving it toward zero: a positive odd [x] goes one pixel to the left,
    a negative odd [x] one pixel to the right. *)
Theorem even_down_toward_zero (x : Z) :
  Int.in_range x = true ->
  exists x', even_down x = Some x'
    /\ x' = 2 * Z.quot x 2
    /\ (0 <= x -> x - 1 <= x' <= x)
    /\ (x <= 0 -> x <= x' <= x + 1).
Proof.
  intros H. unfold even_down, Int.rem, Int.sub. cbn [Z.eqb].
  rewrite in_range_quot2 by assumption. cbn [mbind option_bind].
  pose proof (Z.quot_rem x 2 ltac:(lia)) as E.
  assert (Hr : (0 <= x -> 0 <= Z.rem x 2 < 2) /\ (x <= 0 -> -2 < Z.rem x 2 <= 0)).
  { split; intros Hx.
    - apply Z.rem_bound_pos; lia.
    - pose proof (Z.rem_bound_pos_neg x 2 ltac:(lia) ltac:(lia)). lia. }
  apply in_range_iff in H. unfold Int.INT_MIN, Int.INT_MAX in H.
  rewrite chk_in_range by (apply in_range_iff; unfold Int.INT_MIN, Int.INT_MAX; lia).
  eexists. split; [reflexivity|]. lia.
Qed.

Lemma even_down_toward_zero_witness :
  exists x', even_down (-7) = Some x' /\ x' = -6.
Proof.
  destruct (even_down_toward_zero (-7) eq_refl) as (x' & E & V & _).
  exists x'. split; [exact E|]. rewrite V. reflexivity.
Defined.

Lemma crop_inv x size_src size_dest o s :
  crop x size_src size_dest = Some (o, s) ->
  0 <= o /\ o + s <= size_src
  /\ (0 <= x -> o = 0 /\ x + s <= size_dest)
  /\ (x < 0 -> o = - x /\ s = size_src + x).
Proof.
  unfold crop, Int.neg, Int.sub, Int.add. intros H.
  destruct (Z.ltb_spec x 0) as [Hx|Hx].
  - apply bind_Some in H as (a & Ha & H). apply chk_Some in Ha as [-> _].
    apply bind_Some in H as (b & Hb & H). apply chk_Some in Hb as [-> _].
    injection H as <- <-. lia.
  - apply bind_Some in H as (e & He & H). apply chk_Some in He as [-> _].
    destruct (Z.gtb_spec (x + size_src) size_dest).
    + apply bind_Some in H as (b & Hb & H). apply chk_Some in Hb as [-> _].
      injection H as <- <-. lia.
    + injection H as <- <-. lia.
Qed.

(** X2: the window that cropping keeps lies within the overlay.  For
    [x >= 0] it starts at the overlay's edge and ends within the frame;
    for [x < 0] it starts [-x] into the overlay and keeps all the rest,
    whatever the size of the frame: the high edge is not cropped then. *)
Theorem crop_window (x size_src size_dest o s : Z) :
  crop x size_src size_dest = Some (o, s) ->
  0 <= o /\ o + s <= size_src
  /\ (0 <= x -> o = 0 /\ x + s <= size_dest)
  /\ (x < 0 -> o = - x /\ s = size_src + x).
Proof. apply crop_inv. Qed.

Lemma crop_window_witness :
  crop (-4) 10 6 = Some (4, 6) /\ 0 <= 4 /\ 4 + 6 <= 10.
Proof.
  split; [reflexivity|].
  destruct (crop_window (-4) 10 6 4 6 eq_refl) as (H1 & H2 & _). split; assumption.
Defined.

(** X3: for sizes up to 32768, fitting a candidate size into the normalised
    frame is defined, gives a size within the frame, enlarges neither
    dimension, and leaves a size that fits already as it is. *)
Theorem fit_normalised_shrinks (scaled_width scaled_height normalised_width normalised_height : Z) :
  0 <= scaled_width <= 32768 -> 0 <= scaled_height <= 32768 ->
  0 <= normalised_width <= 32768 -> 0 <= normalised_height <= 32768 ->
  exists a b,
    fit_normalised scaled_width scaled_height normalised_width normalised_height = Some (a, b)
    /\ 0 <= a <= Z.min scaled_width normalised_width
    /\ 0 <= b <= Z.min scaled_height normalised_height
    /\ (scaled_width <= normalised_width -> scaled_height <= normalised_height ->
        a = scaled_width /\ b = scaled_height).
Proof.
  intros Hsw Hsh Hnw Hnh. unfold fit_normalised, Int.mul, Int.div.
  assert (Hq : forall a b c, 0 <= a -> 0 <= b < c -> 0 <= Z.quot (a * b) c <= a).
  { intros a b c Ha Hb. split.
    - apply Z.quot_pos; nia.
    - apply Z.quot_le_upper_bound; nia. }
  destruct (Z.gtb_spec scaled_width normalised_width) as [H1|H1].
  - assert (P1 : 0 <= scaled_height * normalised_width <= 1073741824) by nia.
    pose proof (Hq scaled_height normalised_width scaled_width ltac:(lia) ltac:(lia)) as Q1.
    rewrite small_in_range by (change (2 ^ 30) with 1073741824; lia).
    cbn [mbind option_bind].
    replace (scaled_width =? 0) with false by (symmetry; apply Z.eqb_neq; lia).
    rewrite small_in_range by (change (2 ^ 30) with 1073741824; lia).
    cbn [mbind option_bind].
    set (h1 := Z.quot (scaled_height * normalised_width) scaled_width) in *.
    destruct (Z.gtb_spec h1 normalised_height) as [H2|H2].
    + assert (P2 : 0 <= normalised_width * normalised_height <= 1073741824) by nia.
      pose proof (Hq normalised_width normalised_height h1 ltac:(lia) ltac:(lia)) as Q2.
      rewrite small_in_range by (change (2 ^ 30) with 1073741824; lia).
      cbn [mbind option_bind].
      replace (h1 =? 0) with false by (symmetry; apply Z.eqb_neq; lia).
      rewrite small_in_range by (change (2 ^ 30) with 1073741824; lia).
      cbn [mbind option_bind].
      eexists. eexists. split; [reflexivity|]. lia.
    + eexists. eexists. split; [reflexivity|]. lia.
  - cbn [mbind option_bind].
    destruct (Z.gtb_spec scaled_height normalised_height) as [H2|H2].
    + assert (P2 : 0 <= scaled_width * normalised_height <= 1073741824) by nia.
      pose proof (Hq scaled_width normalised_height scaled_height ltac:(lia) ltac:(lia)) as Q2.
      rewrite small_in_range by (change (2 ^ 30) with 1073741824; lia).
      cbn [mbind option_bind].
      replace (scaled_height =? 0) with false by (symmetry; apply Z.eqb_neq; lia).
      rewrite small_in_range by (change (2 ^ 30) with 1073741824; lia).
      cbn [mbind option_bind].
      eexists. eexists. split; [reflexivity|]. lia.
    + eexists. eexists. split; [reflexivity|]. lia.
Qed.

Lemma fit_normalised_shrinks_witness :
  exists a b, fit_normalised 200 50 100 100 = Some (a, b) /\ a <= 100 /\ b <= 50.
Proof.
  destruct (fit_normalised_shrinks 200 50 100 100) as (a & b & E & Ha & Hb & _); try lia.
  exists a, b. split; [exact E|]. lia.
Defined.

(** ** Parsed sizes *)

Lemma assign_w_size v g g' :
  assign_w v g = Some g' ->
  G.w g' = Flt.float_of_int (G.sw g') /\ G.h g' = G.h g /\ G.sh g' = G.sh g
  /\ G.nw g' = G.nw g /\ G.nh g' = G.nh g
  /\ G.halign g' = G.halign g /\ G.valign g' = G.valign g
  /\ Int.of_float v = Some (G.sw g').
Proof.
  unfold assign_w. intros H. apply bind_Some in H as (n & Hn & H). injection H as <-.
  cbn. rewrite Hn. tauto.
Qed.

Lemma assign_h_size v g g' :
  assign_h v g = Some g' ->
  G.h g' = Flt.float_of_int (G.sh g') /\ G.w g' = G.w g /\ G.sw g' = G.sw g
  /\ G.nw g' = G.nw g /\ G.nh g' = G.nh g
  /\ G.halign g' = G.halign g /\ G.valign g' = G.valign g
  /\ Int.of_float v = Some (G.sh g').
Proof.
  unfold assign_h. intros H. apply bind_Some in H as (n & Hn & H). injection H as <-.
  cbn. rewrite Hn. tauto.
Qed.

(** X4: a parsed geometry has the normalised size that was passed and
    keeps the alignment fields of the struct; when there are defaults or a
    property string, its [w] and [h] are whole numbers: the [int]s stored
    in [sw] and [sh], converted back. *)
Theorem geometry_parse_whole_size (geometry : geometry_s) (defaults : option geometry_s)
    (property : option string) (nw nh : Z) (g : geometry_s) :
  geometry_parse geometry defaults property nw nh = Some g ->
  G.nw g = nw /\ G.nh g = nh
  /\ G.halign g = G.halign geometry /\ G.valign g = G.valign geometry
  /\ (defaults <> None \/ property <> None ->
      G.w g = Flt.float_of_int (G.sw g) /\ G.h g = Flt.float_of_int (G.sh g)).
Proof.
  unfold geometry_parse. intros H. apply bind_Some in H as (g0 & H0 & H).
  assert (I0 : G.nw g0 = nw /\ G.nh g0 = nh
               /\ G.halign g0 = G.halign geometry /\ G.valign g0 = G.valign geometry
               /\ (defaults <> None ->
                   G.w g0 = Flt.float_of_int (G.sw g0) /\ G.h g0 = Flt.float_of_int (G.sh g0))).
  { destruct defaults as [d|].
    - apply bind_Some in H0 as (g1 & H1 & H0). apply bind_Some in H0 as (g2 & H2 & H0).
      injection H0 as <-. apply assign_w_size in H1. apply assign_h_size in H2.
      cbn in *. intuition congruence.
    - injection H0 as <-. cbn. intuition congruence. }
  destruct property as [s|].
  - destruct (parse_value (Some s) nw "," (G.x g0)) as [vx p1].
    destruct (parse_value p1 nh ":" _) as [vy p2].
    destruct (parse_value p2 nw "x" _) as [vw p3].
    apply bind_Some in H as (g1 & H1 & H).
    destruct (parse_value p3 nh ":" _) as [vh p4].
    apply bind_Some in H as (g2 & H2 & H).
    destruct (parse_value p4 100 " " _) as [vm p5].
    injection H as <-. apply assign_w_size in H1. apply assign_h_size in H2.
    cbn in *. intuition congruence.
  - injection H as <-. intuition congruence.
Qed.

Lemma geometry_parse_whole_size_witness :
  exists g, geometry_parse junk None (Some "10.7,20:30.9x40.2") 100 100 = Some g
    /\ G.w g = Flt.float_of_int 30 /\ G.h g = Flt.float_of_int 40.
Proof.
  eexists. split; [vm_compute; reflexivity|].
  destruct (geometry_parse_whole_size junk None (Some "10.7,20:30.9x40.2") 100 100
              _ ltac:(vm_compute; reflexivity)) as (_ & _ & _ & _ & H).
  destruct (H ltac:(right; discriminate)) as [Hw Hh]. split; [exact Hw|exact Hh].
Defined.

(** ** The blend at any opacity *)

Lemma blend_byte value Y D v : blend value Y D = Some v -> 0 <= v < 256.
Proof.
  unfold blend, Int.uint8_of_float. intros H. apply bind_Some in H as (t & _ & H).
  destruct (Z.leb_spec 0 t) as [H0|H0]; destruct (Z.leb_spec t 255) as [H1|H1];
    cbn in H; try discriminate.
  injection H as <-. lia.
Qed.

Lemma store_Some m a v m' :
  store m a v = Some m' -> m' = <[Z.to_nat a := v]> m /\ 0 <= a < Z.of_nat (length m).
Proof.
  unfold store. destruct (Z.leb_spec 0 a) as [Ha|Ha];
    destruct (Z.ltb_spec a (Z.of_nat (length m))) as [Hl|Hl];
    cbn; intros E; try discriminate.
  injection E as <-. split; [reflexivity|lia].
Qed.

(** One row writes bytes, and only at its own pixels. *)
Lemma composite_row_frame n : forall weight src alpha p z q dest dest',
  bytes dest ->
  composite_row n weight src alpha p z q dest = Some dest' ->
  length dest' = length dest /\ bytes dest'
  /\ (forall k, ~ (q <= k < q + 2 * Z.of_nat n) -> load dest' k = load dest k).
Proof.
  induction n as [|n IH]; intros weight src alpha p z q dest dest' Bd H; cbn [composite_row] in H.
  { injection H as <-. auto. }
  apply bind_Some in H as (Y & _ & H). apply bind_Some in H as (UV & _ & H).
  apply bind_Some in H as (a & _ & H). apply bind_Some in H as (d & _ & H).
  apply bind_Some in H as (v & Hv & H). apply bind_Some in H as (dest1 & H1 & H).
  apply bind_Some in H as (d' & _ & H). apply bind_Some in H as (v' & Hv' & H).
  apply bind_Some in H as (dest2 & H2 & H).
  apply store_Some in H1 as [-> R1]. apply store_Some in H2 as [-> R2].
  apply blend_byte in Hv, Hv'.
  apply IH in H as (L & B & Out).
  2:{ apply bytes_insert; [apply bytes_insert|]; assumption. }
  rewrite !length_insert in L. split; [exact L|]. split; [exact B|].
  intros k Hk. rewrite Out by lia. rewrite !load_insert_ne by lia. reflexivity.
Qed.

(** The rows written by the loop from row [i] on. *)
Lemma composite_rows_frame fuel height_src width_src step stride_src stride_dest weight src
    alpha p_src p_alpha p_dest : forall i dest dest',
  bytes dest -> 0 <= i -> 1 <= step ->
  composite_rows fuel i height_src width_src step stride_src stride_dest weight src alpha
    p_src p_alpha p_dest dest = Some dest' ->
  length dest' = length dest /\ bytes dest'
  /\ (forall k,
        (forall n, 0 <= n -> i + n * step < height_src ->
           ~ (p_dest + (i + n * step) * stride_dest <= k
              < p_dest + (i + n * step) * stride_dest
                + 2 * Z.of_nat (Z.to_nat width_src))) ->
        load dest' k = load dest k).
Proof.
  induction fuel as [|fuel IH]; intros i dest dest' Bd Hi Hstep H; cbn [composite_rows] in H;
    destruct (Z.ltb_spec i height_src) as [Hlt|Hge]; try discriminate;
    try (injection H as <-; auto; fail).
  apply bind_Some in H as (op & Hop & H). apply bind_Some in H as (oq & Hoq & H).
  apply bind_Some in H as (oz & _ & H). apply bind_Some in H as (dest1 & H1 & H).
  apply bind_Some in H as (i' & Hi' & H).
  apply mul_Some in Hoq. subst oq. apply chk_Some in Hi' as [-> _].
  apply composite_row_frame in H1 as (L1 & B1 & Out1); [|assumption].
  apply IH in H as (L & B & Out); [|assumption|lia|assumption].
  split; [congruence|]. split; [exact B|].
  intros k Hk. rewrite Out.
  - apply Out1. specialize (Hk 0 ltac:(lia)).
    replace (i + 0 * step) with i in Hk by lia. apply Hk. lia.
  - intros n Hn Hr. specialize (Hk (n + 1) ltac:(lia)).
    replace (i + (n + 1) * step) with (i + step + n * step) in Hk by lia. auto.
Qed.

(** What a completed call of [composite_yuv] went through: the pixel
    position, and either an early return or the two crops and the run of
    the row loop. *)
Lemma composite_yuv_inv p_dest width_dest height_dest p_src width_src height_src p_alpha
    geometry field r dest' :
  composite_yuv p_dest width_dest height_dest p_src width_src height_src p_alpha geometry
    field = Some (r, dest') ->
  r = 0
  /\ exists x0 x y,
       consumer_scale (G.x geometry) width_dest (G.nw geometry) = Some x0
       /\ consumer_scale (G.y geometry) height_dest (G.nh geometry) = Some y
       /\ even_down x0 = Some x
       /\ (dest' = p_dest
           \/ exists x_src w' y_src h' o_src o_alpha,
                crop x width_src width_dest = Some (x_src, w')
                /\ crop y height_src height_dest = Some (y_src, h')
                /\ composite_rows (Z.to_nat (if field =? 1 then h' - 1 else h')) 0
                     (if field =? 1 then h' - 1 else h') w'
                     (if field >? -1 then 2 else 1) (width_src * 2) (width_dest * 2)
                     (Flt.fdiv (G.mix geometry) (Flt.float_of_int 100)) p_src p_alpha
                     o_src o_alpha
                     (let o_dest := Z.max 0 x * 2 + Z.max 0 y * (width_dest * 2) in
                      if (field >? -1) && (Z.rem y 2 =? field) then
                        if y =? 0 then o_dest + width_dest * 2 else o_dest - width_dest * 2
                      else o_dest)
                     p_dest = Some dest').
Proof.
  unfold composite_yuv. intros H.
  apply bind_Some in H as (ss & Hss & H). apply bind_Some in H as (sd & Hsd & H).
  apply bind_Some in H as (x0 & Hx0 & H). apply bind_Some in H as (y & Hy & H).
  apply bind_Some in H as (x & Hx & H).
  apply mul_Some in Hss, Hsd. subst ss sd.
  destruct ((width_src <=? 0) || (height_src <=? 0)).
  { injection H as <- <-. split; [reflexivity|]. exists x0, x, y. auto. }
  apply bind_Some in H as (ox & _ & H). apply bind_Some in H as (oy & _ & H).
  destruct oy.
  { injection H as <- <-. split; [reflexivity|]. exists x0, x, y. auto. }
  apply bind_Some in H as ([x_src w'] & Hcx & H).
  apply bind_Some in H as ([y_src h'] & Hcy & H).
  apply bind_Some in H as (a & Ha & H). apply bind_Some in H as (b & Hb & H).
  apply bind_Some in H as (o_src & Hos & H).
  apply bind_Some in H as (a' & Ha' & H). apply bind_Some in H as (b' & Hb' & H).
  apply bind_Some in H as (o_dest & Hod & H).
  apply bind_Some in H as (o_alpha & Hoa & H).
  apply bind_Some in H as ([[o_src' o_alpha'] hs'] & Hf & H).
  apply bind_Some in H as (dest & Hrows & H). injection H as <- <-.
  split; [reflexivity|]. exists x0, x, y. do 3 (split; [assumption|]). right.
  apply mul_Some in Ha', Hb'. apply chk_Some in Hod as [-> _]. subst a' b'.
  assert (Ex : (if (if x <? 0 then 0 else x) <? 0 then 0 else if x <? 0 then 0 else x)
               = Z.max 0 x).
  { destruct (Z.ltb_spec x 0) as [Hn|Hn]; [cbn; lia|].
    destruct (Z.ltb_spec x 0); lia. }
  assert (Ey : (if y <? 0 then 0 else y) = Z.max 0 y) by (destruct (Z.ltb_spec y 0); lia).
  rewrite Ex, Ey in Hrows.
  exists x_src, w', y_src, h', o_src', o_alpha'.
  split; [exact Hcx|]. split; [exact Hcy|].
  destruct (field =? 1).
  - apply bind_Some in Hf as (ha & _ & Hf). apply bind_Some in Hf as (hs1 & Hs1 & Hf).
    apply chk_Some in Hs1 as [-> _]. injection Hf as <- <- <-. exact Hrows.
  - injection Hf as <- <- <-. exact Hrows.
Qed.

Lemma composite_yuv_shape p_dest width_dest height_dest p_src width_src height_src
    p_alpha geometry field r dest' :
  bytes p_dest ->
  composite_yuv p_dest width_dest height_dest p_src width_src height_src p_alpha geometry
    field = Some (r, dest') ->
  r = 0 /\ length dest' = length p_dest /\ bytes dest'.
Proof.
  intros Bd H. apply composite_yuv_inv in H as (-> & x0 & x & y & _ & _ & _ & H).
  split; [reflexivity|].
  destruct H as [->|(x_src & w' & y_src & h' & o_src & o_alpha & _ & _ & H)]; [auto|].
  apply composite_rows_frame in H as (L & B & _); auto; [lia|].
  destruct (field >? -1); lia.
Qed.

(** X5: whenever the blend completes, its status is 0, the frame buffer
    has the length it had and its samples are bytes, whatever the field,
    the mix and the mask are. *)
Theorem composite_yuv_keeps_shape p_dest width_dest height_dest p_src width_src height_src
    p_alpha geometry field r dest' :
  bytes p_dest ->
  composite_yuv p_dest width_dest height_dest p_src width_src height_src p_alpha geometry
    field = Some (r, dest') ->
  r = 0 /\ length dest' = length p_dest /\ bytes dest'.
Proof. apply composite_yuv_shape. Qed.

Lemma composite_yuv_keeps_shape_witness :
  exists dest', composite_yuv frame_2x2 2 2 overlay_2x2 2 2 None (box 2 2 0 0 2 2 50) 0
                = Some (0, dest')
    /\ length dest' = 8%nat.
Proof.
  eexists. split; [vm_compute; reflexivity|].
  refine (proj1 (proj2 (composite_yuv_keeps_shape frame_2x2 2 2 overlay_2x2 2 2 None
                          (box 2 2 0 0 2 2 50) 0 0 _ _ _))).
  - unfold bytes, frame_2x2. repeat constructor; lia.
  - vm_compute. reflexivity.
Defined.

(** ** Zero opacity *)

Lemma blend_value_zero_weight s a :
  0 <= a < 256 -> exists s', blend_value (S754_zero s) a = S754_zero s'.
Proof.
  intros Ha. unfold blend_value.
  pose proof (float_of_int_finite a ltac:(apply in_range_iff;
    unfold Int.INT_MIN, Int.INT_MAX; lia)) as F.
  destruct (Flt.float_of_int a) as [sa| | |sa ma ea]; try discriminate;
    eexists; vm_compute; reflexivity.
Qed.

Lemma blend_value_zero_alpha weight :
  (exists s', blend_value weight 0 = S754_zero s') \/ blend_value weight 0 = S754_nan.
Proof.
  unfold blend_value. change (Flt.float_of_int 0) with (S754_zero false).
  destruct weight as [s|s| |s m e]; [left|right|right|left];
    try (eexists; vm_compute; reflexivity); vm_compute; reflexivity.
Qed.

Lemma blend_nan Y D : blend S754_nan Y D = None.
Proof.
  unfold blend, Flt.fmul, Flt.fadd.
  destruct (Flt.float_of_int Y); reflexivity.
Qed.

Lemma blend_zero s Y D : 0 <= Y < 256 -> 0 <= D < 256 -> blend (S754_zero s) Y D = Some D.
Proof.
  intros HY HD.
  assert (E1 : exists s', Flt.fmul (Flt.float_of_int Y) (S754_zero s) = S754_zero s').
  { pose proof (float_of_int_finite Y ltac:(apply in_range_iff;
      unfold Int.INT_MIN, Int.INT_MAX; lia)) as F.
    destruct (Flt.float_of_int Y) as [sa| | |sa ma ea]; try discriminate;
      eexists; reflexivity. }
  destruct E1 as [s' E1]. unfold blend. rewrite E1.
  pose proof (below_256
    (fun D => forallb (fun s' => forallb (fun s =>
       match Int.uint8_of_float
               (Flt.fadd (S754_zero s')
                  (Flt.fmul (Flt.float_of_int D)
                     (Flt.fsub (Flt.float_of_int 1) (S754_zero s)))) with
       | Some v => v =? D
       | None => false
       end) [true; false]) [true; false]) ltac:(vm_compute; reflexivity) D HD) as E.
  cbv beta in E. cbn [forallb] in E.
  rewrite !andb_true_r in E.
  apply andb_true_iff in E as [Et Ef].
  apply andb_true_iff in Et as [Ea Eb]. apply andb_true_iff in Ef as [Ec Ed].
  destruct s, s';
    match goal with
    | H : match ?t with _ => _ end = true |- ?t = _ =>
        destruct t as [v|]; [apply Z.eqb_eq in H; congruence|discriminate]
    end.
Qed.

Lemma load_lookup m a v : load m a = Some v -> m !! Z.to_nat a = Some v.
Proof. unfold load. destruct (a <? 0); [discriminate|auto]. Qed.

Lemma store_same m a v m' : load m a = Some v -> store m a v = Some m' -> m' = m.
Proof.
  intros Hl Hs. apply store_Some in Hs as [-> _]. apply list_insert_id, load_lookup, Hl.
Qed.

(** A row whose every blend value is a zero leaves the frame as it is. *)
Lemma composite_row_inert n : forall weight src alpha p z q dest dest',
  bytes src -> bytes dest ->
  (forall z a, match alpha with None => Some 255 | Some m => load m z end = Some a ->
     (exists s, blend_value weight a = S754_zero s) \/ blend_value weight a = S754_nan) ->
  composite_row n weight src alpha p z q dest = Some dest' ->
  dest' = dest.
Proof.
  induction n as [|n IH]; intros weight src alpha p z q dest dest' Bs Bd Hv H;
    cbn [composite_row] in H.
  { injection H as <-. reflexivity. }
  apply bind_Some in H as (Y & HY & H). apply bind_Some in H as (UV & HUV & H).
  apply bind_Some in H as (a & Ha & H). apply bind_Some in H as (d & Hd & H).
  apply bind_Some in H as (v & Hb & H). apply bind_Some in H as (dest1 & H1 & H).
  apply bind_Some in H as (d' & Hd' & H). apply bind_Some in H as (v' & Hb' & H).
  apply bind_Some in H as (dest2 & H2 & H).
  pose proof (load_bytes _ _ _ Bs HY) as BY. pose proof (load_bytes _ _ _ Bs HUV) as BUV.
  pose proof (load_bytes _ _ _ Bd Hd) as BD.
  destruct (Hv z a Ha) as [[s Ez]|En].
  2:{ rewrite En, blend_nan in Hb. discriminate. }
  rewrite Ez in Hb, Hb'. rewrite blend_zero in Hb by assumption. injection Hb as <-.
  apply (store_same _ _ _ _ Hd) in H1. subst dest1.
  pose proof (load_bytes _ _ _ Bd Hd') as BD'.
  rewrite blend_zero in Hb' by assumption. injection Hb' as <-.
  apply (store_same _ _ _ _ Hd') in H2. subst dest2.
  exact (IH weight src alpha (p + 2) (z + 1) (q + 2) dest dest' Bs Bd Hv H).
Qed.

Lemma composite_rows_inert fuel height_src width_src step stride_src stride_dest weight src
    alpha p_src p_alpha p_dest : forall i dest dest',
  bytes src -> bytes dest ->
  (forall z a, match alpha with None => Some 255 | Some m => load m z end = Some a ->
     (exists s, blend_value weight a = S754_zero s) \/ blend_value weight a = S754_nan) ->
  composite_rows fuel i height_src width_src step stride_src stride_dest weight src alpha
    p_src p_alpha p_dest dest = Some dest' ->
  dest' = dest.
Proof.
  induction fuel as [|fuel IH]; intros i dest dest' Bs Bd Hv H; cbn [composite_rows] in H;
    destruct (i <? height_src); try discriminate; try (injection H as <-; reflexivity).
  apply bind_Some in H as (op & _ & H). apply bind_Some in H as (oq & _ & H).
  apply bind_Some in H as (oz & _ & H). apply bind_Some in H as (dest1 & H1 & H).
  apply bind_Some in H as (i' & _ & H).
  apply composite_row_inert in H1; try assumption. subst dest1.
  exact (IH i' dest dest' Bs Bd Hv H).
Qed.

(** X6: with a mix of zero, a blend that completes leaves the frame as it
    was, for every field and with or without a mask. *)
Theorem composite_yuv_zero_mix p_dest width_dest height_dest p_src width_src height_src
    p_alpha geometry field r dest' :
  Flt.is_zero (G.mix geometry) = true ->
  bytes p_dest -> bytes p_src ->
  match p_alpha with Some m => bytes m | None => True end ->
  composite_yuv p_dest width_dest height_dest p_src width_src height_src p_alpha geometry
    field = Some (r, dest') ->
  dest' = p_dest.
Proof.
  intros Hz Bd Bs Ba H. apply composite_yuv_inv in H as (_ & x0 & x & y & _ & _ & _ & H).
  destruct H as [->|(x_src & w' & y_src & h' & o_src & o_alpha & _ & _ & H)]; [auto|].
  apply composite_rows_inert in H; try assumption.
  intros z a Ha. left.
  destruct (G.mix geometry) as [s| | |]; try discriminate.
  change (Flt.fdiv (S754_zero s) (Flt.float_of_int 100)) with (S754_zero (xorb s false)).
  apply blend_value_zero_weight.
  destruct p_alpha as [m|]; [eapply load_bytes; eauto|]. injection Ha as <-. lia.
Qed.

(** X7: with a mask that is 0 at every pixel, a blend that completes
    leaves the frame as it was, whatever the mix and the field are. *)
Theorem composite_yuv_transparent p_dest width_dest height_dest p_src width_src height_src
    mask geometry field r dest' :
  Forall (fun a => a = 0) mask ->
  bytes p_dest -> bytes p_src ->
  composite_yuv p_dest width_dest height_dest p_src width_src height_src (Some mask)
    geometry field = Some (r, dest') ->
  dest' = p_dest.
Proof.
  intros Hm Bd Bs H. apply composite_yuv_inv in H as (_ & x0 & x & y & _ & _ & _ & H).
  destruct H as [->|(x_src & w' & y_src & h' & o_src & o_alpha & _ & _ & H)]; [auto|].
  apply composite_rows_inert in H; try assumption.
  intros z a Ha. unfold load in Ha. destruct (z <? 0); [discriminate|].
  rewrite Forall_lookup in Hm. rewrite (Hm _ _ Ha). apply blend_value_zero_alpha.
Qed.

Lemma composite_yuv_zero_mix_witness :
  exists dest', composite_yuv frame_2x2 2 2 overlay_2x2 2 2 None (box 2 2 0 0 2 2 0) (-1)
                = Some (0, dest')
    /\ dest' = frame_2x2.
Proof.
  eexists. split; [vm_compute; reflexivity|].
  refine (composite_yuv_zero_mix frame_2x2 2 2 overlay_2x2 2 2 None (box 2 2 0 0 2 2 0) (-1)
            0 _ eq_refl _ _ I _).
  - unfold bytes, frame_2x2. repeat constructor; lia.
  - unfold bytes, overlay_2x2. repeat constructor; lia.
  - vm_compute. reflexivity.
Defined.

Lemma composite_yuv_transparent_witness :
  exists dest', composite_yuv frame_2x2 2 2 overlay_2x2 2 2 (Some [0; 0; 0; 0])
                  (box 2 2 0 0 2 2 100) (-1) = Some (0, dest')
    /\ dest' = frame_2x2.
Proof.
  eexists. split; [vm_compute; reflexivity|].
  refine (composite_yuv_transparent frame_2x2 2 2 overlay_2x2 2 2 [0; 0; 0; 0]
            (box 2 2 0 0 2 2 100) (-1) 0 _ _ _ _ _).
  - repeat constructor.
  - unfold bytes, frame_2x2. repeat constructor; lia.
  - unfold bytes, overlay_2x2. repeat constructor; lia.
  - vm_compute. reflexivity.
Defined.

(** ** The frame outside the rectangle *)

Lemma pixel_in_row wd x' wn r i j c :
  0 < wd -> 0 <= x' -> x' + wn <= wd -> 0 <= j < wd -> 0 <= c <= 1 ->
  x' * 2 + r * (wd * 2) <= 2 * (i * wd + j) + c < x' * 2 + r * (wd * 2) + 2 * wn ->
  i = r /\ x' <= j < x' + wn.
Proof.
  intros Hwd Hx Hfit Hj Hc Hk.
  assert (i = r) by (destruct (Z.lt_trichotomy i r) as [Hlt|[Heq|Hgt]]; [nia|assumption|nia]).
  subst i. lia.
Qed.

(** X8: a progressive blend that completes changes no sample outside the
    overlay's rectangle: at row [i] and column [j] of the frame, with
    [(i, j)] not within rows [max 0 y .. y + height_src - 1] and columns
    [max 0 x .. x + width_src - 1], luma and chroma are what they were.
    An overlay that starts off the left edge must end within the frame's
    width, since no crop is made on the right then. *)
Theorem composite_yuv_outside p_dest width_dest height_dest p_src width_src height_src
    p_alpha geometry x0 x y r dest' :
  0 < width_dest -> bytes p_dest ->
  consumer_scale (G.x geometry) width_dest (G.nw geometry) = Some x0 ->
  even_down x0 = Some x ->
  consumer_scale (G.y geometry) height_dest (G.nh geometry) = Some y ->
  (x < 0 -> x + width_src <= width_dest) ->
  composite_yuv p_dest width_dest height_dest p_src width_src height_src p_alpha geometry
    (-1) = Some (r, dest') ->
  forall i j,
    0 <= j < width_dest ->
    ~ (Z.max 0 y <= i < y + height_src /\ Z.max 0 x <= j < x + width_src) ->
    load dest' (2 * (i * width_dest + j)) = load p_dest (2 * (i * width_dest + j))
    /\ load dest' (2 * (i * width_dest + j) + 1)
       = load p_dest (2 * (i * width_dest + j) + 1).
Proof.
  intros Hwd Bd Hx0 Hx Hy Lx H i j Hj Hout.
  apply composite_yuv_inv in H as (_ & x0' & x' & y' & Ex0 & Ey & Ex & H).
  rewrite Hx0 in Ex0. injection Ex0 as <-. rewrite Hy in Ey. injection Ey as <-.
  rewrite Hx in Ex. injection Ex as <-.
  destruct H as [->|(x_src & w' & y_src & h' & o_src & o_alpha & Cx & Cy & H)]; [auto|].
  change (-1 =? 1) with false in H. change (-1 >? -1) with false in H.
  cbn [andb] in H. cbv zeta in H.
  apply composite_rows_frame in H as (_ & _ & Out); [|assumption|lia|lia].
  apply crop_inv in Cx as (_ & Wx & Px & Nx). apply crop_inv in Cy as (_ & Wy & Py & Ny).
  assert (Hrow : forall c, 0 <= c <= 1 ->
            forall n, 0 <= n -> 0 + n * 1 < h' ->
              ~ (Z.max 0 x * 2 + Z.max 0 y * (width_dest * 2)
                 + (0 + n * 1) * (width_dest * 2) <= 2 * (i * width_dest + j) + c
                 < Z.max 0 x * 2 + Z.max 0 y * (width_dest * 2)
                   + (0 + n * 1) * (width_dest * 2) + 2 * Z.of_nat (Z.to_nat w'))).
  { intros c Hc n Hn Hr Hk. apply Hout.
    destruct (Z_le_gt_dec w' 0) as [Hw|Hw].
    { replace (Z.of_nat (Z.to_nat w')) with 0 in Hk by lia. lia. }
    replace (Z.of_nat (Z.to_nat w')) with w' in Hk by lia.
    destruct (pixel_in_row width_dest (Z.max 0 x) w' (Z.max 0 y + n) i j c) as [Ei Ej];
      try assumption; try lia. }
  split.
  - replace (2 * (i * width_dest + j)) with (2 * (i * width_dest + j) + 0) by lia.
    apply Out. apply Hrow. lia.
  - apply Out. apply Hrow. lia.
Qed.

Lemma composite_yuv_outside_witness :
  exists dest', composite_yuv frame_2x4 2 4 overlay_2x2 2 2 None (box 2 4 0 1 2 2 100) (-1)
                = Some (0, dest')
    /\ load dest' 12 = Some 40.
Proof.
  eexists. split; [vm_compute; reflexivity|].
  refine (proj1 (composite_yuv_outside frame_2x4 2 4 overlay_2x2 2 2 None
                   (box 2 4 0 1 2 2 100) 0 0 1 0 _ _ _ _ _ _ _ _ 3 0 _ _)).
  - lia.
  - unfold bytes, frame_2x4. repeat constructor; lia.
  - vm_compute. reflexivity.
  - vm_compute. reflexivity.
  - vm_compute. reflexivity.
  - lia.
  - vm_compute. reflexivity.
  - lia.
  - lia.
Defined.

(** ** Requests to the frame supplier *)

(** The b frame as [get_b_frame_image] marks it. *)
Lemma get_b_frame_image_inv this b_frame width height geometry r :
  get_b_frame_image this b_frame width height geometry = Some r ->
  let marked :=
    Mlt.with_properties (Mlt.set (Mlt.frame_properties b_frame) "distort" "true") b_frame in
  exists g w h,
    negotiate (Mlt.transition_properties this) b_frame geometry = Some g
    /\ scale_size (G.sw (alignment_calculate g)) width (G.nw (alignment_calculate g)) = Some w
    /\ scale_size (G.sh (alignment_calculate g)) height (G.nh (alignment_calculate g)) = Some h
    /\ (r = mk_b_image 1 marked None w h (alignment_calculate g)
        \/ 0 < w /\ 0 < h
           /\ r = mk_b_image (Mlt.supply b_frame w h).1.1.1
                    (Mlt.mk_frame (Mlt.frame_properties marked) (Mlt.frame_position b_frame)
                       (Mlt.aspect_ratio b_frame) (Mlt.alpha_mask b_frame)
                       (Mlt.supply b_frame) ((w, h) :: Mlt.requests b_frame))
                    (Some (Mlt.supply b_frame w h).1.1.2)
                    (Mlt.supply b_frame w h).1.2 (Mlt.supply b_frame w h).2
                    (alignment_calculate g)).
Proof.
  unfold get_b_frame_image. intros H.
  apply bind_Some in H as (g & Hg & H). apply bind_Some in H as (x0 & _ & H).
  apply bind_Some in H as (y & _ & H). apply bind_Some in H as (w & Hw & H).
  apply bind_Some in H as (h & Hh & H). apply bind_Some in H as (x & _ & H).
  exists g, w, h. do 3 (split; [assumption|]).
  destruct (Z.leb_spec w 0) as [W|W]; [injection H as <-; left; reflexivity|].
  destruct (Z.leb_spec h 0) as [H'|H']; [injection H as <-; left; reflexivity|].
  cbn [orb] in H.
  apply bind_Some in H as (ox & _ & H). apply bind_Some in H as (oy & _ & H).
  destruct oy; [injection H as <-; left; reflexivity|].
  right. split; [assumption|]. split; [assumption|].
  unfold Mlt.frame_get_image in H. cbn in H.
  destruct (Mlt.supply b_frame w h) as [[[ret image] w'] h'] eqn:E.
  injection H as <-. reflexivity.
Qed.

(** X9: on every path [get_b_frame_image] marks the b frame with
    [distort = "true"].  It makes at most one buffer request to the b
    frame, and that request has a positive width and height; without a
    request the status is 1 and there is no buffer, with one the status
    and the buffer are the supplier's. *)
Theorem get_b_frame_image_requests (this : Mlt.transition) (b_frame : Mlt.frame)
    (width height : Z) (geometry : geometry_s) (r : b_image) :
  get_b_frame_image this b_frame width height geometry = Some r ->
  Mlt.get (Mlt.frame_properties (b_frame' r)) "distort" = Some "true"
  /\ (Mlt.requests (b_frame' r) = Mlt.requests b_frame /\ b_ret r = 1 /\ b_buffer r = None
      \/ exists w h, 0 < w /\ 0 < h
           /\ Mlt.requests (b_frame' r) = (w, h) :: Mlt.requests b_frame
           /\ b_ret r = (Mlt.supply b_frame w h).1.1.1
           /\ b_buffer r = Some (Mlt.supply b_frame w h).1.1.2).
Proof.
  intros H. apply get_b_frame_image_inv in H as (g & w & h & _ & _ & _ & H). cbv zeta in H.
  destruct H as [->|(Hw & Hh & ->)]; cbn [b_frame' b_ret b_buffer].
  - split; [apply get_set|]. left. auto.
  - split; [apply get_set|]. right. exists w, h. cbn. auto.
Qed.

Lemma get_b_frame_image_requests_witness :
  exists r, get_b_frame_image distorting white_overlay 4 4 (box 4 4 0 0 2 2 100) = Some r
    /\ Mlt.get (Mlt.frame_properties (b_frame' r)) "distort" = Some "true".
Proof.
  eexists. split; [vm_compute; reflexivity|].
  refine (proj1 (get_b_frame_image_requests distorting white_overlay 4 4
                   (box 4 4 0 0 2 2 100) _ _)).
  vm_compute. reflexivity.
Defined.

(** ** The status and the frames of [transition_get_image] *)

(** What a completed call went through when there is a b frame. *)
Lemma transition_get_image_inv this a_frame b_frame width height result start end_ c :
  transition_get_image this a_frame (Some b_frame) width height result start end_ = Some c ->
  let a_props := Mlt.frame_properties a_frame in
  let forwarded :=
    Mlt.with_properties
      (Mlt.set_double
         (Mlt.set_double (Mlt.frame_properties b_frame) "consumer_aspect_ratio"
            (Mlt.get_double a_props "consumer_aspect_ratio"))
         "consumer_scale" (Mlt.get_double a_props "consumer_scale"))
      b_frame in
  exists g b,
    get_b_frame_image this forwarded (Mlt.supply a_frame width height).1.2
      (Mlt.supply a_frame width height).2 g = Some b
    /\ c_ret c = 0
    /\ c_width c = (Mlt.supply a_frame width height).1.2
    /\ c_height c = (Mlt.supply a_frame width height).2
    /\ Mlt.requests (c_a_frame c) = (width, height) :: Mlt.requests a_frame
    /\ c_b_frame c = Some (b_frame' b)
    /\ (b_ret b <> 0 \/ b_buffer b = None ->
        c_image c = (Mlt.supply a_frame width height).1.1.2)
    /\ (forall image_b, b_ret b = 0 -> b_buffer b = Some image_b ->
        exists start' end' position delta progressive g',
          field_loop
            (field_pass start' end' position delta progressive
               (Mlt.supply a_frame width height).1.2 (Mlt.supply a_frame width height).2
               image_b (b_width b) (b_height b) (Mlt.alpha_mask (b_frame' b)))
            (if progressive : bool then [0] else [0; 1])
            (b_geometry b, (Mlt.supply a_frame width height).1.1.2)
          = Some (g', c_image c)).
Proof.
  unfold transition_get_image, Mlt.frame_get_image.
  destruct (Mlt.supply a_frame width height) as [[[ret image] w] h] eqn:E. cbn.
  intros H.
  apply bind_Some in H as (position & _ & H). apply bind_Some in H as (delta & _ & H).
  apply bind_Some in H as (start' & _ & H). apply bind_Some in H as (end' & _ & H).
  apply bind_Some in H as (ha & _ & H). apply bind_Some in H as (va & _ & H).
  apply bind_Some in H as (b & Hb & H).
  eexists. exists b. split; [exact Hb|].
  destruct (Z.eqb_spec (b_ret b) 0) as [R|R]; destruct (b_buffer b) as [image_b|] eqn:B;
    try (injection H as <-; cbn; repeat split; auto;
         solve [intros; congruence | intros; discriminate]).
  apply bind_Some in H as ([g' image'] & Hl & H). injection H as <-. cbn.
  repeat split; auto.
  - intros [?|?]; [contradiction|discriminate].
  - intros image_b' _ Eb. injection Eb as <-.
    eexists. eexists. eexists. eexists. eexists. eexists. exact Hl.
Qed.

Lemma field_loop_shape start end_ position delta progressive width height image_b width_b
    height_b alpha fields : forall g image g' image',
  bytes image ->
  field_loop (field_pass start end_ position delta progressive width height image_b width_b
                height_b alpha) fields (g, image) = Some (g', image') ->
  length image' = length image /\ bytes image'.
Proof.
  induction fields as [|field rest IH]; intros g image g' image' B H; cbn [field_loop] in H.
  { injection H as <- <-. auto. }
  apply bind_Some in H as ([g1 image1] & H1 & H).
  unfold field_pass in H1. apply bind_Some in H1 as ([r d] & Hc & H1). injection H1 as <- <-.
  apply composite_yuv_shape in Hc as (_ & L & B1); [|assumption].
  apply IH in H as (L' & B'); [|assumption]. split; [congruence|assumption].
Qed.

(** X10: whenever [transition_get_image] completes, its status is 0, the
    size returned is the one the a frame's supplier stated, the a frame
    was asked exactly once, for the size passed in, and the image has the
    length of the a frame's buffer and consists of bytes. *)
Theorem transition_get_image_status (this : Mlt.transition) (a_frame : Mlt.frame)
    (b_frame : option Mlt.frame) (width height : Z) (result start end_ : geometry_s)
    (c : composited) :
  bytes (Mlt.supply a_frame width height).1.1.2 ->
  transition_get_image this a_frame b_frame width height result start end_ = Some c ->
  c_ret c = 0
  /\ c_width c = (Mlt.supply a_frame width height).1.2
  /\ c_height c = (Mlt.supply a_frame width height).2
  /\ Mlt.requests (c_a_frame c) = (width, height) :: Mlt.requests a_frame
  /\ length (c_image c) = length (Mlt.supply a_frame width height).1.1.2
  /\ bytes (c_image c).
Proof.
  intros B H. destruct b_frame as [b_frame|].
  - apply transition_get_image_inv in H
      as (g & b & _ & Hr & Hw & Hh & Hq & _ & Hfail & Hok). cbv zeta in *.
    do 4 (split; [assumption|]).
    destruct (Z.eq_dec (b_ret b) 0) as [R|R]; [|rewrite Hfail by auto; auto].
    destruct (b_buffer b) as [image_b|] eqn:Eb; [|rewrite Hfail by auto; auto].
    destruct (Hok image_b R eq_refl) as (s' & e' & p & d & pr & g' & Hl).
    apply field_loop_shape in Hl; assumption.
  - unfold transition_get_image, Mlt.frame_get_image in H.
    destruct (Mlt.supply a_frame width height) as [[[ret image] w] h]. injection H as <-.
    cbn in *. repeat split; auto.
Qed.

(** X11: without a b frame, or with a b frame whose supplier reports a
    failure for every size, the image returned is the a frame's image as
    supplied and the status is still 0: the failure is not reported. *)
Theorem transition_get_image_without_overlay (this : Mlt.transition) (a_frame : Mlt.frame)
    (b_frame : option Mlt.frame) (width height : Z) (result start end_ : geometry_s)
    (c : composited) :
  match b_frame with
  | Some b => forall w h, (Mlt.supply b w h).1.1.1 <> 0
  | None => True
  end ->
  transition_get_image this a_frame b_frame width height result start end_ = Some c ->
  c_ret c = 0 /\ c_image c = (Mlt.supply a_frame width height).1.1.2.
Proof.
  intros Hb H. destruct b_frame as [b_frame|].
  - apply transition_get_image_inv in H
      as (g & b & Hg & Hr & _ & _ & _ & _ & Hfail & _). cbv zeta in *.
    split; [assumption|]. apply Hfail.
    apply get_b_frame_image_inv in Hg as (g1 & w & h & _ & _ & _ & Hg). cbv zeta in Hg.
    destruct Hg as [->|(_ & _ & ->)]; cbn [b_ret b_buffer]; [right; reflexivity|].
    left. apply Hb.
  - unfold transition_get_image, Mlt.frame_get_image in H.
    destruct (Mlt.supply a_frame width height) as [[[ret image] w] h]. injection H as <-.
    cbn. auto.
Qed.

(** X12: the b frame that [transition_get_image] leaves behind carries the
    a frame's [consumer_aspect_ratio] and [consumer_scale] and
    [distort = "true"], and was asked for at most one buffer, of positive
    width and height. *)
Theorem transition_get_image_forwards (this : Mlt.transition) (a_frame b_frame : Mlt.frame)
    (width height : Z) (result start end_ : geometry_s) (c : composited) :
  transition_get_image this a_frame (Some b_frame) width height result start end_ = Some c ->
  exists b', c_b_frame c = Some b'
    /\ Mlt.get_double (Mlt.frame_properties b') "consumer_aspect_ratio"
       = Mlt.get_double (Mlt.frame_properties a_frame) "consumer_aspect_ratio"
    /\ Mlt.get_double (Mlt.frame_properties b') "consumer_scale"
       = Mlt.get_double (Mlt.frame_properties a_frame) "consumer_scale"
    /\ Mlt.get (Mlt.frame_properties b') "distort" = Some "true"
    /\ (Mlt.requests b' = Mlt.requests b_frame
        \/ exists w h, 0 < w /\ 0 < h /\ Mlt.requests b' = (w, h) :: Mlt.requests b_frame).
Proof.
  intros H. apply transition_get_image_inv in H
    as (g & b & Hg & _ & _ & _ & _ & Hb & _). cbv zeta in *.
  exists (b_frame' b). split; [assumption|].
  apply get_b_frame_image_inv in Hg as (g1 & w & h & _ & _ & _ & Hg). cbv zeta in Hg.
  assert (E1 : forall p v1 v2,
            Mlt.get_double (Mlt.set (Mlt.set_double (Mlt.set_double p "consumer_aspect_ratio" v1)
                                       "consumer_scale" v2) "distort" "true")
              "consumer_aspect_ratio" = v1).
  { intros p v1 v2. unfold Mlt.get_double, Mlt.set, Mlt.set_double. cbn.
    rewrite lookup_insert_ne by discriminate. rewrite lookup_insert. reflexivity. }
  assert (E2 : forall p v1 v2,
            Mlt.get_double (Mlt.set (Mlt.set_double (Mlt.set_double p "consumer_aspect_ratio" v1)
                                       "consumer_scale" v2) "distort" "true")
              "consumer_scale" = v2).
  { intros p v1 v2. unfold Mlt.get_double, Mlt.set, Mlt.set_double. cbn.
    rewrite lookup_insert. reflexivity. }
  destruct Hg as [->|(Hw & Hh & ->)]; cbn [b_frame' Mlt.with_properties Mlt.frame_properties
                                           Mlt.requests].
  - rewrite E1, E2, get_set. auto.
  - rewrite E1, E2, get_set. repeat split; auto. right. exists w, h. auto.
Qed.

Lemma transition_get_image_status_witness :
  exists c, transition_get_image (transition_on "0,0:50%x50%") (base_4x4 1)
              (Some white_overlay) 4 4 junk junk junk = Some c
    /\ c_ret c = 0 /\ length (c_image c) = 32%nat.
Proof.
  eexists. split; [vm_compute; reflexivity|].
  refine (let H := transition_get_image_status (transition_on "0,0:50%x50%") (base_4x4 1)
                     (Some white_overlay) 4 4 junk junk junk _ _ _ in
          conj (proj1 H) (proj1 (proj2 (proj2 (proj2 (proj2 H)))))).
  - apply Forall_replicate. lia.
  - vm_compute. reflexivity.
Defined.

Lemma transition_get_image_without_overlay_witness :
  exists c, transition_get_image (transition_on "0,0:50%x50%") (base_4x4 1)
              (Some failing_overlay) 4 4 junk junk junk = Some c
    /\ c_ret c = 0 /\ c_image c = replicate 32 16.
Proof.
  eexists. split; [vm_compute; reflexivity|].
  refine (transition_get_image_without_overlay (transition_on "0,0:50%x50%") (base_4x4 1)
            (Some failing_overlay) 4 4 junk junk junk _ _ _).
  - intros w h. discriminate.
  - vm_compute. reflexivity.
Defined.

Lemma transition_get_image_forwards_witness :
  exists b', Mlt.get_double (Mlt.frame_properties b') "consumer_aspect_ratio" = Flt.d1_0
    /\ Mlt.get (Mlt.frame_properties b') "distort" = Some "true".
Proof.
  destruct (transition_get_image_forwards (transition_on "0,0:50%x50%") (base_4x4 1)
              white_overlay 4 4 junk junk junk _ ltac:(vm_compute; reflexivity))
    as (b' & _ & H1 & _ & H2 & _).
  exists b'. split; [exact H1|exact H2].
Defined.

(** ** An interval of no frames *)

Lemma of_float_not_finite x : Flt.is_finite x = false -> Int.of_float x = None.
Proof. destruct x; try discriminate; reflexivity. Qed.

Lemma lerp_not_finite a b t :
  Flt.is_finite t = false -> Flt.is_finite (Spec.lerp a b t) = false.
Proof.
  unfold Spec.lerp, Flt.fadd, Flt.fmul.
  destruct t as [|[]| |]; try discriminate; intros _;
    destruct (Flt.fsub b a) as [[]|[]| |[]]; destruct a as [[]|[]| |[]]; reflexivity.
Qed.

Lemma position_calculate_empty_interval this frame p :
  Mlt.t_out this = Mlt.t_in this - 1 ->
  position_calculate this frame = Some p -> Flt.is_finite p = false.
Proof.
  unfold position_calculate. intros E H. rewrite E in H.
  apply bind_Some in H as (a & _ & H). unfold Int.sub, Int.add in H.
  replace (Mlt.t_in this - 1 - Mlt.t_in this) with (-1) in H by lia.
  change (Int.chk (-1)) with (Some (-1)) in H. cbn [mbind option_bind] in H.
  change (Int.chk (-1 + 1)) with (Some 0) in H. cbn [mbind option_bind] in H.
  injection H as <-. change (Flt.float_of_int 0) with (S754_zero false).
  destruct (Flt.float_of_int a); reflexivity.
Qed.

Lemma get_b_frame_image_not_finite this b_frame width height geometry :
  Flt.is_finite (G.w geometry) = false ->
  get_b_frame_image this b_frame width height geometry = None.
Proof.
  intros H. unfold get_b_frame_image, negotiate. rewrite of_float_not_finite by assumption.
  reflexivity.
Qed.

(** X13: a transition whose [out] is [in - 1] has an interval of no
    frames: the position is a division by zero, the interpolated width is
    an infinity or a NaN, and its conversion to [int] is undefined, so
    [transition_get_image] has no defined result when there is a b
    frame. *)
Theorem transition_get_image_empty_interval (this : Mlt.transition) (a_frame b_frame : Mlt.frame)
    (width height : Z) (result start end_ : geometry_s) :
  Mlt.t_out this = Mlt.t_in this - 1 ->
  transition_get_image this a_frame (Some b_frame) width height result start end_ = None.
Proof.
  intros E. unfold transition_get_image, Mlt.frame_get_image.
  destruct (Mlt.supply a_frame width height) as [[[ret image] w] h].
  match goal with
  | |- context [position_calculate this ?f] =>
      destruct (position_calculate this f) as [p|] eqn:P; [|reflexivity]
  end.
  apply position_calculate_empty_interval in P; [|assumption].
  cbn [mbind option_bind].
  match goal with |- context [delta_calculate this ?f] =>
    destruct (delta_calculate this f) as [d|]; [|reflexivity] end.
  cbn [mbind option_bind].
  match goal with |- context [geometry_parse start None ?s ?nw ?nh] =>
    destruct (geometry_parse start None s nw nh) as [start'|]; [|reflexivity] end.
  cbn [mbind option_bind].
  match goal with |- context [geometry_parse end_ ?d ?s ?nw ?nh] =>
    destruct (geometry_parse end_ d s nw nh) as [end'|]; [|reflexivity] end.
  cbn [mbind option_bind].
  match goal with |- context [alignment_parse ?s] =>
    destruct (alignment_parse s) as [ha|]; [|reflexivity] end.
  cbn [mbind option_bind].
  match goal with |- context [alignment_parse ?s] =>
    destruct (alignment_parse s) as [va|]; [|reflexivity] end.
  cbn [mbind option_bind].
  rewrite get_b_frame_image_not_finite; [reflexivity|].
  rewrite geometry_calculate_spec. cbn [Spec.interpolate G.w].
  apply lerp_not_finite. assumption.
Qed.

Lemma transition_get_image_empty_interval_witness :
  transition_get_image (Mlt.mk_transition 5 4 Mlt.no_properties None) plain_frame
    (Some plain_frame) 4 4 junk junk junk = None.
Proof.
  apply (transition_get_image_empty_interval (Mlt.mk_transition 5 4 Mlt.no_properties None)
           plain_frame plain_frame 4 4 junk junk junk).
  reflexivity.
Defined.

(** ** The first frame of the interval *)

Lemma float_of_int_positive n :
  0 < n < 2 ^ 24 -> exists m e, Flt.float_of_int n = S754_finite false m e.
Proof.
  intros H. destruct (float_of_int_exact n ltac:(lia)) as [T _].
  destruct (Flt.float_of_int n) as [s|s| |s m e]; cbn in T; try discriminate.
  - injection T as T. lia.
  - destruct s; [|eauto]. injection T as T.
    assert (P : 0 <= (if 0 <=? e then Z.pos m * 2 ^ e else Z.pos m / 2 ^ (- e))).
    { destruct (Z.leb_spec 0 e) as [He|He].
      - pose proof (Z.pow_nonneg 2 e ltac:(lia)). nia.
      - apply Z.div_pos; [lia|]. apply Z.pow_pos_nonneg; lia. }
    lia.
Qed.

(** X14: at the first frame of a transition of up to [2 ^ 24 - 1] frames
    the position is exactly 0. *)
Theorem position_calculate_first_frame (this : Mlt.transition) (frame : Mlt.frame) :
  Mlt.frame_position frame = Mlt.t_in this ->
  0 <= Mlt.t_out this - Mlt.t_in this < 2 ^ 24 - 1 ->
  position_calculate this frame = Some (S754_zero false).
Proof.
  intros Hp Hl. unfold position_calculate, Int.sub, Int.add. rewrite Hp, Z.sub_diag.
  change (Int.chk 0) with (Some 0). cbn [mbind option_bind].
  change (2 ^ 24) with 16777216 in Hl.
  rewrite small_in_range by (change (2 ^ 30) with 1073741824; lia). cbn [mbind option_bind].
  rewrite small_in_range by (change (2 ^ 30) with 1073741824; lia). cbn [mbind option_bind].
  destruct (float_of_int_positive (Mlt.t_out this - Mlt.t_in this + 1)) as (m & e & ->).
  { change (2 ^ 24) with 16777216. lia. }
  reflexivity.
Qed.

Lemma position_calculate_first_frame_witness :
  position_calculate (transition_on "0,0:50%x50%") (base_4x4 1) = Some (S754_zero false).
Proof.
  apply (position_calculate_first_frame (transition_on "0,0:50%x50%") (base_4x4 1)).
  - reflexivity.
  - cbn. lia.
Defined.

Lemma lerp_zero a b :
  Flt.is_finite (Flt.fsub b a) = true -> a <> S754_zero true ->
  Spec.lerp a b (S754_zero false) = a.
Proof.
  unfold Spec.lerp. intros F Z.
  destruct (Flt.fsub b a) as [[]| | |[] m e]; try discriminate;
    destruct a as [[]| | |]; try reflexivity; congruence.
Qed.

Lemma add_half_lerp_zero a b :
  Flt.is_finite (Flt.fsub b a) = true ->
  Spec.add_half (Spec.lerp a b (S754_zero false)) = Spec.add_half a.
Proof.
  unfold Spec.lerp. intros F.
  destruct (Flt.fsub b a) as [[]| | |[] m e]; try discriminate;
    destruct a as [[]| | |]; reflexivity.
Qed.

(** X15: at position 0 the calculated geometry is the start geometry, with
    the 0.5 bias on [x] and [y], whatever the end geometry is, as long as
    the differences between end and start are finite (and the start has
    no negative zero in [w], [h] or [mix]). *)
Theorem geometry_calculate_at_start (output start end_ : geometry_s) :
  Flt.is_finite (Flt.fsub (G.x end_) (G.x start)) = true ->
  Flt.is_finite (Flt.fsub (G.y end_) (G.y start)) = true ->
  Flt.is_finite (Flt.fsub (G.w end_) (G.w start)) = true ->
  Flt.is_finite (Flt.fsub (G.h end_) (G.h start)) = true ->
  Flt.is_finite (Flt.fsub (G.mix end_) (G.mix start)) = true ->
  G.w start <> S754_zero true -> G.h start <> S754_zero true ->
  G.mix start <> S754_zero true ->
  geometry_calculate output start end_ (S754_zero false)
  = G.mk (G.nw start) (G.nh start) (G.sw output) (G.sh output)
      (Spec.add_half (G.x start)) (Spec.add_half (G.y start))
      (G.w start) (G.h start) (G.mix start) (G.halign output) (G.valign output).
Proof.
  intros Fx Fy Fw Fh Fm Zw Zh Zm. rewrite geometry_calculate_spec. unfold Spec.interpolate.
  rewrite !add_half_lerp_zero by assumption. rewrite !lerp_zero by assumption. reflexivity.
Qed.

Lemma geometry_calculate_at_start_witness :
  G.w (geometry_calculate junk (box 100 100 10 20 30 40 100) (box 100 100 50 60 70 80 0)
         (S754_zero false)) = Flt.float_of_int 30.
Proof.
  rewrite (geometry_calculate_at_start junk (box 100 100 10 20 30 40 100)
             (box 100 100 50 60 70 80 0));
    try reflexivity; vm_compute; discriminate.
Defined.

(** ** Left and top alignment *)

Lemma align_offset_left full scaled :
  Flt.is_finite (Flt.fsub full (Flt.float_of_int scaled)) = true ->
  Flt.is_zero (align_offset full scaled 0) = true.
Proof.
  unfold align_offset. change (Flt.float_of_int 0) with (S754_zero false).
  destruct (Flt.fsub full (Flt.float_of_int scaled)) as [[]| | |[] m e]; try discriminate;
    reflexivity.
Qed.

(** X16: with left and top alignment ([halign = 0], [valign = 0]) the
    unused space is not distributed, however large it is: the adjustment
    adds the 0.5 bias to [x] and [y] and changes nothing else. *)
Theorem alignment_calculate_left_top (g : geometry_s) :
  G.halign g = 0 -> G.valign g = 0 ->
  Flt.is_finite (Flt.fsub (G.w g) (Flt.float_of_int (G.sw g))) = true ->
  Flt.is_finite (Flt.fsub (G.h g) (Flt.float_of_int (G.sh g))) = true ->
  alignment_calculate g
  = G.with_y (Spec.add_half (G.y g)) (G.with_x (Spec.add_half (G.x g)) g).
Proof.
  intros Hh Hv Fw Fh. unfold alignment_calculate. cbn. rewrite Hh, Hv.
  rewrite !add_biased_zero by (apply align_offset_left; assumption). reflexivity.
Qed.

Lemma alignment_calculate_left_top_witness :
  let g := G.mk 100 100 5 5 (Flt.float_of_int 10) (Flt.float_of_int 20)
             (Flt.float_of_int 50) (Flt.float_of_int 40) (Flt.float_of_int 100) 0 0 in
  alignment_calculate g
  = G.with_y (Spec.add_half (G.y g)) (G.with_x (Spec.add_half (G.x g)) g).
Proof.
  cbv zeta. apply alignment_calculate_left_top; reflexivity.
Defined.

(** ** Numerals *)

Ltac each_digit d H :=
  assert (d = 0 \/ d = 1 \/ d = 2 \/ d = 3 \/ d = 4 \/ d = 5 \/ d = 6 \/ d = 7 \/ d = 8
          \/ d = 9) as [->|[->|[->|[->|[->|[->|[->|[->|[->| ->]]]]]]]]] by lia.

Lemma digit_val_digit_char d : 0 <= d <= 9 -> Libc.digit_val (digit_char d) = Some d.
Proof. intros H. each_digit d H; reflexivity. Qed.

Lemma append_nil s : String.append EmptyString s = s.
Proof. reflexivity. Qed.

Lemma append_cons c s r : String.append (String c s) r = String c (String.append s r).
Proof. reflexivity. Qed.

Lemma span_num_numeral ds : forall rest acc cnt,
  digits ds ->
  match rest with String c _ => Libc.digit_val c = None | EmptyString => True end ->
  Libc.span_num Libc.digit_val 10 (String.append (numeral ds) rest) acc cnt
  = (fold_left (fun acc d => acc * 10 + d) ds acc, cnt + Z.of_nat (length ds), rest).
Proof.
  induction ds as [|d ds IH]; intros rest acc cnt Hd Hr.
  - cbn [numeral fold_left length]. rewrite append_nil, Z.add_0_r.
    destruct rest as [|c r]; [reflexivity|]. cbn [Libc.span_num]. rewrite Hr. reflexivity.
  - apply Forall_cons in Hd as [H0 Hd].
    cbn [numeral fold_left length]. rewrite append_cons. cbn [Libc.span_num].
    rewrite digit_val_digit_char by assumption. rewrite IH by assumption.
    f_equal. f_equal. lia.
Qed.

Lemma append_empty s : String.append s EmptyString = s.
Proof. induction s as [|c s IH]; [reflexivity|]. rewrite append_cons, IH. reflexivity. Qed.

Lemma atoi_numeral d ds :
  digits (d :: ds) -> Libc.atoi (numeral (d :: ds)) = Int.chk (decimal (d :: ds)).
Proof.
  intros Hd. pose proof Hd as Hd'. apply Forall_cons in Hd' as [H0 _].
  unfold Libc.atoi.
  assert (E : Libc.sign (Libc.skip_space (numeral (d :: ds)))
              = (false, numeral (d :: ds))).
  { cbn [numeral]. each_digit d H0; reflexivity. }
  rewrite E. rewrite <- (append_empty (numeral (d :: ds))).
  rewrite span_num_numeral by (assumption || exact I). reflexivity.
Qed.

(** X17: an alignment property that is a decimal numeral is taken at its
    value, whatever it is: it is not limited to 0, 1 and 2, and a value
    beyond [int] is undefined. *)
Theorem alignment_parse_number (ds : list Z) :
  ds <> [] -> digits ds ->
  alignment_parse (Some (numeral ds)) = Int.chk (decimal ds).
Proof.
  intros Hn Hd. destruct ds as [|d ds]; [congruence|].
  rewrite <- atoi_numeral by assumption.
  pose proof Hd as Hd'. apply Forall_cons in Hd' as [H0 _].
  unfold alignment_parse. cbn [numeral]. unfold Libc.isdigit.
  rewrite digit_val_digit_char by assumption. reflexivity.
Qed.

Lemma alignment_parse_number_witness : alignment_parse (Some "17") = Some 17.
Proof.
  apply (alignment_parse_number [1; 7]); [discriminate|].
  repeat constructor; lia.
Defined.

(** ** Integers through double and float *)

Lemma shr_1_even q :
  0 <= q ->
  shr_1 {| shr_m := 2 * q; shr_r := false; shr_s := false |}
  = {| shr_m := q; shr_r := false; shr_s := false |}.
Proof. destruct q as [|p|p]; [reflexivity|reflexivity|lia]. Qed.

Lemma iter_pos_shr_1_exact n : forall q,
  0 <= q ->
  SpecFloat.iter_pos shr_1 n {| shr_m := 2 ^ Z.pos n * q; shr_r := false; shr_s := false |}
  = {| shr_m := q; shr_r := false; shr_s := false |}.
Proof.
  induction n as [n IH|n IH|]; intros q Hq; cbn [SpecFloat.iter_pos].
  - assert (P : 0 < 2 ^ Z.pos n) by (apply Z.pow_pos_nonneg; lia).
    replace (2 ^ Z.pos n~1 * q) with (2 * (2 ^ Z.pos n * (2 ^ Z.pos n * q))).
    2:{ replace (Z.pos n~1) with (1 + Z.pos n + Z.pos n) by lia.
        rewrite !Z.pow_add_r by lia. change (2 ^ 1) with 2. lia. }
    rewrite shr_1_even by nia. rewrite IH by nia. apply IH. assumption.
  - assert (P : 0 < 2 ^ Z.pos n) by (apply Z.pow_pos_nonneg; lia).
    replace (2 ^ Z.pos n~0 * q) with (2 ^ Z.pos n * (2 ^ Z.pos n * q)).
    2:{ replace (Z.pos n~0) with (Z.pos n + Z.pos n) by lia.
        rewrite !Z.pow_add_r by lia. lia. }
    rewrite IH by nia. apply IH. assumption.
  - change (2 ^ 1) with 2. apply shr_1_even. assumption.
Qed.

(** An integer of at most [prec] bits is a value of the format, its
    mantissa shifted to [prec] bits. *)
Lemma binary_round_exact prec emax s p :
  0 < prec -> prec < emax -> 3 <= emax ->
  Z.pos (digits2_pos p) <= prec ->
  exists m,
    binary_round prec emax s p 0 = S754_finite s m (Z.pos (digits2_pos p) - prec)
    /\ Z.pos m = Z.pos p * 2 ^ (prec - Z.pos (digits2_pos p))
    /\ Z.pos (digits2_pos m) = prec.
Proof.
  intros Hprec Hemax H3 Hd. unfold binary_round.
  destruct (shl_align p 0 _) as [mz ez] eqn:E.
  pose proof (shl_align_spec _ _ _ _ _ E) as [Hz Hdz].
  assert (Hez : ez = Z.pos (digits2_pos p) - prec /\ Z.pos mz = Z.pos p * 2 ^ (- ez)).
  { revert E. unfold shl_align, fexp, emin.
    destruct (Z.max (Z.pos (digits2_pos p) + 0 - prec) (3 - emax - prec) - 0) as [|k|k] eqn:Ek;
      intros [= <- <-]; [split; [lia|simpl; lia] | lia |].
    split; [lia|]. rewrite iter_xO_pow. f_equal. f_equal. lia. }
  destruct Hez as [Hez Hm]. subst ez.
  exists mz. rewrite binary_round_aux_canonical.
  - split; [reflexivity|]. split; [|lia]. rewrite Hm. f_equal. f_equal. lia.
  - unfold fexp, emin. lia.
  - lia.
Qed.

(** A mantissa of 53 bits whose low 29 bits are zero narrows to float
    without loss. *)
Lemma binary_round_narrow s M Q e :
  Z.pos (digits2_pos M) = 53 -> Z.pos M = 2 ^ 29 * Z.pos Q ->
  -149 <= e + 29 <= 104 ->
  binary_round 24 128 s M e = S754_finite s Q (e + 29).
Proof.
  intros HdM HM He.
  assert (HdQ : Z.pos (digits2_pos Q) = 24).
  { pose proof (digits2_pos_iter_xO Q 29) as D.
    replace (Pos.iter xO Q 29) with M in D; [lia|].
    apply Pos2Z.inj. rewrite iter_xO_pow. lia. }
  unfold binary_round.
  assert (Ef : fexp 24 128 (Z.pos (digits2_pos M) + e) = e + 29)
    by (unfold fexp, emin; lia).
  rewrite Ef. unfold shl_align. replace (e + 29 - e) with 29 by lia.
  unfold binary_round_aux, shr_fexp. cbn [Zdigits2]. rewrite Ef.
  replace (e + 29 - e) with 29 by lia. cbn [shr shr_record_of_loc].
  rewrite HM. rewrite (iter_pos_shr_1_exact 29 (Z.pos Q)) by lia.
  cbn [shr_m loc_of_shr_record round_nearest_even Zdigits2].
  assert (Ef' : fexp 24 128 (Z.pos (digits2_pos Q) + (e + 29)) = e + 29)
    by (unfold fexp, emin; lia).
  rewrite Ef', Z.sub_diag. cbn [shr shr_record_of_loc shr_m].
  replace (e + 29 <=? 128 - 24) with true by (symmetry; apply Z.leb_le; lia).
  reflexivity.
Qed.

(** An integer below [2 ^ 24] goes through double to float unchanged. *)
Lemma to_float_double_of_int n :
  0 <= n < 2 ^ 24 -> Flt.to_float (Flt.double_of_int n) = Flt.float_of_int n.
Proof.
  intros Hn. unfold Flt.double_of_int, Flt.float_of_int, binary_normalize.
  destruct n as [|p|p]; [reflexivity| |lia].
  pose proof (digits2_pos_le p 24 ltac:(lia) ltac:(lia)) as Hd.
  destruct (binary_round_exact 53 1024 false p) as (M & -> & HM & HdM); try lia.
  destruct (binary_round_exact 24 128 false p) as (Q & -> & HQ & HdQ); try lia.
  unfold Flt.to_float, Flt.renorm.
  rewrite (binary_round_narrow false M Q); [f_equal; lia|assumption| |lia].
  rewrite HM, HQ.
  replace (53 - Z.pos (digits2_pos p)) with (29 + (24 - Z.pos (digits2_pos p))) by lia.
  rewrite Z.pow_add_r by lia. lia.
Qed.

(** ** Geometries of plain numbers *)

Lemma decimal_nonneg_from ds : forall acc,
  digits ds -> 0 <= acc -> 0 <= fold_left (fun acc d => acc * 10 + d) ds acc.
Proof.
  induction ds as [|d ds IH]; intros acc Hd Ha; [assumption|].
  apply Forall_cons in Hd as [H0 Hd]. cbn [fold_left]. apply IH; [assumption|lia].
Qed.

Lemma decimal_nonneg ds : digits ds -> 0 <= decimal ds.
Proof. intros H. apply decimal_nonneg_from; [assumption|lia]. Qed.

Lemma hex_float_numeral d ds rest :
  digits (d :: ds) -> delimited (d :: ds) rest ->
  Libc.hex_float false (String.append (numeral (d :: ds)) rest) = None.
Proof.
  intros Hd Hr. apply Forall_cons in Hd as [H0 Hd]. cbn [numeral]. rewrite append_cons.
  destruct (Z.eq_dec d 0) as [->|Hn]; [|each_digit d H0; try reflexivity; lia].
  destruct ds as [|d' ds].
  - cbn [numeral]. rewrite append_nil. destruct rest as [|c r]; [reflexivity|].
    destruct Hr as [[->|[->| ->]]|[_ Hx]]; try reflexivity. congruence.
  - apply Forall_cons in Hd as [H1 _]. cbn [numeral]. rewrite append_cons.
    each_digit d' H1; reflexivity.
Qed.

Lemma strtod_numeral d ds rest :
  digits (d :: ds) -> delimited (d :: ds) rest ->
  Libc.strtod (String.append (numeral (d :: ds)) rest)
  = (Libc.scaled false (decimal (d :: ds)) 10 0, rest).
Proof.
  intros Hd Hr. pose proof Hd as Hd'. apply Forall_cons in Hd' as [H0 _].
  unfold Libc.strtod, Libc.convert.
  assert (E : Libc.sign (Libc.skip_space (String.append (numeral (d :: ds)) rest))
              = (false, String.append (numeral (d :: ds)) rest)).
  { cbn [numeral]. rewrite append_cons. each_digit d H0; reflexivity. }
  rewrite E, hex_float_numeral by assumption.
  unfold Libc.dec_float, Libc.scan_mantissa.
  rewrite span_num_numeral; [|assumption|].
  2:{ destruct rest as [|c r]; [exact I|].
      destruct Hr as [[->|[->| ->]]|[-> _]]; reflexivity. }
  assert (Hl : (0 + Z.of_nat (length (d :: ds)) =? 0) = false)
    by (apply Z.eqb_neq; cbn [length]; lia).
  destruct rest as [|c r].
  - rewrite Hl. reflexivity.
  - destruct Hr as [[->|[->| ->]]|[-> _]]; rewrite Hl; reflexivity.
Qed.

Lemma scaled_decimal v :
  0 <= v < 2 ^ 24 -> Flt.to_float (Libc.scaled false v 10 0) = Flt.float_of_int v.
Proof.
  intros Hv. rewrite <- to_float_double_of_int by assumption.
  destruct v as [|p|p]; [reflexivity| |lia].
  unfold Libc.scaled, Flt.double_of_int, binary_normalize. cbn [Z.leb Z.compare].
  change (10 ^ 0) with 1. rewrite Z.mul_1_r. reflexivity.
Qed.

Lemma parse_value_numeral d ds rest n delim dflt :
  digits (d :: ds) -> delimited (d :: ds) rest -> decimal (d :: ds) < 2 ^ 24 ->
  parse_value (Some (String.append (numeral (d :: ds)) rest)) n delim dflt
  = (Flt.float_of_int (decimal (d :: ds)), Some (skip_delim delim rest)).
Proof.
  intros Hd Hr Hv. pose proof Hd as Hd'. apply Forall_cons in Hd' as [H0 _].
  unfold parse_value.
  assert (E : at_end (String.append (numeral (d :: ds)) rest) = false).
  { cbn [numeral]. rewrite append_cons. each_digit d H0; reflexivity. }
  rewrite E, strtod_numeral by assumption.
  rewrite scaled_decimal by (split; [apply decimal_nonneg; assumption|assumption]).
  destruct rest as [|c r]; [reflexivity|].
  destruct Hr as [[->|[->| ->]]|[-> _]]; reflexivity.
Qed.

Lemma skip_delim_numeral delim d ds rest :
  delim = ","%char \/ delim = ":"%char \/ delim = "x"%char ->
  0 <= d <= 9 ->
  skip_delim delim (String delim (String.append (numeral (d :: ds)) rest))
  = String.append (numeral (d :: ds)) rest.
Proof.
  intros Hc H0. cbn [numeral]. rewrite append_cons.
  destruct Hc as [->|[->| ->]]; each_digit d H0; reflexivity.
Qed.

(** X18: a geometry string [X,Y:WxH:MIX] of five decimal numerals below
    [2 ^ 24], [W] not being the single digit 0, parses to exactly these
    numbers: [x], [y], [w], [h] and [mix] are the integers as floats, and
    [sw] and [sh] are [W] and [H]. *)
Theorem geometry_parse_numerals (geometry : geometry_s) (dx dy dw dh dm : list Z)
    (nw nh : Z) :
  digits dx -> digits dy -> digits dw -> digits dh -> digits dm ->
  dx <> [] -> dy <> [] -> dw <> [] -> dh <> [] -> dm <> [] ->
  dw <> [0] ->
  decimal dx < 2 ^ 24 -> decimal dy < 2 ^ 24 -> decimal dw < 2 ^ 24 ->
  decimal dh < 2 ^ 24 -> decimal dm < 2 ^ 24 ->
  geometry_parse geometry None (Some (geometry_string dx dy dw dh dm)) nw nh
  = Some (G.mk nw nh (decimal dw) (decimal dh)
            (Flt.float_of_int (decimal dx)) (Flt.float_of_int (decimal dy))
            (Flt.float_of_int (decimal dw)) (Flt.float_of_int (decimal dh))
            (Flt.float_of_int (decimal dm)) (G.halign geometry) (G.valign geometry)).
Proof.
  intros Dx Dy Dw Dh Dm Nx Ny Nw Nh Nm Zw Bx By Bw Bh Bm.
  destruct dx as [|x0 dx]; [congruence|]. destruct dy as [|y0 dy]; [congruence|].
  destruct dw as [|w0 dw]; [congruence|]. destruct dh as [|h0 dh]; [congruence|].
  destruct dm as [|m0 dm]; [congruence|].
  pose proof (Forall_inv Dy) as Hy0. pose proof (Forall_inv Dw) as Hw0.
  pose proof (Forall_inv Dh) as Hh0. pose proof (Forall_inv Dm) as Hm0.
  cbv beta in Hy0, Hw0, Hh0, Hm0.
  pose proof (decimal_nonneg _ Dw) as Pw. pose proof (decimal_nonneg _ Dh) as Ph.
  unfold geometry_parse, geometry_string. cbn [mbind option_bind].
  rewrite <- (append_empty (numeral (m0 :: dm))).
  rewrite parse_value_numeral; [|assumption|left; auto|assumption].
  rewrite skip_delim_numeral; [|tauto|assumption].
  rewrite parse_value_numeral; [|assumption|left; auto|assumption].
  rewrite skip_delim_numeral; [|tauto|assumption].
  rewrite parse_value_numeral; [|assumption|right; auto|assumption].
  rewrite skip_delim_numeral; [|tauto|assumption].
  rewrite assign_w_exact by lia. cbn [mbind option_bind].
  rewrite parse_value_numeral; [|assumption|left; auto|assumption].
  rewrite skip_delim_numeral; [|tauto|assumption].
  rewrite assign_h_exact by lia. cbn [mbind option_bind].
  rewrite parse_value_numeral; [|assumption|exact I|assumption].
  reflexivity.
Qed.

Lemma geometry_parse_numerals_witness :
  geometry_parse junk None (Some "10,20:50x60:75") 100 100 = Some (box 100 100 10 20 50 60 75).
Proof.
  apply (geometry_parse_numerals junk [1; 0] [2; 0] [5; 0] [6; 0] [7; 5] 100 100);
    try (repeat constructor; lia); try discriminate; vm_compute; reflexivity.
Defined.

(** ** A width of 0 *)

Lemma hex_val_digit_char d : 0 <= d <= 9 -> Libc.hex_val (digit_char d) = Some d.
Proof. intros H. each_digit d H; reflexivity. Qed.

Lemma span_num_hex ds : forall r acc cnt,
  digits ds ->
  Libc.span_num Libc.hex_val 16 (String.append (numeral ds) (String ":" r)) acc cnt
  = (fold_left (fun acc d => acc * 16 + d) ds acc, cnt + Z.of_nat (length ds), String ":" r).
Proof.
  induction ds as [|d ds IH]; intros r acc cnt Hd.
  - cbn [numeral fold_left length]. rewrite append_nil, Z.add_0_r. reflexivity.
  - apply Forall_cons in Hd as [H0 Hd].
    cbn [numeral fold_left length]. rewrite append_cons. cbn [Libc.span_num].
    rewrite hex_val_digit_char by assumption. rewrite IH by assumption.
    f_equal. f_equal. lia.
Qed.

Lemma hexadecimal_nonneg_from ds : forall acc,
  digits ds -> 0 <= acc -> 0 <= fold_left (fun acc d => acc * 16 + d) ds acc.
Proof.
  induction ds as [|d ds IH]; intros acc Hd Ha; [assumption|].
  apply Forall_cons in Hd as [H0 Hd]. cbn [fold_left]. apply IH; [assumption|lia].
Qed.

Lemma scaled_binary v :
  0 <= v < 2 ^ 24 -> Flt.to_float (Libc.scaled false v 2 0) = Flt.float_of_int v.
Proof.
  intros Hv. rewrite <- to_float_double_of_int by assumption.
  destruct v as [|p|p]; [reflexivity| |lia].
  unfold Libc.scaled, Flt.double_of_int, binary_normalize. cbn [Z.leb Z.compare].
  change (2 ^ 0) with 1. rewrite Z.mul_1_r. reflexivity.
Qed.

(** [0x] and digits read as one hexadecimal number. *)
Lemma parse_value_hex d ds r n dflt :
  digits (d :: ds) -> hexadecimal (d :: ds) < 2 ^ 24 ->
  parse_value (Some (String "0" (String "x" (String.append (numeral (d :: ds)) (String ":" r)))))
    n "x" dflt
  = (Flt.float_of_int (hexadecimal (d :: ds)), Some (String ":" r)).
Proof.
  intros Hd Hv. unfold parse_value. cbn [at_end]. change (Ascii.eqb "0" "000") with false.
  cbv iota.
  assert (E : Libc.strtod (String "0" (String "x" (String.append (numeral (d :: ds))
                                                     (String ":" r))))
              = (Libc.scaled false (hexadecimal (d :: ds)) 2 0, String ":" r)).
  { unfold Libc.strtod, Libc.convert.
    change (Libc.sign (Libc.skip_space (String "0" ?s))) with (false, String "0" s).
    cbv iota. unfold Libc.hex_float.
    change (Ascii.eqb (Libc.tolower "x") "x") with true. cbv iota.
    unfold Libc.scan_mantissa. rewrite span_num_hex by assumption.
    replace (0 + Z.of_nat (length (d :: ds)) =? 0) with false
      by (symmetry; apply Z.eqb_neq; cbn [length]; lia).
    reflexivity. }
  rewrite E. rewrite scaled_binary; [reflexivity|].
  split; [apply hexadecimal_nonneg_from; [assumption|lia]|assumption].
Qed.

(** At a [:] no number is read: the value is 0 and the [:] is skipped. *)
Lemma parse_value_colon d ds rest n dflt :
  0 <= d <= 9 ->
  parse_value (Some (String ":" (String.append (numeral (d :: ds)) rest))) n ":" dflt
  = (S754_zero false, Some (String.append (numeral (d :: ds)) rest)).
Proof.
  intros H0. unfold parse_value. cbn [at_end]. change (Ascii.eqb ":" "000") with false.
  cbv iota.
  assert (E : forall s, Libc.strtod (String ":" s) = (S754_zero false, String ":" s))
    by reflexivity.
  rewrite E. rewrite skip_delim_numeral by tauto. reflexivity.
Qed.

(** X19: when [W] is the single digit 0, [strtod] reads [0x] and the
    digits of [H] as one hexadecimal number: the width is that number,
    the height finds no number at the [:] and is 0, and the other fields
    are as written. *)
Theorem geometry_parse_zero_width (geometry : geometry_s) (dx dy dh dm : list Z)
    (nw nh : Z) :
  digits dx -> digits dy -> digits dh -> digits dm ->
  dx <> [] -> dy <> [] -> dh <> [] -> dm <> [] ->
  decimal dx < 2 ^ 24 -> decimal dy < 2 ^ 24 -> hexadecimal dh < 2 ^ 24 ->
  decimal dm < 2 ^ 24 ->
  geometry_parse geometry None (Some (geometry_string dx dy [0] dh dm)) nw nh
  = Some (G.mk nw nh (hexadecimal dh) 0
            (Flt.float_of_int (decimal dx)) (Flt.float_of_int (decimal dy))
            (Flt.float_of_int (hexadecimal dh)) (Flt.float_of_int 0)
            (Flt.float_of_int (decimal dm)) (G.halign geometry) (G.valign geometry)).
Proof.
  intros Dx Dy Dh Dm Nx Ny Nh Nm Bx By Bh Bm.
  destruct dx as [|x0 dx]; [congruence|]. destruct dy as [|y0 dy]; [congruence|].
  destruct dh as [|h0 dh]; [congruence|]. destruct dm as [|m0 dm]; [congruence|].
  pose proof (Forall_inv Dy) as Hy0. pose proof (Forall_inv Dm) as Hm0.
  cbv beta in Hy0, Hm0.
  pose proof (hexadecimal_nonneg_from _ 0 Dh ltac:(lia)) as Ph. fold (hexadecimal (h0 :: dh)) in Ph.
  unfold geometry_parse, geometry_string. cbn [mbind option_bind].
  rewrite <- (append_empty (numeral (m0 :: dm))).
  rewrite parse_value_numeral; [|assumption|left; auto|assumption].
  rewrite skip_delim_numeral; [|tauto|assumption].
  rewrite parse_value_numeral; [|assumption|left; auto|assumption].
  change (numeral [0]) with (String "0" EmptyString).
  rewrite append_cons, append_nil.
  change (skip_delim ":" (String ":" (String "0" ?s))) with (String "0" s).
  rewrite parse_value_hex by assumption.
  rewrite assign_w_exact by lia. cbn [mbind option_bind].
  rewrite parse_value_colon by assumption.
  change (assign_h (S754_zero false) ?g)
    with (Some (G.with_h (Flt.float_of_int 0) (G.with_sh 0 g))).
  cbn [mbind option_bind].
  rewrite parse_value_numeral; [|assumption|exact I|assumption].
  reflexivity.
Qed.

Lemma geometry_parse_zero_width_witness :
  geometry_parse junk None (Some "10,20:0x60:75") 100 100
  = Some (box 100 100 10 20 96 0 75).
Proof.
  apply (geometry_parse_zero_width junk [1; 0] [2; 0] [6; 0] [7; 5] 100 100);
    try (repeat constructor; lia); try discriminate; vm_compute; reflexivity.
Defined.

(** ** Quotients and differences stay finite *)

Lemma digits2_pos_lower p : 2 ^ (Z.pos (digits2_pos p) - 1) <= Z.pos p.
Proof.
  induction p as [p IH|p IH|]; cbn [digits2_pos]; rewrite ?Pos2Z.inj_succ.
  - replace (Z.succ (Z.pos (digits2_pos p)) - 1) with (Z.pos (digits2_pos p) - 1 + 1) by lia.
    rewrite Z.pow_add_r by lia. change (2 ^ 1) with 2. lia.
  - replace (Z.succ (Z.pos (digits2_pos p)) - 1) with (Z.pos (digits2_pos p) - 1 + 1) by lia.
    rewrite Z.pow_add_r by lia. change (2 ^ 1) with 2. lia.
  - simpl. lia.
Qed.

Section Quotients.
Variables prec emax : Z.
Hypothesis Hprec : 0 < prec.
Hypothesis Hemax : prec < emax.

(** A value below [2 ^ K1] divided by one of at least [2 ^ (L - 1)]. *)
Lemma SFdiv_mag x sy my ey K1 L K :
  Flt.mag_le K1 x = true -> L <= Z.pos (digits2_pos my) + ey ->
  K1 - L + 1 <= K -> emin prec emax <= K -> K < emax ->
  Flt.mag_le (K + 1) (SFdiv prec emax x (S754_finite sy my ey)) = true.
Proof.
  intros Hx HL HK Hmin Hmax.
  destruct x as [sx|sx| |sx mx ex]; simpl in Hx; try discriminate; [reflexivity|].
  apply Z.leb_le in Hx. unfold SFdiv, SFdiv_core_binary. cbn [Zdigits2].
  set (d1 := Z.pos (digits2_pos mx)) in *. set (d2 := Z.pos (digits2_pos my)) in *.
  set (e' := Z.min (fexp prec emax (d1 + ex - (d2 + ey))) (ex - ey)).
  set (s := ex - ey - e').
  assert (Hs : 0 <= s) by (unfold s, e'; lia).
  assert (He' : e' <= K /\ e' <= emax - prec) by (unfold e', fexp, emin in *; lia).
  set (m' := match s with 0 => Z.pos mx | Z.pos _ => Z.shiftl (Z.pos mx) s | Z.neg _ => 0 end).
  assert (Hm' : m' = Z.pos mx * 2 ^ s).
  { unfold m'. destruct s as [|k|k]; [simpl; lia| |lia]. apply Z.shiftl_mul_pow2. lia. }
  clearbody m'.
  assert (P2 : 0 < 2 ^ s) by (apply Z.pow_pos_nonneg; lia).
  assert (Hm0 : 0 <= m') by (rewrite Hm'; nia).
  assert (Hup : m' < 2 ^ (d1 + s)).
  { rewrite Hm', Z.pow_add_r by (unfold d1; lia).
    pose proof (digits2_pos_upper mx). fold d1 in H. nia. }
  pose proof (digits2_pos_lower my) as Hlow. fold d2 in Hlow.
  pose proof (Z.div_eucl_eq m' (Z.pos my) ltac:(lia)) as Hdiv.
  assert (Hq : fst (Z.div_eucl m' (Z.pos my)) = m' / Z.pos my) by reflexivity.
  destruct (Z.div_eucl m' (Z.pos my)) as [q r]. cbn [fst] in Hq.
  assert (Hq0 : 0 <= q) by (rewrite Hq; apply Z.div_pos; lia).
  apply binary_round_aux_mag; try assumption; try lia.
  destruct (Z_lt_ge_dec (d1 + s - d2 + 1) 0) as [Hk|Hk].
  - assert (q = 0).
    { rewrite Hq. apply Z.div_small. split; [lia|].
      assert (2 ^ (d1 + s) <= 2 ^ (d2 - 1)) by (apply Z.pow_le_mono_r; lia). lia. }
    rewrite H. change (Zdigits2 0) with 0. lia.
  - assert (q < 2 ^ (d1 + s - d2 + 1)).
    { rewrite Hq. apply Z.div_lt_upper_bound; [lia|].
      assert (2 ^ (d1 + s) = 2 ^ (d2 - 1) * 2 ^ (d1 + s - d2 + 1)).
      { rewrite <- Z.pow_add_r by (unfold d2; lia). f_equal. lia. }
      nia. }
    pose proof (Zdigits2_le q (d1 + s - d2 + 1) ltac:(lia) ltac:(lia)). unfold s in *. lia.
Qed.

Lemma shl_align_le mx ex ez :
  ez <= ex ->
  exists mz, shl_align mx ex ez = (mz, ez)
    /\ Z.pos (digits2_pos mz) + ez = Z.pos (digits2_pos mx) + ex.
Proof.
  intros H. unfold shl_align. destruct (ez - ex) as [|d|d] eqn:E; try lia.
  - exists mx. replace ez with ex by lia. auto.
  - eexists. split; [reflexivity|]. rewrite digits2_pos_iter_xO. lia.
Qed.

(** The difference of two values below [2 ^ K]. *)
Lemma SFsub_mag x y K :
  Flt.mag_le K x = true -> Flt.mag_le K y = true ->
  K + 1 < emax -> emin prec emax <= K -> K <= emax - prec + 1 ->
  Flt.mag_le (K + 2) (SFsub prec emax x y) = true.
Proof.
  intros Hx Hy H1 H2 H3.
  destruct x as [sx|sx| |sx mx ex], y as [sy|sy| |sy my ey]; simpl in Hx, Hy;
    try discriminate.
  - destruct sx, sy; reflexivity.
  - simpl. apply Z.leb_le in Hy. apply Z.leb_le. lia.
  - simpl. apply Z.leb_le in Hx. apply Z.leb_le. lia.
  - apply Z.leb_le in Hx, Hy. unfold SFsub.
    destruct (shl_align_le mx ex (Z.min ex ey) ltac:(lia)) as (m1 & -> & D1).
    destruct (shl_align_le my ey (Z.min ex ey) ltac:(lia)) as (m2 & -> & D2).
    cbn [fst]. set (ez := Z.min ex ey) in *.
    pose proof (digits2_pos_upper m1) as U1. pose proof (digits2_pos_upper m2) as U2.
    assert (P1 : 2 ^ Z.pos (digits2_pos m1) <= 2 ^ (K - ez))
      by (apply Z.pow_le_mono_r; lia).
    assert (P2 : 2 ^ Z.pos (digits2_pos m2) <= 2 ^ (K - ez))
      by (apply Z.pow_le_mono_r; lia).
    assert (E : 2 ^ (K + 1 - ez) = 2 * 2 ^ (K - ez)).
    { replace (K + 1 - ez) with (1 + (K - ez)) by lia. rewrite Z.pow_add_r by lia.
      reflexivity. }
    assert (B : Z.abs (cond_Zopp sx (Z.pos m1) - cond_Zopp sy (Z.pos m2)) < 2 ^ (K + 1 - ez))
      by (destruct sx, sy; simpl cond_Zopp; lia).
    unfold binary_normalize.
    destruct (cond_Zopp sx (Z.pos m1) - cond_Zopp sy (Z.pos m2)) as [|p|p];
      [reflexivity| |];
      (replace (K + 2) with (K + 1 + 1) by lia; apply binary_round_mag; try lia;
       pose proof (digits2_pos_le p (K + 1 - ez) ltac:(lia) ltac:(lia)); lia).
Qed.

End Quotients.

(** ** The position within the interval *)

Lemma float_of_int_mag_ge n :
  0 < n < 2 ^ 24 ->
  exists m e, Flt.float_of_int n = S754_finite false m e /\ 1 <= Z.pos (digits2_pos m) + e.
Proof.
  intros Hn. destruct n as [|p|p]; try lia.
  pose proof (digits2_pos_le p 24 ltac:(lia) ltac:(lia)) as Hd.
  destruct (binary_round_exact 24 128 false p) as (m & E & _ & Dm); try lia.
  exists m, (Z.pos (digits2_pos p) - 24). split; [exact E|lia].
Qed.

(** The quotient of two frame counts below [2 ^ 24]. *)
Lemma frame_quotient_mag a b :
  0 <= a < 2 ^ 24 -> 0 < b < 2 ^ 24 ->
  Flt.mag_le 26 (Flt.fdiv (Flt.float_of_int a) (Flt.float_of_int b)) = true.
Proof.
  intros Ha Hb. destruct (float_of_int_mag_ge b Hb) as (m & e & -> & Hm).
  apply (SFdiv_mag 24 128 ltac:(lia) ltac:(lia) _ _ _ _ 25 1 25); try (unfold emin; lia).
  apply (binary_normalize_mag 24 128 ltac:(lia) ltac:(lia) a 24); lia.
Qed.

Lemma position_calculate_finite this frame :
  Mlt.t_in this <= Mlt.frame_position frame <= Mlt.t_out this ->
  Mlt.t_out this - Mlt.t_in this < 2 ^ 24 - 1 ->
  exists position,
    position_calculate this frame = Some position /\ Flt.is_finite position = true.
Proof.
  intros Hp Hl. change (2 ^ 24) with 16777216 in Hl.
  unfold position_calculate, Int.sub, Int.add.
  repeat (rewrite small_in_range by (change (2 ^ 30) with 1073741824; lia);
        cbn [mbind option_bind]).
  eexists. split; [reflexivity|].
  apply (mag_le_finite 26), frame_quotient_mag; change (2 ^ 24) with 16777216; lia.
Qed.

Lemma delta_calculate_finite this frame :
  Mlt.t_in this <= Mlt.frame_position frame <= Mlt.t_out this ->
  Mlt.t_out this - Mlt.t_in this < 2 ^ 24 - 1 ->
  - 2 ^ 30 <= Mlt.t_in this -> Mlt.t_out this < 2 ^ 30 ->
  exists delta, delta_calculate this frame = Some delta /\ Flt.is_finite delta = true.
Proof.
  intros Hp Hl Hi Ho. change (2 ^ 24) with 16777216 in Hl.
  change (2 ^ 30) with 1073741824 in Hi, Ho.
  unfold delta_calculate, Int.sub, Int.add.
  repeat (rewrite small_in_range by (change (2 ^ 30) with 1073741824; lia);
        cbn [mbind option_bind]).
  eexists. split; [reflexivity|].
  set (y := Flt.fdiv _ _). set (x := Flt.fdiv _ _).
  assert (Hx : Flt.mag_le 26 x = true)
    by (apply frame_quotient_mag; change (2 ^ 24) with 16777216; lia).
  assert (Hy : Flt.mag_le 26 y = true)
    by (apply frame_quotient_mag; change (2 ^ 24) with 16777216; lia).
  pose proof (SFsub_mag 24 128 ltac:(lia) ltac:(lia) y x 26 Hy Hx
                ltac:(lia) ltac:(unfold emin; lia) ltac:(lia)) as Hs.
  pose proof (renorm_mag 53 1024 ltac:(lia) ltac:(lia) _ 28 Hs
                ltac:(lia) ltac:(unfold emin; lia) ltac:(lia)) as Hd.
  pose proof (SFdiv_mag 53 1024 ltac:(lia) ltac:(lia) _ false 4503599627370496 (-51)
                29 2 28 Hd ltac:(simpl; lia) ltac:(lia) ltac:(unfold emin; lia) ltac:(lia))
    as Hq.
  pose proof (renorm_mag 24 128 ltac:(lia) ltac:(lia) _ 29 Hq
                ltac:(lia) ltac:(unfold emin; lia) ltac:(lia)) as Hf.
  exact (mag_le_finite _ _ Hf).
Qed.

Lemma field_position_finite position delta field :
  Flt.is_finite position = true -> Flt.is_finite delta = true ->
  field = 0 ->
  Flt.is_finite (Flt.fadd position (Flt.fmul (Flt.float_of_int field) delta)) = true.
Proof.
  intros Hp Hd ->. change (Flt.float_of_int 0) with (S754_zero false).
  destruct delta as [[]| | |[] md ed]; try discriminate;
    destruct position as [[]| | |sp mp ep]; try discriminate; reflexivity.
Qed.

(** ** The default box *)

(** A progressive blend at full opacity, inside and outside the
    rectangle. *)
Lemma composite_yuv_opaque_total p_dest width_dest height_dest p_src width_src height_src
    p_alpha geometry x0 x y :
  0 < width_dest <= 16384 -> 0 < height_dest <= 16384 ->
  0 < width_src <= 16384 -> 0 < height_src <= 16384 ->
  Z.of_nat (length p_dest) = 2 * width_dest * height_dest ->
  Z.of_nat (length p_src) = 2 * width_src * height_src ->
  match p_alpha with
  | Some m => Z.of_nat (length m) = width_src * height_src
  | None => True
  end ->
  bytes p_dest -> bytes p_src -> opaque p_alpha ->
  G.mix geometry = Flt.float_of_int 100 ->
  consumer_scale (G.x geometry) width_dest (G.nw geometry) = Some x0 ->
  even_down x0 = Some x ->
  consumer_scale (G.y geometry) height_dest (G.nh geometry) = Some y ->
  -16384 <= x <= 16384 -> -16384 <= y <= 16384 ->
  (x < 0 -> x + width_src <= width_dest) ->
  (y < 0 -> y + height_src <= height_dest) ->
  exists dest',
    composite_yuv p_dest width_dest height_dest p_src width_src height_src p_alpha
      geometry (-1) = Some (0, dest')
    /\ length dest' = length p_dest
    /\ (forall i j,
          Z.max 0 y <= i < Z.min height_dest (y + height_src) ->
          Z.max 0 x <= j < Z.min width_dest (x + width_src) ->
          load dest' (2 * (i * width_dest + j))
          = load p_src (2 * ((i - y) * width_src + (j - x)))
          /\ load dest' (2 * (i * width_dest + j) + 1)
             = load p_src (2 * ((i - y) * width_src + (j - x)) + 1))
    /\ (forall i j,
          0 <= j < width_dest ->
          ~ (Z.max 0 y <= i < Z.min height_dest (y + height_src)
             /\ Z.max 0 x <= j < Z.min width_dest (x + width_src)) ->
          load dest' (2 * (i * width_dest + j)) = load p_dest (2 * (i * width_dest + j))
          /\ load dest' (2 * (i * width_dest + j) + 1)
             = load p_dest (2 * (i * width_dest + j) + 1)).
Proof.
  intros Hwd Hhd Hws Hhs Ld Ls La Bd Bs Oa Hmix Hx0 Hx Hy Rx Ry Lx Ly.
  assert (Ix : Int.in_range x = true /\ Int.INT_MIN < x)
    by (split; [apply in_range_iff|]; unfold Int.INT_MIN, Int.INT_MAX; lia).
  assert (Iy : Int.in_range y = true /\ Int.INT_MIN < y)
    by (split; [apply in_range_iff|]; unfold Int.INT_MIN, Int.INT_MAX; lia).
  unfold composite_yuv. rewrite Hmix. fold full_weight.
  unfold Int.mul, Int.add, Int.sub. do 2 small.
  rewrite Hx0. cbn [mbind option_bind]. rewrite Hy. cbn [mbind option_bind].
  rewrite Hx. cbn [mbind option_bind].
  replace (width_src <=? 0) with false by (symmetry; apply Z.leb_gt; lia).
  replace (height_src <=? 0) with false by (symmetry; apply Z.leb_gt; lia).
  cbn [orb].
  rewrite (off_frame_spec x) by tauto. cbn [mbind option_bind].
  destruct ((x <? 0) && (width_src <=? - x)) eqn:Ox.
  { exists p_dest. split; [reflexivity|]. split; [reflexivity|].
    apply andb_true_iff in Ox as [O1 O2]. apply Z.ltb_lt in O1. apply Z.leb_le in O2.
    split; [intros i j Hi Hj; lia|auto]. }
  rewrite (off_frame_spec y) by tauto. cbn [mbind option_bind].
  destruct ((y <? 0) && (height_src <=? - y)) eqn:Oy.
  { exists p_dest. split; [reflexivity|]. split; [reflexivity|].
    apply andb_true_iff in Oy as [O1 O2]. apply Z.ltb_lt in O1. apply Z.leb_le in O2.
    split; [intros i j Hi Hj; lia|auto]. }
  rewrite (crop_spec x) by assumption. cbn [mbind option_bind].
  rewrite (crop_spec y) by assumption. cbn [mbind option_bind].
  replace (if x <? 0 then 0 else x) with (Z.max 0 x) by (destruct (Z.ltb_spec x 0); lia).
  replace (if y <? 0 then 0 else y) with (Z.max 0 y) by (destruct (Z.ltb_spec y 0); lia).
  replace (if Z.max 0 x <? 0 then 0 else Z.max 0 x) with (Z.max 0 x)
    by (destruct (Z.ltb_spec (Z.max 0 x) 0); lia).
  apply andb_false_iff in Ox, Oy. rewrite Z.ltb_ge, Z.leb_gt in Ox, Oy.
  assert (Bxs : 0 <= Z.max 0 (- x) < width_src /\ Z.max 0 (- x) - Z.max 0 x = - x) by lia.
  assert (Bys : 0 <= Z.max 0 (- y) < height_src /\ Z.max 0 (- y) - Z.max 0 y = - y) by lia.
  assert (Bx' : 0 <= Z.max 0 x <= 16384) by lia.
  assert (By' : 0 <= Z.max 0 y <= 16384) by lia.
  assert (Bw : -16384 <= (x + width_src) `min` width_dest - Z.max 0 x
               /\ Z.max 0 (- x) + ((x + width_src) `min` width_dest - Z.max 0 x) <= width_src
               /\ Z.max 0 x + ((x + width_src) `min` width_dest - Z.max 0 x) <= width_dest)
    by lia.
  assert (Bh : -16384 <= (y + height_src) `min` height_dest - Z.max 0 y
               /\ Z.max 0 (- y) + ((y + height_src) `min` height_dest - Z.max 0 y) <= height_src
               /\ Z.max 0 y + ((y + height_src) `min` height_dest - Z.max 0 y) <= height_dest)
    by lia.
  assert (Eh : Z.min height_dest (y + height_src)
               = Z.max 0 y + ((y + height_src) `min` height_dest - Z.max 0 y)) by lia.
  assert (Ew : Z.min width_dest (x + width_src)
               = Z.max 0 x + ((x + width_src) `min` width_dest - Z.max 0 x)) by lia.
  rewrite Eh, Ew. clear Eh Ew.
  set (xs := Z.max 0 (- x)) in *. set (ys := Z.max 0 (- y)) in *.
  set (x' := Z.max 0 x) in *. set (y' := Z.max 0 y) in *.
  set (w' := (x + width_src) `min` width_dest - x') in *.
  set (h' := (y + height_src) `min` height_dest - y') in *.
  clearbody xs ys x' y' w' h'.
  assert (P2 : 0 <= ys * (width_src * 2) <= 536870912) by (clear - Bys Hws Hhs; nia).
  assert (P4 : 0 <= y' * (width_dest * 2) <= 536870912) by (clear - By' Hwd; nia).
  assert (P5 : 0 <= ys * width_src <= 268435456) by (clear - Bys Hws Hhs; nia).
  repeat small.
  change (-1 =? 1) with false. change (-1 >? -1) with false. cbn [andb mbind option_bind].
  assert (Eoa : match p_alpha with
                | Some _ => Int.div (ys * (width_src * 2)) 2 ≫= (fun c => Int.chk (xs + c))
                | None => Some 0
                end
                = Some (match p_alpha with Some _ => xs + ys * width_src | None => 0 end)).
  { destruct p_alpha; [|reflexivity]. unfold Int.div. cbn [Z.eqb].
    replace (ys * (width_src * 2)) with (ys * width_src * 2) by lia.
    rewrite Z.quot_mul by lia. repeat small. reflexivity. }
  rewrite Eoa. cbn [mbind option_bind].
  set (o_alpha := match p_alpha with Some _ => xs + ys * width_src | None => 0 end).
  destruct (composite_rows_opaque h' w' 1 (width_src * 2) (width_dest * 2) p_src p_alpha
              (xs * 2 + ys * (width_src * 2)) o_alpha (x' * 2 + y' * (width_dest * 2))
              Bs Oa ltac:(lia) ltac:(lia) ltac:(lia) ltac:(lia)
              (Z.to_nat h') 0 p_dest Bd ltac:(lia) ltac:(lia))
    as (dest' & E & L & _ & In & Out).
  { intros Hh. unfold rows_in_bounds. unfold Int.INT_MAX.
    assert (0 <= (h' - 1) * (width_src * 2) <= 536870912) by (clear - Hh Bh Hws Hhs Bys; nia).
    assert (0 <= (h' - 1) * (width_dest * 2) <= 536870912) by (clear - Hh Bh Hwd Hhd By'; nia).
    split; [|lia]. intros Hw.
    assert ((ys + h' - 1) * (width_src * 2) + 2 * width_src <= 2 * width_src * height_src)
      by (clear - Hh Bh Hws Hhs Bys; nia).
    assert ((y' + h' - 1) * (width_dest * 2) + 2 * width_dest <= 2 * width_dest * height_dest)
      by (clear - Hh Bh Hwd Hhd By'; nia).
    repeat apply conj; try lia.
    subst o_alpha. destruct p_alpha as [m|]; [|exact I].
    replace ((h' - 1) * (width_src * 2)) with ((h' - 1) * width_src * 2) by lia.
    rewrite Z.quot_mul by lia.
    assert ((ys + h' - 1) * width_src + width_src <= width_src * height_src)
      by (clear - Hh Bh Hws Hhs Bys; nia).
    lia. }
  rewrite E. cbn [mbind option_bind]. exists dest'. split; [reflexivity|]. split; [exact L|].
  split.
  - intros i j Hi Hj.
    assert (Hrow : 0 <= i - y' /\ 0 + (i - y') * 1 < h') by lia.
    split.
    + specialize (In (i - y') (2 * (j - x')) ltac:(lia) ltac:(lia) ltac:(lia)).
      replace (x' * 2 + y' * (width_dest * 2) + (0 + (i - y') * 1) * (width_dest * 2)
               + 2 * (j - x')) with (2 * (i * width_dest + j)) in In by lia.
      rewrite In. f_equal. clear - Bxs Bys. nia.
    + specialize (In (i - y') (2 * (j - x') + 1) ltac:(lia) ltac:(lia) ltac:(lia)).
      replace (x' * 2 + y' * (width_dest * 2) + (0 + (i - y') * 1) * (width_dest * 2)
               + (2 * (j - x') + 1)) with (2 * (i * width_dest + j) + 1) in In by lia.
      rewrite In. f_equal. clear - Bxs Bys. nia.
  - intros i j Hj Hout.
    assert (Hrow : forall c, 0 <= c <= 1 ->
              forall n, 0 <= n -> 0 + n * 1 < h' ->
                ~ (x' * 2 + y' * (width_dest * 2) + (0 + n * 1) * (width_dest * 2)
                   <= 2 * (i * width_dest + j) + c
                   < x' * 2 + y' * (width_dest * 2) + (0 + n * 1) * (width_dest * 2)
                     + 2 * Z.of_nat (Z.to_nat w'))).
    { intros c Hc n Hn Hr Hk. apply Hout.
      destruct (Z_le_gt_dec w' 0) as [Hw|Hw].
      { replace (Z.of_nat (Z.to_nat w')) with 0 in Hk by lia. lia. }
      replace (Z.of_nat (Z.to_nat w')) with w' in Hk by lia.
      destruct (pixel_in_row width_dest x' w' (y' + n) i j c) as [Ei Ej];
        try assumption; try lia. }
    split.
    + replace (2 * (i * width_dest + j)) with (2 * (i * width_dest + j) + 0) by lia.
      apply Out. apply Hrow. lia.
    + apply Out. apply Hrow. lia.
Qed.

(** The default start geometry in a normalised space of 20 x 20. *)
Lemma geometry_parse_default_20 geometry :
  geometry_parse geometry None (Some "85%,5%:10%x10%") 20 20
  = Some (G.mk 20 20 2 2 (Flt.float_of_int 17) (Flt.float_of_int 1)
            (Flt.float_of_int 2) (Flt.float_of_int 2) (Flt.float_of_int 100)
            (G.halign geometry) (G.valign geometry)).
Proof. destruct geometry. vm_compute. reflexivity. Qed.

(** Between the default start and the end that inherits from it. *)
Lemma geometry_calculate_default_20 result hs vs he ve position :
  Flt.is_finite position = true ->
  geometry_calculate result
    (G.mk 20 20 2 2 (Flt.float_of_int 17) (Flt.float_of_int 1)
       (Flt.float_of_int 2) (Flt.float_of_int 2) (Flt.float_of_int 100) hs vs)
    (G.mk 20 20 2 2 (Flt.float_of_int 17) (Flt.float_of_int 1)
       (Flt.float_of_int 2) (Flt.float_of_int 2) (Flt.float_of_int 100) he ve)
    position
  = G.mk 20 20 (G.sw result) (G.sh result)
      (Spec.add_half (Flt.float_of_int 17)) (Spec.add_half (Flt.float_of_int 1))
      (Flt.float_of_int 2) (Flt.float_of_int 2) (Flt.float_of_int 100)
      (G.halign result) (G.valign result).
Proof.
  intros Hp. rewrite geometry_calculate_spec. unfold Spec.interpolate.
  cbn [G.x G.y G.w G.h G.mix G.sw G.sh G.nw G.nh].
  rewrite !add_half_lerp_same by (assumption || reflexivity).
  rewrite !lerp_same by (assumption || reflexivity || discriminate). reflexivity.
Qed.

(** Sizing a square-pixel overlay of 2 x 2 for the default box. *)
Lemma get_b_frame_image_default_20 this position alpha supply requests sw sh overlay cs :
  Mlt.get (Mlt.transition_properties this) "distort" = None ->
  supply 2 2 = (0, overlay, 2, 2) ->
  let props :=
    Mlt.set_double
      (Mlt.set_double (Mlt.frame_properties white_overlay) "consumer_aspect_ratio" Flt.d1_0)
      "consumer_scale" cs in
  get_b_frame_image this (Mlt.mk_frame props position Flt.d1_0 alpha supply requests) 20 20
    (G.mk 20 20 sw sh
       (Spec.add_half (Flt.float_of_int 17)) (Spec.add_half (Flt.float_of_int 1))
       (Flt.float_of_int 2) (Flt.float_of_int 2) (Flt.float_of_int 100) 0 0)
  = Some (mk_b_image 0
            (Mlt.mk_frame (Mlt.set props "distort" "true") position Flt.d1_0 alpha supply
               ((2, 2) :: requests))
            (Some overlay) 2 2
            (G.mk 20 20 2 2
               (Spec.add_half (Spec.add_half (Flt.float_of_int 17)))
               (Spec.add_half (Spec.add_half (Flt.float_of_int 1)))
               (Flt.float_of_int 2) (Flt.float_of_int 2) (Flt.float_of_int 100) 0 0)).
Proof.
  intros Hd Hs props. unfold get_b_frame_image, negotiate. rewrite Hd.
  unfold Mlt.frame_get_image. cbn [Mlt.supply Mlt.with_properties Mlt.frame_properties
    Mlt.frame_position Mlt.aspect_ratio Mlt.alpha_mask Mlt.requests].
  subst props. vm_compute. rewrite Hs. reflexivity.
Qed.

Lemma bind_unit {A B : Type} (x : A) (f : A -> option B) : Some x ≫= f = f x.
Proof. reflexivity. Qed.

(** The default transition on a progressive frame of 20 x 20 and an
    overlay of 2 x 2 square pixels: the request made to the b frame and
    the image, at every frame of the interval. *)
Lemma transition_get_image_default_20 this a_frame b_frame ra image overlay result start end_ :
  Mlt.get (Mlt.transition_properties this) "start" = Some "85%,5%:10%x10%" ->
  Mlt.get (Mlt.transition_properties this) "end" = Some "" ->
  Mlt.get (Mlt.transition_properties this) "distort" = None ->
  Mlt.get (Mlt.transition_properties this) "halign" = None ->
  Mlt.get (Mlt.transition_properties this) "valign" = None ->
  Mlt.t_in this <= Mlt.frame_position a_frame <= Mlt.t_out this ->
  Mlt.t_out this - Mlt.t_in this < 2 ^ 24 - 1 ->
  - 2 ^ 30 <= Mlt.t_in this -> Mlt.t_out this < 2 ^ 30 ->
  Mlt.frame_properties a_frame = Mlt.frame_properties (base_20x20 1) ->
  Mlt.supply a_frame 20 20 = (ra, image, 20, 20) ->
  bytes image -> length image = 800%nat ->
  Mlt.frame_properties b_frame = Mlt.frame_properties white_overlay ->
  Mlt.aspect_ratio b_frame = Flt.d1_0 ->
  Mlt.alpha_mask b_frame = None ->
  Mlt.supply b_frame 2 2 = (0, overlay, 2, 2) ->
  bytes overlay -> length overlay = 8%nat ->
  exists c,
    transition_get_image this a_frame (Some b_frame) 20 20 result start end_ = Some c
    /\ c_ret c = 0 /\ c_width c = 20 /\ c_height c = 20
    /\ Mlt.requests (c_a_frame c) = (20, 20) :: Mlt.requests a_frame
    /\ Mlt.requests <$> c_b_frame c = Some ((2, 2) :: Mlt.requests b_frame)
    /\ length (c_image c) = 800%nat
    /\ (forall i j, 2 <= i < 4 -> 18 <= j < 20 ->
          load (c_image c) (2 * (i * 20 + j)) = load overlay (2 * ((i - 2) * 2 + (j - 18)))
          /\ load (c_image c) (2 * (i * 20 + j) + 1)
             = load overlay (2 * ((i - 2) * 2 + (j - 18)) + 1))
    /\ (forall i j, 0 <= j < 20 -> ~ (2 <= i < 4 /\ 18 <= j < 20) ->
          load (c_image c) (2 * (i * 20 + j)) = load image (2 * (i * 20 + j))
          /\ load (c_image c) (2 * (i * 20 + j) + 1) = load image (2 * (i * 20 + j) + 1)).
Proof.
  intros Hstart Hend Hdist Hha Hva Hp Hl Hi Ho Hpa Hsa Bi Li Hpb Harb Halb Hsb Bo Lo.
  destruct a_frame as [pa posa ara ala supa rqa], b_frame as [pb posb arb alb supb rqb].
  cbn [Mlt.frame_properties Mlt.frame_position Mlt.aspect_ratio Mlt.alpha_mask Mlt.supply
       Mlt.requests] in *.
  subst pa pb arb alb.
  set (a' := Mlt.mk_frame (Mlt.frame_properties (base_20x20 1)) posa ara ala supa
               ((20, 20) :: rqa)).
  destruct (position_calculate_finite this a' Hp Hl) as (position & Epos & Fpos).
  destruct (delta_calculate_finite this a' Hp Hl Hi Ho) as (delta & Edel & Fdel).
  unfold transition_get_image, Mlt.frame_get_image.
  cbn [Mlt.frame_properties Mlt.frame_position Mlt.aspect_ratio Mlt.alpha_mask Mlt.supply
       Mlt.requests Mlt.with_properties].
  rewrite Hsa. fold a'. rewrite Epos, Edel. rewrite !bind_unit. cbv beta.
  assert (Enw : Mlt.get_int (Mlt.frame_properties (base_20x20 1)) "normalised_width" = 20)
    by (vm_compute; reflexivity).
  assert (Enh : Mlt.get_int (Mlt.frame_properties (base_20x20 1)) "normalised_height" = 20)
    by (vm_compute; reflexivity).
  assert (Epr : Mlt.get_int (Mlt.frame_properties (base_20x20 1)) "progressive" = 1)
    by (vm_compute; reflexivity).
  assert (Ear : Mlt.get_double (Mlt.frame_properties (base_20x20 1)) "consumer_aspect_ratio"
                = Flt.d1_0) by (vm_compute; reflexivity).
  rewrite Enw, Enh, Epr, Ear.
  rewrite Hstart, Hend, Hha, Hva, geometry_parse_default_20. rewrite !bind_unit. cbv beta.
  rewrite (geometry_parse_empty_end end_ 20 20 2 2) by (change (2 ^ 24) with 16777216; lia).
  rewrite !bind_unit. cbv beta. cbn [alignment_parse]. rewrite !bind_unit. cbv beta.
  rewrite geometry_calculate_default_20 by assumption.
  cbn [G.sw G.sh G.halign G.valign G.with_halign G.with_valign].
  cbn [Mlt.frame_properties Mlt.frame_position Mlt.aspect_ratio Mlt.alpha_mask Mlt.supply
       Mlt.requests Mlt.with_properties].
  unfold Mlt.with_properties.
  cbn [Mlt.frame_properties Mlt.frame_position Mlt.aspect_ratio Mlt.alpha_mask Mlt.supply
       Mlt.requests].
  rewrite (get_b_frame_image_default_20 this posb None supb rqb _ _ overlay _ Hdist Hsb).
  rewrite !bind_unit. cbv beta.
  cbn [b_ret b_buffer b_frame' b_width b_height b_geometry Z.eqb Mlt.alpha_mask].
  cbn [Z.eqb negb orb field_loop]. unfold field_pass.
  rewrite geometry_calculate_default_20 by (apply field_position_finite; auto).
  cbn [G.sw G.sh G.halign G.valign].
  assert (Ea : forall X Y,
             alignment_calculate
               (G.mk 20 20 2 2 X Y (Flt.float_of_int 2) (Flt.float_of_int 2)
                  (Flt.float_of_int 100) 0 0)
             = G.mk 20 20 2 2 (Spec.add_half X) (Spec.add_half Y) (Flt.float_of_int 2)
                 (Flt.float_of_int 2) (Flt.float_of_int 100) 0 0).
  { intros X Y. unfold alignment_calculate. cbn [G.x G.y G.w G.h G.sw G.sh G.halign G.valign
      G.with_x G.with_y G.nw G.nh G.mix].
    rewrite !add_biased_zero by reflexivity. reflexivity. }
  rewrite Ea.
  assert (Ex0 : consumer_scale (Spec.add_half (Spec.add_half (Flt.float_of_int 17))) 20 20
                = Some 18) by (vm_compute; reflexivity).
  assert (Ey : consumer_scale (Spec.add_half (Spec.add_half (Flt.float_of_int 1))) 20 20
               = Some 2) by (vm_compute; reflexivity).
  destruct (composite_yuv_opaque_total image 20 20 overlay 2 2 None
              (G.mk 20 20 2 2 (Spec.add_half (Spec.add_half (Flt.float_of_int 17)))
                 (Spec.add_half (Spec.add_half (Flt.float_of_int 1)))
                 (Flt.float_of_int 2) (Flt.float_of_int 2) (Flt.float_of_int 100) 0 0)
              18 18 2 ltac:(lia) ltac:(lia) ltac:(lia) ltac:(lia)
              ltac:(rewrite Li; reflexivity) ltac:(rewrite Lo; reflexivity) I Bi Bo I
              eq_refl Ex0 eq_refl Ey ltac:(lia) ltac:(lia) ltac:(lia) ltac:(lia))
    as (dest' & E & L & In & Out).
  rewrite E. repeat (progress (rewrite ?bind_unit; cbv beta iota; cbn [field_loop])).
  eexists. split; [reflexivity|].
  cbn [c_ret c_width c_height c_a_frame c_b_frame c_image a' Mlt.requests fmap option_fmap
       option_map].
  repeat apply conj; try reflexivity.
  - congruence.
  - intros i j Hi' Hj'. apply In; lia.
  - intros i j Hj' Hout. apply Out; [assumption|]. lia.
Qed.

(** C10, amended: the constructor returns [NULL] when [calloc] fails, and
    the transition as initialisation left it, ['start'] and ['end'] not
    set, when [mlt_transition_init] fails; when both succeed, ['start'] is
    the argument, or ["85%,5%:10%x10%"] for a null argument, ['end'] is
    the empty string, and the interval and every other property are kept.
    An end geometry parsed from the empty string takes [x], [y] and [mix]
    from the start geometry and its size from the start's size; for the
    default start, in a normalised space below [2 ^ 24], the geometry
    calculated at any finite position is one box, 10% of the space in
    size.  On a progressive frame of 20 x 20 with square pixels and an
    overlay of 2 x 2 without a mask, a transition with these defaults and
    no [distort], [halign] or [valign] asks for the overlay at 2 x 2 and
    copies it to rows 2 and 3, columns 18 and 19, at every frame of an
    interval of up to [2 ^ 24 - 1] frames, and leaves the rest of the
    frame as it was. *)
Theorem transition_composite_init_default_box
    (calloc : option Mlt.transition)
    (mlt_transition_init : Mlt.transition -> Mlt.transition * Z) (arg : option string) :
  match calloc with
  | None => transition_composite_init None mlt_transition_init arg = None
  | Some calloc0 =>
      let this0 := (mlt_transition_init calloc0).1 in
      if (mlt_transition_init calloc0).2 =? 0 then
        exists this,
          transition_composite_init (Some calloc0) mlt_transition_init arg = Some this
          /\ Mlt.process this = Some Mlt.Composite_process
          /\ Mlt.get (Mlt.transition_properties this) "start"
             = Some (default "85%,5%:10%x10%" arg)
          /\ Mlt.get (Mlt.transition_properties this) "end" = Some ""
          /\ Mlt.t_in this = Mlt.t_in this0 /\ Mlt.t_out this = Mlt.t_out this0
          /\ (forall name, name <> "start" -> name <> "end" ->
                Mlt.get (Mlt.transition_properties this) name
                = Mlt.get (Mlt.transition_properties this0) name)
      else
        transition_composite_init (Some calloc0) mlt_transition_init arg = Some this0
  end
  /\ (forall geometry start nw nh end_,
        geometry_parse geometry (Some start) (Some "") nw nh = Some end_ ->
        G.x end_ = G.x start /\ G.y end_ = G.y start /\ G.mix end_ = G.mix start
        /\ G.w end_ = Flt.float_of_int (G.sw end_)
        /\ G.h end_ = Flt.float_of_int (G.sh end_))
  /\ (forall start0 end0 result nw nh,
        Z.abs nw < 2 ^ 24 -> Z.abs nh < 2 ^ 24 ->
        exists start end_,
          geometry_parse start0 None (Some "85%,5%:10%x10%") nw nh = Some start
          /\ geometry_parse end0 (Some start) (Some "") nw nh = Some end_
          /\ Int.of_float (percent (Flt.float_of_int 10) nw) = Some (G.sw start)
          /\ Int.of_float (percent (Flt.float_of_int 10) nh) = Some (G.sh start)
          /\ forall position,
               Flt.is_finite position = true ->
               geometry_calculate result start end_ position
               = G.mk nw nh (G.sw result) (G.sh result)
                   (Spec.add_half (percent (Flt.float_of_int 85) nw))
                   (Spec.add_half (percent (Flt.float_of_int 5) nh))
                   (Flt.float_of_int (G.sw start)) (Flt.float_of_int (G.sh start))
                   (Flt.float_of_int 100) (G.halign result) (G.valign result))
  /\ (forall this a_frame b_frame ra image overlay result start end_,
        Mlt.get (Mlt.transition_properties this) "start" = Some "85%,5%:10%x10%" ->
        Mlt.get (Mlt.transition_properties this) "end" = Some "" ->
        Mlt.get (Mlt.transition_properties this) "distort" = None ->
        Mlt.get (Mlt.transition_properties this) "halign" = None ->
        Mlt.get (Mlt.transition_properties this) "valign" = None ->
        Mlt.t_in this <= Mlt.frame_position a_frame <= Mlt.t_out this ->
        Mlt.t_out this - Mlt.t_in this < 2 ^ 24 - 1 ->
        - 2 ^ 30 <= Mlt.t_in this -> Mlt.t_out this < 2 ^ 30 ->
        Mlt.frame_properties a_frame = Mlt.frame_properties (base_20x20 1) ->
        Mlt.supply a_frame 20 20 = (ra, image, 20, 20) ->
        bytes image -> length image = 800%nat ->
        Mlt.frame_properties b_frame = Mlt.frame_properties white_overlay ->
        Mlt.aspect_ratio b_frame = Flt.d1_0 ->
        Mlt.alpha_mask b_frame = None ->
        Mlt.supply b_frame 2 2 = (0, overlay, 2, 2) ->
        bytes overlay -> length overlay = 8%nat ->
        exists c,
          transition_get_image this a_frame (Some b_frame) 20 20 result start end_ = Some c
          /\ c_ret c = 0 /\ c_width c = 20 /\ c_height c = 20
          /\ Mlt.requests (c_a_frame c) = (20, 20) :: Mlt.requests a_frame
          /\ Mlt.requests <$> c_b_frame c = Some ((2, 2) :: Mlt.requests b_frame)
          /\ length (c_image c) = 800%nat
          /\ (forall i j, 2 <= i < 4 -> 18 <= j < 20 ->
                load (c_image c) (2 * (i * 20 + j))
                = load overlay (2 * ((i - 2) * 2 + (j - 18)))
                /\ load (c_image c) (2 * (i * 20 + j) + 1)
                   = load overlay (2 * ((i - 2) * 2 + (j - 18)) + 1))
          /\ (forall i j, 0 <= j < 20 -> ~ (2 <= i < 4 /\ 18 <= j < 20) ->
                load (c_image c) (2 * (i * 20 + j)) = load image (2 * (i * 20 + j))
                /\ load (c_image c) (2 * (i * 20 + j) + 1)
                   = load image (2 * (i * 20 + j) + 1))).
Proof.
  split; [|split; [|split]].
  - destruct calloc as [calloc0|]; [|reflexivity]. cbv zeta.
    destruct (mlt_transition_init calloc0) as [this0 status] eqn:Hinit. cbn [fst snd].
    destruct (Z.eqb_spec status 0) as [->|Hs].
    + unfold transition_composite_init at 1. rewrite Hinit. cbn [Z.eqb].
      eexists. split; [reflexivity|].
      cbn [Mlt.process Mlt.transition_properties Mlt.t_in Mlt.t_out].
      split; [reflexivity|].
      split; [rewrite get_set_ne by discriminate; apply get_set|].
      split; [apply get_set|]. repeat split.
      intros name Hs He. rewrite !get_set_ne by congruence. reflexivity.
    + unfold transition_composite_init. rewrite Hinit.
      destruct (Z.eqb_spec status 0); [contradiction|reflexivity].
  - intros geometry start nw nh end_ H.
    apply geometry_parse_defaults_inherit in H. tauto.
  - intros start0 end0 result nw nh Hnw Hnh.
    destruct (default_geometry_static start0 end0 result nw nh Hnw Hnh)
      as (start & end_ & E1 & E2 & Ex & Ey & Ew & Eh & Fw & Fh & Fm & _ & _ & _ & _ & _ & St).
    exists start, end_. do 4 (split; [assumption|]).
    intros position Hp. rewrite (St position Hp), Ex, Ey, Fw, Fh, Fm. reflexivity.
  - intros. eapply transition_get_image_default_20; eassumption.
Qed.

(** The constructed default transition on a grey frame and a white
    overlay. *)
Lemma transition_composite_init_default_box_witness :
  exists this c,
    transition_composite_init (Some blank_transition) init_ok None = Some this
    /\ transition_get_image this (base_20x20 1) (Some white_overlay) 20 20 junk junk junk
       = Some c
    /\ Mlt.requests <$> c_b_frame c = Some [(2, 2)]
    /\ load (c_image c) (2 * (2 * 20 + 18)) = Some 235
    /\ load (c_image c) (2 * (1 * 20 + 17)) = Some 16.
Proof.
  destruct (transition_composite_init_default_box (Some blank_transition) init_ok None)
    as (A & _ & _ & D).
  cbv zeta in A. cbn [init_ok fst snd Z.eqb] in A.
  destruct A as (this & E & _ & Hs & He & Hi & Ho & Hk).
  cbn [blank_transition Mlt.t_in Mlt.t_out] in Hi, Ho.
  destruct (D this (base_20x20 1) white_overlay 0 (replicate 800 16) (replicate 8 235)
              junk junk junk Hs He)
    as (c & Ec & _ & _ & _ & _ & Hreq & _ & In & Out).
  - rewrite Hk by discriminate. reflexivity.
  - rewrite Hk by discriminate. reflexivity.
  - rewrite Hk by discriminate. reflexivity.
  - rewrite Hi, Ho. cbn. lia.
  - rewrite Hi, Ho. cbn. lia.
  - rewrite Hi. cbn. lia.
  - rewrite Ho. cbn. lia.
  - reflexivity.
  - reflexivity.
  - apply Forall_replicate. lia.
  - reflexivity.
  - reflexivity.
  - reflexivity.
  - reflexivity.
  - reflexivity.
  - apply Forall_replicate. lia.
  - reflexivity.
  - exists this, c. split; [exact E|]. split; [exact Ec|]. split; [exact Hreq|]. split.
    + rewrite (proj1 (In 2 18 ltac:(lia) ltac:(lia))). reflexivity.
    + rewrite (proj1 (Out 1 17 ltac:(lia) ltac:(lia))). reflexivity.
Defined.

(** The claim C10 as it is written fails.  Not every invocation sets the
    strings: a failed [calloc] gives no transition and a failed
    initialisation one without ['start'] and ['end'].  And the default box
    on a frame of 20 x 20 is not at (17, 1), which is 85% and 5% of the
    frame: the two 0.5 biases are added before the position is taken to
    pixels, so the samples at (17, 1) and (17, 2) are the frame's and
    those at (18, 2) and (19, 3) the overlay's. *)
Lemma default_box_off_85_5 :
  transition_composite_init None init_ok None = None
  /\ transition_composite_init (Some blank_transition) init_fail None = Some blank_transition
  /\ Mlt.get (Mlt.transition_properties blank_transition) "start" = None
  /\ Mlt.get (Mlt.transition_properties blank_transition) "end" = None
  /\ (this ← transition_composite_init (Some blank_transition) init_ok None;
      c ← transition_get_image this (base_20x20 1) (Some white_overlay) 20 20 junk junk junk;
      Some (Mlt.requests <$> c_b_frame c,
            load (c_image c) (2 * (1 * 20 + 17)), load (c_image c) (2 * (2 * 20 + 17)),
            load (c_image c) (2 * (2 * 20 + 18)), load (c_image c) (2 * (3 * 20 + 19))))
     = Some (Some [(2, 2)], Some 16, Some 16, Some 235, Some 235).
Proof. repeat apply conj; vm_compute; reflexivity. Qed.
